(** * sync-exercise: one-directional directory mirroring

    A shallow embedding of the synchronisation engine
    (FsHelper, Validators, NaiveSync, ActiveSync and Sync) over a model of the
    part of [node:fs/promises] the engine calls, followed by the properties
    of the engine that the specification states. *)

From Stdlib Require Import List String ZArith SpecFloat Lia Bool Arith.
Import ListNotations.
Local Open Scope string_scope.
Local Open Scope list_scope.
Local Open Scope Z_scope.

(* ================================================================== *)
(** ** Paths

    Paths are absolute and kept in the normal form that [path.join] and
    [path.normalize] produce: the list of their components, root first.
    [join(dir, name)] appends, [dirname] drops the last component. *)

Definition path := list string.

Fixpoint path_eqb (p q : path) : bool :=
  match p, q with
  | [], [] => true
  | a :: p', b :: q' => String.eqb a b && path_eqb p' q'
  | _, _ => false
  end.

Definition join (dir rel : path) : path := dir ++ rel.

Definition dirname (p : path) : path := removelast p.

(** [strip_prefix root p] is [Some rel] when [p = root ++ rel]. *)
Fixpoint strip_prefix (root p : path) : option path :=
  match root, p with
  | [], _ => Some p
  | r :: root', c :: p' => if String.eqb r c then strip_prefix root' p' else None
  | _ :: _, [] => None
  end.

(** [String.prototype.replace(pat, '')]: the first occurrence of [pat] is
    removed, the string is returned as it is when there is none.  On
    components: for a path that begins with [pat] (every path the engine
    builds, and every path a watcher of the source root reports) the first
    occurrence is the leading one, and the model is the string operation.
    For another path the string operation may cut inside a component,
    which the model does not follow. *)
Fixpoint replace (p pat : path) : path :=
  match strip_prefix pat p with
  | Some rest => rest
  | None => match p with
            | [] => []
            | c :: p' => c :: replace p' pat
            end
  end.

(* ================================================================== *)
(** ** The file system

    Times are kept as the operating system keeps them, in nanoseconds; a
    time moves when the entry is written or stamped, not when it is read,
    and the time of a directory does not follow its entries.
    [readable] and [writable] are the answers of [access(R_OK)] and
    [access(W_OK)].  The primitives below are those of a process the
    system lets through: it can read what it copies and change the
    directories it works in; low-level failures (EACCES on a parent,
    ENOSPC, I/O errors) are outside the model.  One refusal is modelled:
    [copyFile] does not overwrite a file that cannot be written, which is
    what a copy of a read-only file is.  A directory is an association
    list in listing order; a name bound twice is shadowed by its first
    binding.  A symbolic link carries the regular file it resolves to
    ([None] when it dangles); links to directories are not modelled. *)

Record meta := Meta {
  atimeNs : Z;
  mtimeNs : Z;
  readable : bool;
  writable : bool
}.

#[warnings="-register-all"]
Inductive node : Type :=
| File (m : meta) (data : string)
| Dir (m : meta) (entries : list (string * node))
| Symlink (referent : option (meta * string))
| Special (m : meta).

Inductive kind := KFile | KDirectory | KSymlink | KSpecial.

Definition isFile (k : kind) : bool :=
  match k with KFile => true | _ => false end.
Definition isDirectory (k : kind) : bool :=
  match k with KDirectory => true | _ => false end.

(** The type a [Dirent] reports: that of the entry itself. *)
Definition kind_of (n : node) : kind :=
  match n with
  | File _ _ => KFile
  | Dir _ _ => KDirectory
  | Symlink _ => KSymlink
  | Special _ => KSpecial
  end.

Section Assoc.
Context {A : Type}.

Fixpoint assoc (c : string) (es : list (string * A)) : option A :=
  match es with
  | [] => None
  | (c', v) :: es' => if String.eqb c c' then Some v else assoc c es'
  end.

Definition unbind (c : string) (es : list (string * A)) : list (string * A) :=
  filter (fun e => negb (String.eqb c (fst e))) es.

(** Replaces the first binding of [c], or appends one. *)
Fixpoint bind_entry (c : string) (v : A) (es : list (string * A)) : list (string * A) :=
  match es with
  | [] => [(c, v)]
  | (c', v') :: es' =>
      if String.eqb c c' then (c, v) :: es' else (c', v') :: bind_entry c v es'
  end.

Definition assoc_alter (f : option A -> option A) (c : string)
    (es : list (string * A)) : list (string * A) :=
  match f (assoc c es) with
  | Some v => bind_entry c v es
  | None => unbind c es
  end.

(** The bindings a listing shows: the first one of every name. *)
Fixpoint visible_from (seen : list string) (es : list (string * A))
    : list (string * A) :=
  match es with
  | [] => []
  | (c, v) :: es' =>
      if existsb (String.eqb c) seen then visible_from seen es'
      else (c, v) :: visible_from (c :: seen) es'
  end.

Definition visible (es : list (string * A)) : list (string * A) :=
  visible_from [] es.
End Assoc.

(** The entry found at [p], walking down real directories. *)
Fixpoint lookup (p : path) (o : option node) : option node :=
  match p with
  | [] => o
  | c :: p' =>
      match o with
      | Some (Dir _ es) => lookup p' (assoc c es)
      | _ => None
      end
  end.

(** [alter f p] rewrites the entry at [p] ([None]: no entry), when its
    parent is a directory. *)
Fixpoint alter (f : option node -> option node) (p : path) (o : option node)
    : option node :=
  match p with
  | [] => f o
  | c :: p' =>
      match o with
      | Some (Dir m es) => Some (Dir m (assoc_alter (alter f p') c es))
      | _ => o
      end
  end.

Definition find (p : path) (d : node) : option node := lookup p (Some d).

Definition change (f : option node -> option node) (p : path) (d : node) : node :=
  match alter f p (Some d) with
  | Some d' => d'
  | None => d
  end.

(** *** Numbers

    A JavaScript number is an IEEE 754 binary64 value, and so is a C
    [double]; the four operations round to nearest, ties to even. *)

Definition Number := spec_float.

Declare Scope Number_scope.
Delimit Scope Number_scope with Number.
Bind Scope Number_scope with Number.

Definition Number_of (z : Z) : Number := binary_normalize 53 1024 z 0 false.

Definition Number_add (x y : Number) : Number := SFadd 53 1024 x y.
Definition Number_sub (x y : Number) : Number := SFsub 53 1024 x y.
Definition Number_mul (x y : Number) : Number := SFmul 53 1024 x y.
Definition Number_div (x y : Number) : Number := SFdiv 53 1024 x y.

Infix "+" := Number_add : Number_scope.
Infix "-" := Number_sub : Number_scope.
Infix "*" := Number_mul : Number_scope.
Infix "/" := Number_div : Number_scope.

(** [x === y]: false when one of them is NaN, true for the two zeros. *)
Definition strict_equal (x y : Number) : bool := SFeqb x y.

Definition signed (s : bool) (m : positive) : Z := if s then Z.neg m else Z.pos m.

(** The integer part of a number, towards zero: the conversion of a
    [double] to an integer type in C, and of a number to the time value of
    a [Date].  A number that is not finite has none (the conversion is not
    defined in C, the [Date] is invalid): such a number is not a time, see
    below. *)
Definition trunc (x : Number) : Z :=
  match x with
  | S754_finite s m e =>
      if 0 <=? e then signed s m * 2 ^ e else Z.quot (signed s m) (2 ^ (- e))
  | _ => 0
  end.

Definition Math_abs (x : Number) : Number := SFabs x.

(** [Math.round]: the nearest integer, a half goes upwards (the floor of
    [x + 1/2], taken exactly); a zero keeps the sign of [x]; NaN and the
    infinities are returned as they are. *)
Definition Math_round (x : Number) : Number :=
  match x with
  | S754_finite s m e =>
      if 0 <=? e then x
      else
        let z := Z.shiftr (signed s m + 2 ^ (- e - 1)) (- e) in
        if z =? 0 then S754_zero s else Number_of z
  | _ => x
  end.

(** *** [Stats]

    [Stats.atimeMs] and [Stats.mtimeMs] are numbers, computed from the
    seconds and the nanoseconds of the [timespec] of the entry
    ([msFromTimeSpec]: [sec * 1000 + nsec / 1e6]).  [Stats.atime] and
    [Stats.mtime] are the [Date]s of these numbers, rounded: whole
    milliseconds.  The times of the model are times that a [Date] can
    hold (within 8.64e15 ms of the epoch); for these every number below is
    finite. *)

Record Stats := {
  st_kind : kind;
  atimeMs : Number;
  mtimeMs : Number;
  st_readable : bool;
  st_writable : bool
}.

Definition kMsPerSec : Number := Number_of 1000.
Definition kNsPerMs : Number := Number_of 1000000.

Definition msFromTimeSpec (sec nsec : Z) : Number :=
  (Number_of sec * kMsPerSec + Number_of nsec / kNsPerMs)%Number.

(** A time in nanoseconds as the [timespec] that [stat] returns it in. *)
Definition tv_sec (ns : Z) : Z := ns / 1000000000.
Definition tv_nsec (ns : Z) : Z := ns mod 1000000000.

Definition ms_of_ns (ns : Z) : Number := msFromTimeSpec (tv_sec ns) (tv_nsec ns).

(** [new Date(x).getTime()]. *)
Definition dateFromMs (ms : Number) : Z := trunc (Math_round ms).

(** The [Date] in [Stats.atime] and [Stats.mtime]: whole milliseconds. *)
Definition atime (s : Stats) : Z := dateFromMs (atimeMs s).
Definition mtime (s : Stats) : Z := dateFromMs (mtimeMs s).

Definition stats_of (k : kind) (m : meta) : Stats :=
  {| st_kind := k;
     atimeMs := ms_of_ns (atimeNs m);
     mtimeMs := ms_of_ns (mtimeNs m);
     st_readable := readable m;
     st_writable := writable m |}.

(** What [stat], which follows links, reports for an entry. *)
Definition stat_node (n : node) : option Stats :=
  match n with
  | File m _ => Some (stats_of KFile m)
  | Dir m _ => Some (stats_of KDirectory m)
  | Symlink (Some (m, _)) => Some (stats_of KFile m)
  | Symlink None => None
  | Special m => Some (stats_of KSpecial m)
  end.

Inductive errno :=
| ENOENT | ENOTDIR | EISDIR | EEXIST | EACCES | ENXIO | EBUSY
| E_IN_DIR_ERROR | E_IN_DIR_ACCESS | E_OUT_MISMATCH | E_OUT_DIR_ACCESS.

(** *** The primitives of [node:fs/promises], on a disk *)

Definition fs_stat (p : path) (d : node) : errno + Stats :=
  match find p d with
  | Some n => match stat_node n with Some s => inr s | None => inl ENOENT end
  | None => inl ENOENT
  end.

Inductive access_mode := R_OK | W_OK | RW_OK.

Definition fs_access (p : path) (mode : access_mode) (d : node) : errno + unit :=
  match fs_stat p d with
  | inr s =>
      let ok := match mode with
                | R_OK => st_readable s
                | W_OK => st_writable s
                | RW_OK => st_readable s && st_writable s
                end in
      if ok then inr tt else inl EACCES
  | inl e => inl e
  end.

Record Dirent := { name : string; d_kind : kind }.

Definition dirent_of (e : string * node) : Dirent :=
  {| name := fst e; d_kind := kind_of (snd e) |}.

Definition fs_readdir (p : path) (d : node) : errno + list Dirent :=
  match find p d with
  | Some (Dir _ es) => inr (map dirent_of (visible es))
  | Some _ => inl ENOTDIR
  | None => inl ENOENT
  end.

Definition new_meta (now : Z) : meta :=
  {| atimeNs := now; mtimeNs := now; readable := true; writable := true |}.

(** [mkdir(p, {recursive: true})]: makes the missing directories of [p];
    nothing changes when [p] is a directory already. *)
Fixpoint mkdirp (now : Z) (p : path) (n : node) : option node :=
  match n with
  | Dir m es =>
      match p with
      | [] => Some n
      | c :: p' =>
          let child := match assoc c es with
                       | Some n' => n'
                       | None => Dir (new_meta now) []
                       end in
          match mkdirp now p' child with
          | Some child' => Some (Dir m (bind_entry c child' es))
          | None => None
          end
      end
  | _ => None
  end.

Definition fs_mkdir_recursive (p : path) (now : Z) (d : node) : errno + node :=
  match mkdirp now p d with
  | Some d' => inr d'
  | None => inl EEXIST
  end.

(** [rm(p)] and [rm(p, {recursive: true})]. *)
Definition fs_rm (recursive : bool) (p : path) (now : Z) (d : node) : errno + node :=
  match p with
  | [] => inl EBUSY
  | _ :: _ =>
      match find p d with
      | None => inl ENOENT
      | Some (Dir _ _) =>
          if recursive then inr (change (fun _ => None) p d) else inl EISDIR
      | Some _ => inr (change (fun _ => None) p d)
      end
  end.

(** What [copyFile] reads: the content and the mode of a regular file,
    through a link. *)
Definition readable_file (n : node) : errno + (meta * string) :=
  match n with
  | File m s => inr (m, s)
  | Symlink (Some (m, s)) => inr (m, s)
  | Symlink None => inl ENOENT
  | Dir _ _ => inl EISDIR
  | Special _ => inl ENXIO
  end.

(** What [copyFile] leaves at the target: the content and the mode of the
    source, written [now].  A target that is there is opened for writing:
    this is refused when it cannot be written. *)
Definition written (now : Z) (src : meta * string) (old : option node) : errno + node :=
  let fresh := {| atimeNs := now; mtimeNs := now;
                  readable := readable (fst src); writable := writable (fst src) |} in
  let over (m : meta) := {| atimeNs := atimeNs m; mtimeNs := now;
                  readable := readable (fst src); writable := writable (fst src) |} in
  match old with
  | None => inr (File fresh (snd src))
  | Some (File m _) =>
      if writable m then inr (File (over m) (snd src)) else inl EACCES
  | Some (Symlink (Some (m, _))) =>
      if writable m then inr (Symlink (Some (over m, snd src))) else inl EACCES
  | Some (Symlink None) => inr (Symlink (Some (fresh, snd src)))
  | Some (Dir _ _) => inl EISDIR
  | Some (Special _) => inl ENXIO
  end.

Definition fs_copyFile (source target : path) (now : Z) (d : node) : errno + node :=
  match find source d with
  | None => inl ENOENT
  | Some n =>
      match readable_file n with
      | inl e => inl e
      | inr src =>
          match target with
          | [] => inl EISDIR
          | _ :: _ =>
              match find (dirname target) d with
              | Some (Dir _ _) =>
                  match written now src (find target d) with
                  | inr n' => inr (change (fun _ => Some n') target d)
                  | inl e => inl e
                  end
              | Some _ => inl ENOTDIR
              | None => inl ENOENT
              end
          end
      end
  end.

(** [utimes] takes a [Date] as seconds in a number ([toUnixTimestamp]:
    [getTime() / 1000]); the system call takes a [timespec], which libuv
    makes of the number ([uv__fs_to_timespec]): the seconds are its integer
    part, the nanoseconds the integer part of what is left times [1e9], cut
    to whole microseconds. *)
Definition toUnixTimestamp (date : Z) : Number :=
  (Number_of date / Number_of 1000)%Number.

Definition uv__fs_to_timespec (time : Number) : Z :=
  let sec := trunc time in
  let nsec := trunc ((time - Number_of sec) * Number_of 1000000000)%Number in
  let nsec := nsec - Z.rem nsec 1000 in
  if nsec <? 0 then (sec - 1) * 1000000000 + (nsec + 1000000000)
  else sec * 1000000000 + nsec.

Definition set_times (a m : Z) (x : meta) : meta :=
  {| atimeNs := uv__fs_to_timespec (toUnixTimestamp a);
     mtimeNs := uv__fs_to_timespec (toUnixTimestamp m);
     readable := readable x; writable := writable x |}.

Definition touched (a m : Z) (n : node) : option node :=
  match n with
  | File x s => Some (File (set_times a m x) s)
  | Dir x es => Some (Dir (set_times a m x) es)
  | Symlink (Some (x, s)) => Some (Symlink (Some (set_times a m x, s)))
  | Symlink None => None
  | Special x => Some (Special (set_times a m x))
  end.

(** [utimes(p, atime, mtime)] with two [Date]s. *)
Definition fs_utimes (p : path) (a m : Z) (now : Z) (d : node) : errno + node :=
  match find p d with
  | None => inl ENOENT
  | Some n =>
      match touched a m n with
      | Some n' => inr (change (fun _ => Some n') p d)
      | None => inl ENOENT
      end
  end.

(* ================================================================== *)
(** ** The objects of the program

    The fields of the three classes, and their synchronous methods. *)

Inductive event_name :=
| Ev_add | Ev_addDir | Ev_change | Ev_unlink | Ev_unlinkDir | Ev_ready.

Definition event_name_eqb (a b : event_name) : bool :=
  match a, b with
  | Ev_add, Ev_add | Ev_addDir, Ev_addDir | Ev_change, Ev_change
  | Ev_unlink, Ev_unlink | Ev_unlinkDir, Ev_unlinkDir | Ev_ready, Ev_ready => true
  | _, _ => false
  end.

(** The chokidar watcher, as far as the program uses it: whether it was
    closed, and the events a handler of the ActiveSync object listens to. *)
Record FSWatcher := {
  closed : bool;
  listeners : list event_name
}.

Definition addListener (ev : event_name) (fw : FSWatcher) : FSWatcher :=
  {| closed := closed fw; listeners := listeners fw ++ [ev] |}.

Fixpoint remove_first (ev : event_name) (l : list event_name) : list event_name :=
  match l with
  | [] => []
  | x :: l' => if event_name_eqb ev x then l' else x :: remove_first ev l'
  end.

Definition removeListener (ev : event_name) (fw : FSWatcher) : FSWatcher :=
  {| closed := closed fw; listeners := remove_first ev (listeners fw) |}.

Definition close (fw : FSWatcher) : FSWatcher :=
  {| closed := true; listeners := listeners fw |}.

Definition watch : FSWatcher := {| closed := false; listeners := [] |}.

Record ActiveSyncObj := {
  ActiveSync_inPath : path;
  ActiveSync_outPath : path;
  ActiveSync_ready : bool;
  ActiveSync_watcher : option FSWatcher
}.

Definition ActiveSync_new (inPath outPath : path) : ActiveSyncObj :=
  {| ActiveSync_inPath := inPath; ActiveSync_outPath := outPath;
     ActiveSync_ready := false; ActiveSync_watcher := None |}.

Definition ActiveSync_run (this : ActiveSyncObj) : ActiveSyncObj :=
  let watcher := watch in
  let watcher := addListener Ev_add watcher in
  let watcher := addListener Ev_addDir watcher in
  let watcher := addListener Ev_change watcher in
  let watcher := addListener Ev_unlink watcher in
  let watcher := addListener Ev_unlinkDir watcher in
  let watcher := addListener Ev_ready watcher in
  {| ActiveSync_inPath := ActiveSync_inPath this;
     ActiveSync_outPath := ActiveSync_outPath this;
     ActiveSync_ready := ActiveSync_ready this;
     ActiveSync_watcher := Some watcher |}.

Definition ActiveSync_abort (this : ActiveSyncObj) : ActiveSyncObj :=
  match ActiveSync_watcher this with
  | None => this
  | Some watcher =>
      let watcher := close watcher in
      let watcher := removeListener Ev_add watcher in
      let watcher := removeListener Ev_addDir watcher in
      let watcher := removeListener Ev_change watcher in
      let watcher := removeListener Ev_unlink watcher in
      let watcher := removeListener Ev_unlinkDir watcher in
      {| ActiveSync_inPath := ActiveSync_inPath this;
         ActiveSync_outPath := ActiveSync_outPath this;
         ActiveSync_ready := ActiveSync_ready this;
         ActiveSync_watcher := Some watcher |}
  end.

Definition ActiveSync__readyHandler (this : ActiveSyncObj) : ActiveSyncObj :=
  {| ActiveSync_inPath := ActiveSync_inPath this;
     ActiveSync_outPath := ActiveSync_outPath this;
     ActiveSync_ready := true;
     ActiveSync_watcher := option_map (removeListener Ev_ready) (ActiveSync_watcher this) |}.

Definition ActiveSync__abortHandler (this : ActiveSyncObj) : ActiveSyncObj :=
  ActiveSync_abort this.

Definition ActiveSync_resolveSource (this : ActiveSyncObj) (p : path) : path :=
  replace p (ActiveSync_inPath this).

Definition ActiveSync_resolveTarget (this : ActiveSyncObj) (p : path) : path :=
  let relativeSourcePath := ActiveSync_resolveSource this p in
  join (ActiveSync_outPath this) relativeSourcePath.

Record NaiveSyncObj := {
  NaiveSync_inPath : path;
  NaiveSync_outPath : path;
  NaiveSync_aborted : bool
}.

Definition NaiveSync_new (inPath outPath : path) : NaiveSyncObj :=
  {| NaiveSync_inPath := inPath; NaiveSync_outPath := outPath;
     NaiveSync_aborted := false |}.

Definition NaiveSync_abort (this : NaiveSyncObj) : NaiveSyncObj :=
  {| NaiveSync_inPath := NaiveSync_inPath this;
     NaiveSync_outPath := NaiveSync_outPath this;
     NaiveSync_aborted := true |}.

Definition NaiveSync__abortHandler (this : NaiveSyncObj) : NaiveSyncObj :=
  NaiveSync_abort this.

Record SyncObj := {
  Sync_inArg : path;
  Sync_outArg : path;
  Sync_ctrl_aborted : bool;
  Sync_active : option ActiveSyncObj;
  Sync_naive : option NaiveSyncObj;
  Sync_aborted : bool
}.

Definition Sync_new (inArg outArg : path) : SyncObj :=
  {| Sync_inArg := inArg; Sync_outArg := outArg; Sync_ctrl_aborted := false;
     Sync_active := None; Sync_naive := None; Sync_aborted := false |}.

Definition Sync_abort (this : SyncObj) : SyncObj :=
  {| Sync_inArg := Sync_inArg this;
     Sync_outArg := Sync_outArg this;
     Sync_ctrl_aborted := true;
     Sync_active := option_map ActiveSync_abort (Sync_active this);
     Sync_naive := option_map NaiveSync_abort (Sync_naive this);
     Sync_aborted := true |}.

(* ================================================================== *)
(** ** The process

    The disk, a clock, the Sync object of the program, and the interrupt
    of the user: [sigint = Some k] is a SIGINT that arrives [k] suspension
    points from now; it runs the listener that [Sync.run] registers with
    [process.once], at the first suspension point where one is registered. *)

Record process := {
  disk : node;
  clock : Z;
  sigint : option nat;
  sigint_listener : bool;
  sync : SyncObj
}.

Definition set_disk (d : node) (w : process) : process :=
  {| disk := d; clock := clock w; sigint := sigint w;
     sigint_listener := sigint_listener w; sync := sync w |}.

Definition set_sync (s : SyncObj) (w : process) : process :=
  {| disk := disk w; clock := clock w; sigint := sigint w;
     sigint_listener := sigint_listener w; sync := s |}.

Definition set_sigint (k : option nat) (w : process) : process :=
  {| disk := disk w; clock := clock w; sigint := k;
     sigint_listener := sigint_listener w; sync := sync w |}.

(** Every call of a file system primitive is a suspension point: time
    passes, and a pending interrupt may be handled. *)
Definition tick (w : process) : process :=
  let now := clock w + 1 in
  match sigint w with
  | None =>
      {| disk := disk w; clock := now; sigint := None;
         sigint_listener := sigint_listener w; sync := sync w |}
  | Some (S k) =>
      {| disk := disk w; clock := now; sigint := Some k;
         sigint_listener := sigint_listener w; sync := sync w |}
  | Some O =>
      if sigint_listener w then
        {| disk := disk w; clock := now; sigint := None;
           sigint_listener := false; sync := Sync_abort (sync w) |}
      else
        {| disk := disk w; clock := now; sigint := Some O;
           sigint_listener := false; sync := sync w |}
  end.

(** A computation returns, throws, or is cut by the recursion bound of the
    model. *)
Inductive res (A : Type) : Type :=
| Ret (a : A)
| Throw (e : errno)
| Starved.
Arguments Ret {A} a.
Arguments Throw {A} e.
Arguments Starved {A}.

Definition M (A : Type) : Type := process -> res A * process.

Definition ret {A} (a : A) : M A := fun w => (Ret a, w).
Definition throw {A} (e : errno) : M A := fun w => (Throw e, w).
Definition starved {A} : M A := fun w => (Starved, w).

Definition bind {A B} (m : M A) (k : A -> M B) : M B :=
  fun w =>
    match m w with
    | (Ret a, w') => k a w'
    | (Throw e, w') => (Throw e, w')
    | (Starved, w') => (Starved, w')
    end.

(** [try { m } catch (e) { h }] *)
Definition try_catch {A} (m : M A) (h : errno -> M A) : M A :=
  fun w =>
    match m w with
    | (Throw e, w') => h e w'
    | r => r
    end.

Declare Scope monad_scope.
Delimit Scope monad_scope with monad.
Notation "x <- m ;; k" := (bind m (fun x => k))
  (at level 61, m at next level, right associativity) : monad_scope.
Notation "m ;; k" := (bind m (fun _ => k))
  (at level 61, right associativity) : monad_scope.
Local Open Scope monad_scope.

Fixpoint for_of {A} (l : list A) (body : A -> M unit) : M unit :=
  match l with
  | [] => ret tt
  | x :: l' => body x ;; for_of l' body
  end.

(** An awaited primitive that reads the disk. *)
Definition query {A} (op : node -> errno + A) : M A :=
  fun w =>
    let w := tick w in
    match op (disk w) with
    | inr a => (Ret a, w)
    | inl e => (Throw e, w)
    end.

(** An awaited primitive that writes the disk. *)
Definition command (op : Z -> node -> errno + node) : M unit :=
  fun w =>
    let w := tick w in
    match op (clock w) (disk w) with
    | inr d => (Ret tt, set_disk d w)
    | inl e => (Throw e, w)
    end.

Definition stat (p : path) : M Stats := query (fs_stat p).
Definition access (p : path) (mode : access_mode) : M unit := query (fs_access p mode).
Definition readdir (p : path) : M (list Dirent) := query (fs_readdir p).
Definition mkdir_recursive (p : path) : M unit := command (fs_mkdir_recursive p).
Definition rm (p : path) : M unit := command (fs_rm false p).
Definition rm_recursive (p : path) : M unit := command (fs_rm true p).
Definition copyFile (source target : path) : M unit := command (fs_copyFile source target).
Definition utimes (p : path) (a m : Z) : M unit := command (fs_utimes p a m).

(* ================================================================== *)
(** ** FsHelper *)

Definition FsHelper_pathExists (filePath : path) : M bool :=
  try_catch (stat filePath ;; ret true) (fun _ => ret false).

Definition FsHelper_canRead (filePath : path) : M bool :=
  exists_ <- FsHelper_pathExists filePath ;;
  if negb exists_ then ret false
  else try_catch (access filePath R_OK ;; ret true) (fun _ => ret false).

Definition FsHelper_canWrite (filePath : path) : M bool :=
  exists_ <- FsHelper_pathExists filePath ;;
  if negb exists_ then ret false
  else try_catch (access filePath W_OK ;; ret true) (fun _ => ret false).

Definition FsHelper_ensureDir (dirPath : path) : M unit :=
  readable <- FsHelper_canRead dirPath ;;
  if readable then ret tt
  else mkdir_recursive dirPath.

Definition FsHelper_copyFile (source target : path) : M unit :=
  let dir := dirname target in
  let copy_and_stamp : M unit :=
    copyFile source target ;;
    sourceInfo <- stat source ;;
    utimes target (atime sourceInfo) (mtime sourceInfo) in
  FsHelper_ensureDir dir ;;
  exists_ <- FsHelper_pathExists target ;;
  if exists_ then
    sourceInfo <- stat source ;;
    targetInfo <- stat target ;;
    let delta := Math_abs (Math_round (mtimeMs sourceInfo - mtimeMs targetInfo)) in
    if strict_equal delta (Number_of 0) then ret tt
    else copy_and_stamp
  else copy_and_stamp.

Fixpoint FsHelper_copyDirectory (fuel : nat) (source target : path) : M unit :=
  match fuel with
  | O => starved
  | S fuel' =>
      FsHelper_ensureDir target ;;
      entries <- readdir source ;;
      for_of entries (fun entry =>
        let srcFile := join source [name entry] in
        let destFile := join target [name entry] in
        srcStat <- stat srcFile ;;
        if isDirectory (st_kind srcStat) then
          FsHelper_copyDirectory fuel' srcFile destFile
        else
          FsHelper_copyFile srcFile destFile)
  end.

Definition FsHelper_emptyDir (dirPath : path) : M unit :=
  exists_ <- FsHelper_pathExists dirPath ;;
  if negb exists_ then ret tt
  else
    writeable <- FsHelper_canWrite dirPath ;;
    if negb writeable then throw EACCES
    else
      items <- readdir dirPath ;;
      for_of items (fun item =>
        let file := join dirPath [name item] in
        rm_recursive file).

(* ================================================================== *)
(** ** Validators *)

Definition Validators_isPath (target : path) : M bool :=
  try_catch (stat target ;; ret true) (fun _ => ret false).

Definition Validators_isDirectory (target : path) : M bool :=
  try_catch (stats <- stat target ;; ret (isDirectory (st_kind stats)))
            (fun _ => ret false).

Definition Validators_canWrite (target : path) : M bool :=
  try_catch (access target RW_OK ;; ret true) (fun _ => ret false).

Definition Validators_canRead (target : path) : M bool :=
  try_catch (access target R_OK ;; ret true) (fun _ => ret false).

(* ================================================================== *)
(** ** NaiveSync *)

Fixpoint NaiveSync__cleanupOutPath (fuel : nat) (this : NaiveSyncObj) (outDir : path)
    : M unit :=
  match fuel with
  | O => starved
  | S fuel' =>
      files <- readdir outDir ;;
      let inDir :=
        if path_eqb outDir (NaiveSync_outPath this) then NaiveSync_inPath this
        else
          let relative := replace outDir (NaiveSync_outPath this) in
          join (NaiveSync_inPath this) relative in
      for_of files (fun file =>
        let src := join inDir [name file] in
        let target := join outDir [name file] in
        sourceExists <- FsHelper_pathExists src ;;
        if sourceExists && isFile (d_kind file) then ret tt
        else if sourceExists && isDirectory (d_kind file) then
          NaiveSync__cleanupOutPath fuel' this target
        else if isDirectory (d_kind file) then rm_recursive target
        else if isFile (d_kind file) then rm target
        else ret tt)
  end.

Definition NaiveSync_run (fuel : nat) (this : NaiveSyncObj) : M unit :=
  NaiveSync__cleanupOutPath fuel this (NaiveSync_outPath this) ;;
  files <- readdir (NaiveSync_inPath this) ;;
  for_of files (fun file =>
    let src := join (NaiveSync_inPath this) [name file] in
    let target := join (NaiveSync_outPath this) [name file] in
    if isDirectory (d_kind file) then FsHelper_copyDirectory fuel src target
    else if isFile (d_kind file) then FsHelper_copyFile src target
    else ret tt).

(* ================================================================== *)
(** ** ActiveSync: the handlers of the watcher's events *)

Definition ActiveSync__addHandler (this : ActiveSyncObj) (p : path) : M unit :=
  if negb (ActiveSync_ready this) then ret tt
  else
    readable <- FsHelper_canRead p ;;
    if negb readable then ret tt
    else
      let destFile := ActiveSync_resolveTarget this p in
      FsHelper_copyFile p destFile.

Definition ActiveSync__addDirHandler (fuel : nat) (this : ActiveSyncObj) (p : path)
    : M unit :=
  if negb (ActiveSync_ready this) then ret tt
  else
    readable <- FsHelper_canRead p ;;
    if negb readable then ret tt
    else
      let destFile := ActiveSync_resolveTarget this p in
      FsHelper_copyDirectory fuel p destFile.

Definition ActiveSync__changeHandler (this : ActiveSyncObj) (p : path) : M unit :=
  if negb (ActiveSync_ready this) then ret tt
  else
    readable <- FsHelper_canRead p ;;
    if negb readable then ret tt
    else
      let destFile := ActiveSync_resolveTarget this p in
      FsHelper_copyFile p destFile.

Definition ActiveSync__unlinkHandler (this : ActiveSyncObj) (p : path) : M unit :=
  if negb (ActiveSync_ready this) then ret tt
  else
    let destFile := ActiveSync_resolveTarget this p in
    exists_ <- FsHelper_pathExists destFile ;;
    if negb exists_ then ret tt
    else
      writeable <- FsHelper_canWrite destFile ;;
      if negb writeable then ret tt
      else rm destFile.

Definition ActiveSync__unlinkDirHandler (this : ActiveSyncObj) (p : path) : M unit :=
  if negb (ActiveSync_ready this) then ret tt
  else
    let destFile := ActiveSync_resolveTarget this p in
    exists_ <- FsHelper_pathExists destFile ;;
    if negb exists_ then ret tt
    else
      writeable <- FsHelper_canWrite destFile ;;
      if negb writeable then ret tt
      else rm_recursive destFile.

(** The events of the watcher. *)
Inductive event :=
| added (p : path)
| addedDirectory (p : path)
| changed (p : path)
| removed (p : path)
| removedDirectory (p : path)
| ready.

Definition event_name_of (ev : event) : event_name :=
  match ev with
  | added _ => Ev_add
  | addedDirectory _ => Ev_addDir
  | changed _ => Ev_change
  | removed _ => Ev_unlink
  | removedDirectory _ => Ev_unlinkDir
  | ready => Ev_ready
  end.

(** The handler that ActiveSync binds to an event of a path. *)
Definition ActiveSync_handle (fuel : nat) (this : ActiveSyncObj) (ev : event) : M unit :=
  match ev with
  | added p => ActiveSync__addHandler this p
  | addedDirectory p => ActiveSync__addDirHandler fuel this p
  | changed p => ActiveSync__changeHandler this p
  | removed p => ActiveSync__unlinkHandler this p
  | removedDirectory p => ActiveSync__unlinkDirHandler this p
  | ready => ret tt
  end.

(* ================================================================== *)
(** ** Sync: the orchestrator *)

Definition get_sync : M SyncObj := fun w => (Ret (sync w), w).

Definition modify_sync (f : SyncObj -> SyncObj) : M unit :=
  fun w => (Ret tt, set_sync (f (sync w)) w).

Definition set_naive (n : option NaiveSyncObj) (this : SyncObj) : SyncObj :=
  {| Sync_inArg := Sync_inArg this; Sync_outArg := Sync_outArg this;
     Sync_ctrl_aborted := Sync_ctrl_aborted this;
     Sync_active := Sync_active this; Sync_naive := n;
     Sync_aborted := Sync_aborted this |}.

Definition set_active (a : option ActiveSyncObj) (this : SyncObj) : SyncObj :=
  {| Sync_inArg := Sync_inArg this; Sync_outArg := Sync_outArg this;
     Sync_ctrl_aborted := Sync_ctrl_aborted this;
     Sync_active := a; Sync_naive := Sync_naive this;
     Sync_aborted := Sync_aborted this |}.

(** [process.once('SIGINT', () => this.abort())] *)
Definition process_once_SIGINT : M unit :=
  fun w => (Ret tt, {| disk := disk w; clock := clock w; sigint := sigint w;
                       sigint_listener := true; sync := sync w |}).

(** The arguments are taken in normal, absolute form. *)
Definition Sync_normalizePath (input : path) : path := input.

Definition Sync_assertSource (src : path) : M unit :=
  isDir <- Validators_isDirectory src ;;
  if negb isDir then throw E_IN_DIR_ERROR
  else
    canRead <- Validators_canRead src ;;
    if negb canRead then throw E_IN_DIR_ACCESS
    else ret tt.

Definition Sync_createTargetPath (target : path) : M unit :=
  try_catch (mkdir_recursive target) (fun _ => throw E_OUT_DIR_ACCESS).

Definition Sync_assertTarget (src : path) : M unit :=
  isPath <- Validators_isPath src ;;
  if negb isPath then Sync_createTargetPath src
  else
    isDir <- Validators_isDirectory src ;;
    if negb isDir then throw E_OUT_MISMATCH
    else
      canWrite <- Validators_canWrite src ;;
      if negb canWrite then throw E_OUT_DIR_ACCESS
      else ret tt.

Definition Sync_run (fuel : nat) : M unit :=
  this <- get_sync ;;
  let inPath := Sync_normalizePath (Sync_inArg this) in
  let outPath := Sync_normalizePath (Sync_outArg this) in
  Sync_assertSource inPath ;;
  Sync_assertTarget outPath ;;
  process_once_SIGINT ;;
  let naiveSync := NaiveSync_new inPath outPath in
  modify_sync (set_naive (Some naiveSync)) ;;
  NaiveSync_run fuel naiveSync ;;
  modify_sync (set_naive None) ;;
  this <- get_sync ;;
  if Sync_aborted this then ret tt
  else
    let activeSync := ActiveSync_new inPath outPath in
    modify_sync (set_active (Some activeSync)) ;;
    modify_sync (fun this => set_active (option_map ActiveSync_run (Sync_active this)) this).

(** The watcher delivers an event to the handler that listens to it, while
    it is not closed. *)
Definition emit (fuel : nat) (ev : event) : M unit :=
  this <- get_sync ;;
  match Sync_active this with
  | None => ret tt
  | Some activeSync =>
      match ActiveSync_watcher activeSync with
      | None => ret tt
      | Some watcher =>
          if closed watcher then ret tt
          else if existsb (event_name_eqb (event_name_of ev)) (listeners watcher) then
            match ev with
            | ready =>
                modify_sync (set_active (Some (ActiveSync__readyHandler activeSync)))
            | _ => ActiveSync_handle fuel activeSync ev
            end
          else ret tt
      end
  end.

(* ================================================================== *)
(** * Notions used to state the properties *)

(** Two paths diverge when neither leads to the other. *)
Fixpoint diverge (p q : path) : Prop :=
  match p, q with
  | a :: p', b :: q' => a <> b \/ (a = b /\ diverge p' q')
  | _, _ => False
  end.

(** Two entries that differ at most in what a directory holds. *)
Definition same_shell (a b : option node) : Prop :=
  match a, b with
  | Some (Dir m _), Some (Dir m' _) => m = m'
  | _, _ => a = b
  end.

(** What the probes answer on a disk. *)
Definition exists_at (p : path) (d : node) : bool :=
  match fs_stat p d with inr _ => true | inl _ => false end.

Definition readable_at (p : path) (d : node) : bool :=
  match fs_access p R_OK d with inr _ => true | inl _ => false end.

Definition writable_at (p : path) (d : node) : bool :=
  match fs_access p W_OK d with inr _ => true | inl _ => false end.

Definition is_dir (n : node) : bool := isDirectory (kind_of n).

Fixpoint ticks (n : nat) (w : process) : process :=
  match n with
  | O => w
  | S n' => ticks n' (tick w)
  end.

(** [gone p d d']: [d'] is [d] without the entry at [p], and nothing else
    differs. *)
Definition gone (p : path) (d d' : node) : Prop :=
  (forall r, find (p ++ r) d' = None) /\
  (forall q, diverge p q -> find q d' = find q d) /\
  (forall q r, p = q ++ r -> r <> [] -> same_shell (find q d') (find q d)).

(** The methods of the ActiveSync class, and the object a call leaves.  The
    event handlers and the two path resolvers only read the object. *)
Inductive ActiveSync_method :=
| call_run
| call_abort
| call_resolveSource (p : path)
| call_resolveTarget (p : path)
| call__addHandler (p : path)
| call__addDirHandler (p : path)
| call__changeHandler (p : path)
| call__unlinkHandler (p : path)
| call__unlinkDirHandler (p : path)
| call__readyHandler
| call__abortHandler.

Definition ActiveSync_call (m : ActiveSync_method) (this : ActiveSyncObj) : ActiveSyncObj :=
  match m with
  | call_run => ActiveSync_run this
  | call_abort => ActiveSync_abort this
  | call__readyHandler => ActiveSync__readyHandler this
  | call__abortHandler => ActiveSync__abortHandler this
  | _ => this
  end.

(** The methods that are not declared [protected]. *)
Definition is_public (m : ActiveSync_method) : bool :=
  match m with
  | call_run | call_abort | call_resolveSource _ | call_resolveTarget _ => true
  | _ => false
  end.

Definition ActiveSync_calls (ms : list ActiveSync_method) (this : ActiveSyncObj)
    : ActiveSyncObj :=
  fold_left (fun o m => ActiveSync_call m o) ms this.

(** *** Sample disks *)

Definition plain (t : Z) : meta :=
  {| atimeNs := t; mtimeNs := t; readable := true; writable := true |}.

(** [/src] holds [a.txt] and [sub/b.txt]; [/out] holds [stale.txt]. *)
Definition sample_disk : node :=
  Dir (plain 0)
    [("src", Dir (plain 1)
       [("a.txt", File {| atimeNs := 5000000; mtimeNs := 7400000;
                          readable := true; writable := true |} "1");
        ("sub", Dir (plain 2) [("b.txt", File (plain 9000000) "2")])]);
     ("out", Dir (plain 3) [("stale.txt", File (plain 4) "old")])].

Definition process_of (d : node) (inArg outArg : path) : process :=
  {| disk := d; clock := 100; sigint := None; sigint_listener := false;
     sync := Sync_new inArg outArg |}.

Definition sample : process := process_of sample_disk ["src"] ["out"].

(** [/out/a.txt] is already the copy of [/src/a.txt]. *)
Definition synced_disk : node :=
  Dir (plain 0)
    [("src", Dir (plain 1)
       [("a.txt", File {| atimeNs := 5000000; mtimeNs := 7400000;
                          readable := true; writable := true |} "1")]);
     ("out", Dir (plain 3)
       [("a.txt", File {| atimeNs := 5000000; mtimeNs := 7000000;
                          readable := true; writable := false |} "1")])].

(** [/src/a.txt] was modified 499600 ns after a whole millisecond; [w]
    tells whether it can be written. *)
Definition precise_disk (w : bool) : node :=
  Dir (plain 0)
    [("src", Dir (plain 1)
       [("a.txt", File {| atimeNs := 1700000000000000000;
                          mtimeNs := 1700000000123499600;
                          readable := true; writable := w |} "1")]);
     ("out", Dir (plain 3) [])].

(** [/src/a.txt] is 499999 ns newer than [/out/a.txt]. *)
Definition half_disk : node :=
  Dir (plain 0)
    [("src", Dir (plain 1) [("a.txt", File (plain 1700000000123499999) "new")]);
     ("out", Dir (plain 3) [("a.txt", File (plain 1700000000123000000) "old")])].

Definition listening : ActiveSyncObj :=
  ActiveSync__readyHandler (ActiveSync_run (ActiveSync_new ["src"] ["out"])).

(** *** Specifications

    [wp bad m Q w]: from [w] the computation [m] returns, in a process that
    satisfies [Q]; when it throws or is cut, [bad] holds.  With [False] for
    [bad] it states that [m] returns; with [True], what holds if it does. *)
Definition wp (bad : Prop) {A} (m : M A) (Q : A -> process -> Prop) (w : process) : Prop :=
  match m w with
  | (Ret a, w') => Q a w'
  | (Throw _, _) => bad
  | (Starved, _) => bad
  end.

(** The depth of the directories below an entry. *)
Fixpoint height (n : node) : nat :=
  match n with
  | Dir _ es =>
      S ((fix heights (es : list (string * node)) : nat :=
            match es with
            | [] => O
            | (_, n') :: es' => Nat.max (height n') (heights es')
            end) es)
  | _ => O
  end.

Definition file_or_dir (n : node) : Prop :=
  kind_of n = KFile \/ kind_of n = KDirectory.

(** A change of the disk at or below [p]: what diverges from [p] is what it
    was, and so are the entries above [p], but for what they hold. *)
Definition within (p : path) (d0 d : node) : Prop :=
  (forall q, diverge p q -> find q d = find q d0) /\
  (forall q r, p = q ++ r -> r <> [] -> same_shell (find q d) (find q d0)).

(** A change that stays below the directory [T], which is itself kept. *)
Definition below (T : path) (d0 d : node) : Prop :=
  (forall q, diverge T q -> find q d = find q d0) /\
  (forall q r, T = q ++ r -> same_shell (find q d) (find q d0)).

(** What the cleanup of the directory [T], mapped to the source path [S],
    does to the entries below its entry [c]: nothing is made; an entry whose
    source path exists is kept; a file or a directory whose source path does
    not exist is deleted. *)
Definition cleaned_entry (T S : path) (d0 : node) (c : string) (d : node) : Prop :=
  (forall r n', find (T ++ c :: r) d = Some n' ->
     exists n, find (T ++ c :: r) d0 = Some n /\ same_shell (Some n') (Some n)) /\
  (forall r n, find (T ++ c :: r) d0 = Some n ->
     exists_at (S ++ c :: r) d0 = true ->
     same_shell (find (T ++ c :: r) d) (Some n)) /\
  (forall r n, find (T ++ c :: r) d0 = Some n ->
     exists_at (S ++ c :: r) d0 = false -> file_or_dir n ->
     find (T ++ c :: r) d = None).

Definition cleaned (T S : path) (d0 d : node) : Prop :=
  below T d0 d /\ forall c, cleaned_entry T S d0 c d.

(** [ensureDir p] has nothing to do. *)
Definition ensured (p : path) (d : node) : Prop :=
  readable_at p d = true \/ exists m es, find p d = Some (Dir m es).

(** The change oracle of [copyFile] finds the target up to date with a
    source whose [Stats] are [ss]. *)
Definition up_to_date (ss : Stats) (t : path) (d : node) : Prop :=
  exists ts, fs_stat t d = inr ts /\
    strict_equal (Math_abs (Math_round (mtimeMs ss - mtimeMs ts))) (Number_of 0) = true.

(** [n'] is what the copy and the stamp of [copyFile] leave of the source
    entry [n], whose [Stats] are [ss]: the content and the mode of the
    source, with the times that [utimes] makes of its two [Date]s.  A
    target that was a link has been written through. *)
Definition stamped_copy (n : node) (ss : Stats) (n' : node) : Prop :=
  exists src, readable_file n = inr src /\
    (n' = File (set_times (atime ss) (mtime ss) (fst src)) (snd src) \/
     n' = Symlink (Some (set_times (atime ss) (mtime ss) (fst src), snd src))).

(** The target is settled: the oracle finds it up to date, or it is what
    the copy leaves, so that a copy that is made again leaves it as it is. *)
Definition settled (n : node) (ss : Stats) (t : path) (d : node) : Prop :=
  up_to_date ss t d \/ exists n', find t d = Some n' /\ stamped_copy n ss n'.

(** The copy of [s] (as it is on the disk [d0]) onto [t] changes nothing
    on [d]. *)
Definition synced_from (s t : path) (d0 d : node) : Prop :=
  forall r n, find (s ++ r) d0 = Some n ->
    match stat_node n with
    | Some ss =>
        if isDirectory (st_kind ss) then ensured (t ++ r) d
        else settled n ss (t ++ r) d
    | None => False
    end.

(** What the copy of [s] onto [t] does below [t]: an entry is there only if
    it was, with its type, or if the source path exists; nothing is lost;
    every source entry is present; a copy made again changes nothing. *)
Definition copied (s t : path) (d0 d : node) : Prop :=
  (forall r n', find (t ++ r) d = Some n' ->
     (exists n, find (t ++ r) d0 = Some n /\ kind_of n' = kind_of n) \/
     exists_at (s ++ r) d0 = true) /\
  (forall r n, find (t ++ r) d0 = Some n ->
     exists n', find (t ++ r) d = Some n' /\ kind_of n' = kind_of n) /\
  (forall r, find (s ++ r) d0 <> None -> exists_at (t ++ r) d = true) /\
  synced_from s t d0 d.

(** What the copy sub-phase of [NaiveSync.run] does with the entry [c] of
    the source root: a file or a directory is copied, any other entry is
    passed over. *)
Definition top_copied (I O : path) (d0 : node) (c : string) (d : node) : Prop :=
  (forall n, find (I ++ [c]) d0 = Some n -> file_or_dir n ->
     copied (I ++ [c]) (O ++ [c]) d0 d) /\
  ((forall n, find (I ++ [c]) d0 = Some n -> ~ file_or_dir n) ->
     forall r, find (O ++ c :: r) d = find (O ++ c :: r) d0).

(** The statements of [NaiveSync.run] that follow the cleanup. *)
Definition copy_phase (fuel : nat) (this : NaiveSyncObj) : M unit :=
  files <- readdir (NaiveSync_inPath this) ;;
  for_of files (fun file =>
    let src := join (NaiveSync_inPath this) [name file] in
    let target := join (NaiveSync_outPath this) [name file] in
    if isDirectory (d_kind file) then FsHelper_copyDirectory fuel src target
    else if isFile (d_kind file) then FsHelper_copyFile src target
    else ret tt).

(** [/src/x] is a directory, [/out/x] a file of the same name, and
    [/out/old] has no source path. *)
Definition mismatch_disk : node :=
  Dir (plain 0)
    [("src", Dir (plain 1) [("x", Dir (plain 2) [])]);
     ("out", Dir (plain 3) [("x", File (plain 4) "kept");
                            ("old", Dir (plain 5) [("f", File (plain 6) "gone")])])].

(** [/src/sub] holds a symbolic link to a regular file. *)
Definition linked_disk : node :=
  Dir (plain 0)
    [("src", Dir (plain 1)
       [("sub", Dir (plain 2) [("link", Symlink (Some (plain 7000000, "data")))])]);
     ("out", Dir (plain 3) [])].

(** [/src/sub] holds a socket. *)
Definition socket_disk : node :=
  Dir (plain 0)
    [("src", Dir (plain 1) [("sub", Dir (plain 2) [("sock", Special (plain 7))])]);
     ("out", Dir (plain 3) [])].

(** The link and the socket are entries of the source root itself. *)
Definition top_level_others_disk : node :=
  Dir (plain 0)
    [("src", Dir (plain 1)
       [("link", Symlink (Some (plain 7000000, "data")));
        ("sock", Special (plain 7))]);
     ("out", Dir (plain 3) [])].

Definition src_out : NaiveSyncObj := NaiveSync_new ["src"] ["out"].

(** [copyFile] has copied: the target is the stamped copy of the source. *)
Definition restamped (s t : path) (d0 d : node) : Prop :=
  exists n ss n',
    find s d0 = Some n /\ stat_node n = Some ss /\
    find t d = Some n' /\ stamped_copy n ss n'.


(** Every file and every directory of the destination has a source path. *)
Definition pruned (I O : path) (d : node) : Prop :=
  forall r n, r <> [] -> find (O ++ r) d = Some n -> file_or_dir n ->
    exists_at (I ++ r) d = true.

(** *** Independence of the interrupt *)

(** Two processes with the same disk and the same clock. *)
Definition same_fs (w1 w2 : process) : Prop :=
  disk w1 = disk w2 /\ clock w1 = clock w2.

Definition same_control (w1 w2 : process) : Prop :=
  sigint w1 = sigint w2 /\ sigint_listener w1 = sigint_listener w2 /\ sync w1 = sync w2.

(** The interrupt, its listener and the Sync object of [w'] are those of [w]
    after some suspension points. *)
Definition advanced (w w' : process) : Prop :=
  exists n, same_control w' (ticks n w).

(** A computation that works on the disk only: it does not depend on the
    interrupt or on the Sync object, and leaves them to the suspension
    points. *)
Definition fs_only {A} (m : M A) : Prop :=
  (forall w, advanced w (snd (m w))) /\
  (forall w1 w2, same_fs w1 w2 ->
     fst (m w1) = fst (m w2) /\ same_fs (snd (m w1)) (snd (m w2))).

(** The sample, with an interrupt that arrives after twelve suspension
    points: in the middle of the initial reconciliation. *)
Definition interrupted : process :=
  {| disk := sample_disk; clock := 100; sigint := Some 12%nat;
     sigint_listener := false; sync := Sync_new ["src"] ["out"] |}.

(** *** The live phase of the sample

    [Sync.run] on [sample], then the [ready] signal of the watcher. *)
Definition live : process := snd (emit 3 ready (snd (Sync_run 3 sample))).

(** The user writes a file of the source. *)
Definition user_writes (p : path) (data : string) (w : process) : process :=
  set_disk (change (fun _ => Some (File (plain (clock w * 1000000)) data)) p (disk w)) w.

(** The user removes an entry of the source. *)
Definition user_removes (p : path) (w : process) : process :=
  set_disk (change (fun _ => None) p (disk w)) w.

(* ================================================================== *)
(** * The argument script

    The script that reads [--in] and [--sync] from the command line.
    [args[i + 1]] is [undefined] past the end of the array: [None]. *)

Inductive script_error :=
| In_argument_required
| Sync_argument_required.

(** [!v] for a value that is a string or [undefined]. *)
Definition falsy (v : option string) : bool :=
  match v with
  | None => true
  | Some s => String.eqb s ""
  end.

(** [l.forEach((x, i) => ...)] on the variables [st], from the index [i]. *)
Fixpoint forEach_from {A St : Type} (f : St -> A -> nat -> St) (l : list A) (i : nat)
    (st : St) : St :=
  match l with
  | [] => st
  | x :: l' => forEach_from f l' (S i) (f st x i)
  end.

(** The callback of the script, on the variables [(inArg, syncArg)]. *)
Definition script_callback (args : list string) (st : option string * option string)
    (arg : string) (i : nat) : option string * option string :=
  if String.eqb arg "--in" then (nth_error args (i + 1), snd st)
  else if String.eqb arg "--sync" then (fst st, nth_error args (i + 1))
  else st.

Definition script_scan (args : list string) : option string * option string :=
  forEach_from (script_callback args) args 0 (Some "", Some "").

Definition text_of (v : option string) : string :=
  match v with Some s => s | None => "undefined" end.

(** The script: the error it throws, or the line it prints. *)
Definition script (argv : list string) : script_error + string :=
  let args := skipn 2 argv in
  let (inArg, syncArg) := script_scan args in
  if falsy inArg then inl In_argument_required
  else if falsy syncArg then inl Sync_argument_required
  else inr ("Syncing " ++ text_of inArg ++ " with " ++ text_of syncArg)%string.

(* ================================================================== *)
(** * Notions used for the other operations *)

(** [FsHelper.copyFile], after it has ensured the directory of the target. *)
Definition copyFile_after_ensureDir (source target : path) : M unit :=
  let copy_and_stamp : M unit :=
    copyFile source target ;;
    sourceInfo <- stat source ;;
    utimes target (atime sourceInfo) (mtime sourceInfo) in
  exists_ <- FsHelper_pathExists target ;;
  if exists_ then
    sourceInfo <- stat source ;;
    targetInfo <- stat target ;;
    let delta := Math_abs (Math_round (mtimeMs sourceInfo - mtimeMs targetInfo)) in
    if strict_equal delta (Number_of 0) then ret tt
    else copy_and_stamp
  else copy_and_stamp.

(** The regular file that a copy of the content and mode [src] leaves: the
    content and the permissions of the source, and the times that [utimes]
    makes of its two [Date]s. *)
Definition copy_of (src : meta * string) : node :=
  let ss := stats_of KFile (fst src) in
  File (set_times (atime ss) (mtime ss) (fst src)) (snd src).

(** Two entries that differ at most in what a directory holds and in the
    times of a directory: a file is the same file, a directory is a
    directory with the same permissions. *)
Definition same_entry (a b : option node) : Prop :=
  match a, b with
  | Some (Dir m _), Some (Dir m' _) =>
      readable m = readable m' /\ writable m = writable m'
  | _, _ => a = b
  end.

(** [mkdir -p p] can be done: what exists on the way to [p], and at [p], is
    a directory. *)
Definition creatable (p : path) (d : node) : Prop :=
  forall q r n, p = q ++ r -> find q d = Some n -> is_dir n = true.

(** Everything at and below [s] is a directory, a regular file or a link to
    a regular file. *)
Definition copyable (s : path) (d : node) : Prop :=
  forall r n, find (s ++ r) d = Some n ->
    is_dir n = true \/ exists src, readable_file n = inr src.

(** Below [t] the disk [d] holds the mirror of what [s] holds on [d0]: a
    directory for a directory, the copy of a file for a file or a link to
    one, and nothing else. *)
Definition mirrored (s t : path) (d0 d : node) : Prop :=
  forall r,
    match find (s ++ r) d0 with
    | Some n =>
        match readable_file n with
        | inr src => find (t ++ r) d = Some (copy_of src)
        | inl _ => is_dir n = true /\ exists m es, find (t ++ r) d = Some (Dir m es)
        end
    | None => find (t ++ r) d = None
    end.

(** A computation that did not return. *)
Definition failed {A} (r : res A) : bool :=
  match r with
  | Ret _ => false
  | _ => true
  end.

(** The five events of a path. *)
Definition path_events : list event_name :=
  [Ev_add; Ev_addDir; Ev_change; Ev_unlink; Ev_unlinkDir].

(** The watcher of an object, if it has one, is closed and listens to none
    of the path events. *)
Definition stopped (this : ActiveSyncObj) : Prop :=
  forall fw, ActiveSync_watcher this = Some fw ->
    closed fw = true /\ forall ev, In ev path_events -> ~ In ev (listeners fw).

(** Every listener of the watcher is registered once. *)
Definition registered_once (this : ActiveSyncObj) : Prop :=
  forall fw, ActiveSync_watcher this = Some fw -> NoDup (listeners fw).

(** *** More sample disks *)

(** [/src] holds a file, a link to a file and a directory with a file;
    [/out] is an empty directory. *)
Definition tree_disk : node :=
  Dir (plain 0)
    [("src", Dir (plain 1)
       [("a.txt", File {| atimeNs := 5000000; mtimeNs := 7400000;
                          readable := true; writable := false |} "1");
        ("l", Symlink (Some (plain 3000000, "linked")));
        ("sub", Dir (plain 2) [("b.txt", File (plain 9000000) "2")])]);
     ("out", Dir (plain 3) [])].

(** [/out/a.txt] is older than [/src/a.txt]; [/out/locked] cannot be
    written, [/out/secret] cannot be read. *)
Definition outdated_disk : node :=
  Dir (plain 0)
    [("src", Dir (plain 1) [("a.txt", File (plain 9000000) "new")]);
     ("out", Dir (plain 3)
       [("a.txt", File (plain 2000000) "old");
        ("locked", Dir {| atimeNs := 4; mtimeNs := 4; readable := true; writable := false |}
                     [("f", File (plain 5) "kept")]);
        ("secret", File {| atimeNs := 6; mtimeNs := 6; readable := false; writable := true |}
                     "s")])].

(** [/src/x] is a directory that holds a file, [/out/x] is a file. *)
Definition clash_disk : node :=
  Dir (plain 0)
    [("src", Dir (plain 1) [("x", Dir (plain 2) [("f", File (plain 7000000) "in")])]);
     ("out", Dir (plain 3) [("x", File (plain 4) "kept")])].

(** There is no [/src]. *)
Definition sourceless_disk : node :=
  Dir (plain 0)
    [("out", Dir (plain 3)
       [("a.txt", File (plain 4) "only copy");
        ("sub", Dir (plain 5) [("b.txt", File (plain 6) "only copy")])])].

(** Every entry of the tree is a directory, a regular file or a link to a
    regular file. *)
Fixpoint regular_tree (n : node) : bool :=
  match n with
  | File _ _ => true
  | Symlink (Some _) => true
  | Dir _ es =>
      (fix all (es : list (string * node)) : bool :=
         match es with
         | [] => true
         | (_, n') :: es' => regular_tree n' && all es'
         end) es
  | _ => false
  end.

(* ================================================================== *)
(** * Properties of the model *)

(** ** Association lists *)

Ltac eqb_cases a b :=
  let E := fresh "E" in
  destruct (String.eqb_spec a b) as [E | E];
  [first [subst b | subst a | idtac] | idtac].

Section AssocFacts.
Context {A : Type}.
Implicit Types (es : list (string * A)) (c : string) (v : A).

Lemma assoc_unbind_same c es : assoc c (unbind c es) = None.
Proof.
  induction es as [| [c' v'] es IH]; simpl; auto.
  eqb_cases c c'; simpl; auto.
  destruct (String.eqb_spec c c'); congruence.
Qed.

Lemma assoc_unbind_other c c' es : c <> c' -> assoc c' (unbind c es) = assoc c' es.
Proof.
  intros N. induction es as [| [c0 v0] es IH]; simpl; auto.
  eqb_cases c c0; simpl.
  - eqb_cases c' c; [congruence | auto].
  - eqb_cases c' c0; auto.
Qed.

Lemma unbind_id c es : assoc c es = None -> unbind c es = es.
Proof.
  induction es as [| [c0 v0] es IH]; simpl; auto.
  eqb_cases c c0; simpl; [discriminate |].
  intros H. f_equal. auto.
Qed.

Lemma assoc_bind_same c v es : assoc c (bind_entry c v es) = Some v.
Proof.
  induction es as [| [c0 v0] es IH]; simpl.
  - now rewrite String.eqb_refl.
  - eqb_cases c c0; simpl.
    + now rewrite String.eqb_refl.
    + destruct (String.eqb_spec c c0); congruence.
Qed.

Lemma assoc_bind_other c c' v es :
  c <> c' -> assoc c' (bind_entry c v es) = assoc c' es.
Proof.
  intros N. induction es as [| [c0 v0] es IH]; simpl.
  - eqb_cases c' c; congruence.
  - eqb_cases c c0; simpl.
    + eqb_cases c' c; congruence.
    + eqb_cases c' c0; auto.
Qed.

Lemma bind_entry_id c v es : assoc c es = Some v -> bind_entry c v es = es.
Proof.
  induction es as [| [c0 v0] es IH]; simpl; [discriminate |].
  eqb_cases c c0.
  - now intros [= ->].
  - intros H. f_equal. auto.
Qed.

Lemma assoc_alter_same f c es : assoc c (assoc_alter f c es) = f (assoc c es).
Proof.
  unfold assoc_alter. destruct (f (assoc c es)).
  - apply assoc_bind_same.
  - apply assoc_unbind_same.
Qed.

Lemma assoc_alter_other f c c' es :
  c <> c' -> assoc c' (assoc_alter f c es) = assoc c' es.
Proof.
  intros N. unfold assoc_alter. destruct (f (assoc c es)).
  - now apply assoc_bind_other.
  - now apply assoc_unbind_other.
Qed.

Lemma assoc_alter_id f c es : f (assoc c es) = assoc c es -> assoc_alter f c es = es.
Proof.
  unfold assoc_alter. intros ->. destruct (assoc c es) eqn:E.
  - now apply bind_entry_id.
  - now apply unbind_id.
Qed.

Lemma assoc_In c v es : assoc c es = Some v -> In (c, v) es.
Proof.
  induction es as [| [c0 v0] es IH]; simpl; [discriminate |].
  eqb_cases c c0.
  - intros [= ->]. now left.
  - intros H. right. auto.
Qed.

(** A listing shows exactly the bindings that [assoc] finds. *)
Lemma In_visible_from seen c v es :
  In (c, v) (visible_from seen es) <->
  (existsb (String.eqb c) seen = false /\ assoc c es = Some v).
Proof.
  revert seen. induction es as [| [c0 v0] es IH]; intros seen; simpl.
  - split; [tauto | intros [_ H]; discriminate].
  - destruct (existsb (String.eqb c0) seen) eqn:S0.
    + rewrite IH. destruct (String.eqb_spec c c0) as [-> | N].
      * rewrite S0. split; intros [H _]; discriminate.
      * tauto.
    + simpl. rewrite IH. simpl. destruct (String.eqb_spec c c0) as [-> | N].
      * rewrite S0. simpl. split.
        -- intros [H | [H _]]; [| discriminate]. inversion H; subst. auto.
        -- intros [_ [= ->]]. now left.
      * simpl. split.
        -- intros [H | H]; [inversion H; congruence | exact H].
        -- intros H. now right.
Qed.

Lemma In_visible c v es : In (c, v) (visible es) <-> assoc c es = Some v.
Proof. unfold visible. rewrite In_visible_from. simpl. tauto. Qed.
End AssocFacts.

(** ** Paths *)

Lemma path_eqb_spec p q : reflect (p = q) (path_eqb p q).
Proof.
  revert q. induction p as [| a p IH]; intros [| b q]; simpl; try (constructor; congruence).
  eqb_cases a b; simpl.
  - destruct (IH q); constructor; congruence.
  - constructor. congruence.
Qed.

Lemma strip_prefix_app root rel : strip_prefix root (root ++ rel) = Some rel.
Proof. induction root; simpl; auto. now rewrite String.eqb_refl. Qed.

Lemma strip_prefix_Some root p rel : strip_prefix root p = Some rel -> p = root ++ rel.
Proof.
  revert p. induction root as [| r root IH]; intros p; simpl.
  - now intros [= ->].
  - destruct p as [| c p]; [discriminate |]. eqb_cases r c; [| discriminate].
    intros H. f_equal. auto.
Qed.

(** The relative path mapping: removing a leading root gives the rest. *)
Lemma replace_prefix root rel : replace (root ++ rel) root = rel.
Proof.
  destruct (root ++ rel) eqn:E; simpl; rewrite <- E, strip_prefix_app; auto.
Qed.

Lemma dirname_join dir c : dirname (join dir [c]) = dir.
Proof. unfold dirname, join. apply removelast_last. Qed.

Lemma diverge_sym p q : diverge p q -> diverge q p.
Proof.
  revert q. induction p as [| a p IH]; intros [| b q]; simpl; auto.
  intros [H | [H1 H2]]; [left; congruence | right; split; [congruence | auto]].
Qed.

Lemma diverge_app_l p q r : diverge p q -> diverge (p ++ r) q.
Proof.
  revert q. induction p as [| a p IH]; intros [| b q]; simpl; auto; try tauto.
  intros [H | [H1 H2]]; [now left | right; auto].
Qed.

Lemma diverge_app_r p q r : diverge p q -> diverge p (q ++ r).
Proof. intros H. apply diverge_sym, diverge_app_l, diverge_sym, H. Qed.

Lemma diverge_common r p q : diverge (r ++ p) (r ++ q) <-> diverge p q.
Proof.
  induction r as [| a r IH]; simpl; [tauto |]. rewrite IH. intuition congruence.
Qed.

Lemma diverge_siblings dir a b : a <> b -> diverge (dir ++ [a]) (dir ++ [b]).
Proof. intros N. apply diverge_common. simpl. now left. Qed.

(** Neither root below the other: all their paths diverge. *)
Lemma diverge_not_prefix p q :
  (forall r, q <> p ++ r) -> (forall r, p <> q ++ r) -> diverge p q.
Proof.
  revert q. induction p as [| a p IH]; intros q Hq Hp.
  - exfalso. now apply (Hq q).
  - destruct q as [| b q]; [exfalso; now apply (Hp (a :: p)) |]. simpl.
    destruct (string_dec a b) as [-> | N]; [right; split; auto | now left].
    apply IH; intros r E; [apply (Hq r) | apply (Hp r)]; simpl; congruence.
Qed.

(** ** Lookup and update *)

Lemma lookup_None p : lookup p None = None.
Proof. destruct p; reflexivity. Qed.

Lemma lookup_app p q o : lookup (p ++ q) o = lookup q (lookup p o).
Proof.
  revert o. induction p as [| c p IH]; intros o; simpl; auto.
  destruct o as [[]|]; auto using lookup_None, eq_sym.
Qed.

Lemma find_app p q d : find (p ++ q) d = lookup q (find p d).
Proof. apply lookup_app. Qed.

(** The entry at [p] after a rewrite at [p], when the rewrite makes nothing
    out of nothing. *)
Lemma lookup_alter_same f p o :
  f None = None -> lookup p (alter f p o) = f (lookup p o).
Proof.
  intros Hf. revert o. induction p as [| c p IH]; intros o; cbn [lookup alter]; auto.
  destruct o as [[]|]; cbn [lookup]; rewrite ?lookup_None; auto.
  now rewrite assoc_alter_same, IH.
Qed.

(** The same, when the parent of [p] is a directory. *)
Lemma lookup_alter_child f dir c o m es :
  lookup dir o = Some (Dir m es) ->
  lookup (dir ++ [c]) (alter f (dir ++ [c]) o) = f (lookup (dir ++ [c]) o).
Proof.
  revert o. induction dir as [| a dir IH]; intros o; cbn [app lookup alter].
  - intros ->. now rewrite assoc_alter_same.
  - destruct o as [[]|]; try (rewrite ?lookup_None; discriminate).
    intros H. rewrite assoc_alter_same. apply IH. exact H.
Qed.

Lemma lookup_alter_diverge f p q o :
  diverge p q -> lookup q (alter f p o) = lookup q o.
Proof.
  revert q o. induction p as [| a p IH]; intros [| b q] o; cbn [lookup alter diverge];
    try tauto.
  intros H. destruct o as [[]|]; auto.
  destruct H as [N | [-> H]].
  - now rewrite assoc_alter_other.
  - rewrite assoc_alter_same. now apply IH.
Qed.

(** Above [p], a rewrite at [p] keeps every entry what it was. *)
Lemma same_shell_refl a : same_shell a a.
Proof. destruct a as [[]|]; simpl; auto. Qed.

Lemma lookup_alter_above f q r o :
  r <> [] -> same_shell (lookup q (alter f (q ++ r) o)) (lookup q o).
Proof.
  intros Hr. revert o. induction q as [| a q IH]; intros o; cbn [app lookup alter].
  - destruct r as [| c r]; [congruence |]. cbn [alter].
    destruct o as [[]|]; simpl; auto.
  - destruct o as [[]|]; simpl; auto.
    rewrite assoc_alter_same. apply IH.
Qed.

Lemma same_shell_stat a b :
  same_shell a b ->
  match a with Some n => stat_node n | None => None end =
  match b with Some n => stat_node n | None => None end.
Proof.
  destruct a as [[]|], b as [[]|]; simpl; intros H; try congruence;
    try discriminate; try (inversion H; reflexivity).
Qed.

Lemma same_shell_kind a b : same_shell a b -> option_map kind_of a = option_map kind_of b.
Proof.
  destruct a as [[]|], b as [[]|]; simpl; intros H; try congruence;
    try discriminate; try (inversion H; reflexivity).
Qed.

(** A rewrite that changes nothing. *)
Lemma alter_id f p o : f (lookup p o) = lookup p o -> alter f p o = o.
Proof.
  revert o. induction p as [| c p IH]; intros o; cbn [lookup alter]; auto.
  destruct o as [[]|]; auto. intros H.
  rewrite assoc_alter_id; auto.
Qed.

Lemma alter_Some f p d :
  p <> [] -> exists d', alter f p (Some d) = Some d'.
Proof.
  destruct p as [| c p]; [congruence |]. intros _. simpl.
  destruct d; eauto.
Qed.

Lemma find_change f p q d :
  p <> [] -> find q (change f p d) = lookup q (alter f p (Some d)).
Proof.
  intros Hp. unfold find, change.
  destruct (alter_Some f p d Hp) as [d' ->]. reflexivity.
Qed.

(** The parent of an entry is a directory. *)
Lemma lookup_parent dir c o n :
  lookup (dir ++ [c]) o = Some n -> exists m es, lookup dir o = Some (Dir m es).
Proof.
  rewrite lookup_app. simpl. destruct (lookup dir o) as [[]|]; try discriminate; eauto.
Qed.

Lemma find_dirname p d n :
  p <> [] -> find p d = Some n -> exists m es, find (dirname p) d = Some (Dir m es).
Proof.
  intros Hp. destruct (exists_last Hp) as [dir [c ->]].
  unfold dirname. rewrite removelast_last. apply lookup_parent.
Qed.

(** ** Running the primitives and the probes *)

Lemma disk_tick w : disk (tick w) = disk w.
Proof. unfold tick. destruct (sigint w) as [[| k]|]; try reflexivity. now destruct (sigint_listener w). Qed.

Lemma clock_tick w : clock (tick w) = clock w + 1.
Proof. unfold tick. destruct (sigint w) as [[| k]|]; try reflexivity. now destruct (sigint_listener w). Qed.

Lemma disk_ticks n w : disk (ticks n w) = disk w.
Proof. revert w. induction n; intros w; simpl; auto. now rewrite IHn, disk_tick. Qed.

Lemma ticks_add n k w : ticks n (ticks k w) = ticks (k + n) w.
Proof. revert w. induction k; intros w; simpl; auto. Qed.

Lemma disk_set_disk d w : disk (set_disk d w) = d.
Proof. reflexivity. Qed.

Lemma bind_run {A B} (m : M A) (k : A -> M B) w :
  bind m k w = match m w with
               | (Ret a, w') => k a w'
               | (Throw e, w') => (Throw e, w')
               | (Starved, w') => (Starved, w')
               end.
Proof. reflexivity. Qed.

Lemma bind_Ret {A B} (m : M A) (k : A -> M B) w a w' :
  m w = (Ret a, w') -> bind m k w = k a w'.
Proof. intros H. unfold bind. now rewrite H. Qed.

Lemma bind_inv {A B} (m : M A) (k : A -> M B) w b w2 :
  bind m k w = (Ret b, w2) ->
  exists a w1, m w = (Ret a, w1) /\ k a w1 = (Ret b, w2).
Proof.
  unfold bind. destruct (m w) as [[a | e |] w1]; intros H; try discriminate. eauto.
Qed.

Lemma query_run {A} (op : node -> errno + A) w :
  query op w = (match op (disk w) with inr a => Ret a | inl e => Throw e end, tick w).
Proof. unfold query. rewrite disk_tick. now destruct (op (disk w)). Qed.

Lemma command_run op w :
  command op w =
  match op (clock w + 1) (disk w) with
  | inr d => (Ret tt, set_disk d (tick w))
  | inl e => (Throw e, tick w)
  end.
Proof. unfold command. now rewrite disk_tick, clock_tick. Qed.

Lemma stat_run p w :
  stat p w = (match fs_stat p (disk w) with inr a => Ret a | inl e => Throw e end, tick w).
Proof. apply query_run. Qed.

Lemma readdir_run p w :
  readdir p w =
  (match fs_readdir p (disk w) with inr a => Ret a | inl e => Throw e end, tick w).
Proof. apply query_run. Qed.

Lemma pathExists_run p w :
  FsHelper_pathExists p w = (Ret (exists_at p (disk w)), tick w).
Proof.
  unfold FsHelper_pathExists, try_catch, bind, exists_at. rewrite stat_run.
  now destruct (fs_stat p (disk w)).
Qed.

Lemma readable_exists p d : readable_at p d = true -> exists_at p d = true.
Proof.
  unfold readable_at, exists_at, fs_access. now destruct (fs_stat p d).
Qed.

Lemma writable_exists p d : writable_at p d = true -> exists_at p d = true.
Proof.
  unfold writable_at, exists_at, fs_access. now destruct (fs_stat p d).
Qed.

Lemma canRead_run p w :
  FsHelper_canRead p w =
  (Ret (readable_at p (disk w)), ticks (if exists_at p (disk w) then 2 else 1) w).
Proof.
  unfold FsHelper_canRead. rewrite (bind_Ret _ _ _ _ _ (pathExists_run p w)).
  destruct (exists_at p (disk w)) eqn:E; simpl.
  - unfold try_catch, bind, access. rewrite query_run, disk_tick.
    unfold readable_at. now destruct (fs_access p R_OK (disk w)) as [e | []].
  - unfold ret. f_equal. f_equal.
    destruct (readable_at p (disk w)) eqn:R; auto.
    apply readable_exists in R. congruence.
Qed.

Lemma canWrite_run p w :
  FsHelper_canWrite p w =
  (Ret (writable_at p (disk w)), ticks (if exists_at p (disk w) then 2 else 1) w).
Proof.
  unfold FsHelper_canWrite. rewrite (bind_Ret _ _ _ _ _ (pathExists_run p w)).
  destruct (exists_at p (disk w)) eqn:E; simpl.
  - unfold try_catch, bind, access. rewrite query_run, disk_tick.
    unfold writable_at. now destruct (fs_access p W_OK (disk w)) as [e | []].
  - unfold ret. f_equal. f_equal.
    destruct (writable_at p (disk w)) eqn:R; auto.
    apply writable_exists in R. congruence.
Qed.

(** [mkdir -p] of a directory that is there changes nothing. *)
Lemma mkdirp_existing now p n m es :
  lookup p (Some n) = Some (Dir m es) -> mkdirp now p n = Some n.
Proof.
  revert n. induction p as [| c p IH]; intros n; cbn [lookup].
  - intros [= ->]. reflexivity.
  - destruct n as [| m' es' | |]; try discriminate. intros H. cbn [mkdirp].
    destruct (assoc c es') as [child |] eqn:E; [| now rewrite lookup_None in H].
    rewrite (IH _ H). now rewrite bind_entry_id.
Qed.

Lemma exists_at_find p d :
  exists_at p d = true -> exists n, find p d = Some n.
Proof.
  unfold exists_at, fs_stat. destruct (find p d); [eauto | discriminate].
Qed.

Lemma ensureDir_existing p w m es :
  find p (disk w) = Some (Dir m es) ->
  exists w', FsHelper_ensureDir p w = (Ret tt, w') /\ disk w' = disk w.
Proof.
  intros H. unfold FsHelper_ensureDir.
  rewrite (bind_Ret _ _ _ _ _ (canRead_run p w)).
  destruct (readable_at p (disk w)).
  - eexists. split; [reflexivity |]. apply disk_ticks.
  - unfold mkdir_recursive. rewrite command_run, disk_ticks.
    unfold fs_mkdir_recursive. rewrite (mkdirp_existing _ _ _ _ _ H).
    eexists. split; [reflexivity |]. now rewrite disk_set_disk.
Qed.

(* ================================================================== *)
(** * The change oracle of [copyFile] *)

Lemma fs_stat_inr p d s : fs_stat p d = inr s -> exists_at p d = true.
Proof. unfold exists_at. now intros ->. Qed.

Lemma root_or_parent p d n :
  is_dir d = true -> find p d = Some n -> exists m es, find (dirname p) d = Some (Dir m es).
Proof.
  intros R H. destruct p as [| c p].
  - simpl. destruct d; try discriminate. unfold find. simpl. eauto.
  - apply find_dirname with n; [discriminate | exact H].
Qed.

(** C2. When the target exists and the rounded absolute difference of the
    two modification times is zero, [copyFile] returns and the disk is what
    it was: no content is written, and the target keeps its content and both
    its times.  The two times are the numbers [Stats.mtimeMs], and the
    difference, the rounding and the comparison are those of the program,
    on numbers. *)
Theorem copyFile_skips_when_unchanged source target w s t :
  is_dir (disk w) = true ->
  fs_stat source (disk w) = inr s ->
  fs_stat target (disk w) = inr t ->
  strict_equal (Math_abs (Math_round (mtimeMs s - mtimeMs t))) (Number_of 0) = true ->
  exists w', FsHelper_copyFile source target w = (Ret tt, w') /\ disk w' = disk w.
Proof.
  intros R Hs Ht Hd.
  destruct (exists_at_find _ _ (fs_stat_inr _ _ _ Ht)) as [n Hn].
  destruct (root_or_parent _ _ _ R Hn) as [m [es Hp]].
  destruct (ensureDir_existing _ _ _ _ Hp) as [w1 [E1 D1]].
  unfold FsHelper_copyFile. rewrite (bind_Ret _ _ _ _ _ E1).
  rewrite (bind_Ret _ _ _ _ _ (pathExists_run target w1)).
  rewrite D1, (fs_stat_inr _ _ _ Ht).
  unfold bind at 1. rewrite stat_run, disk_tick, D1, Hs.
  unfold bind at 1. rewrite stat_run, !disk_tick, D1, Ht.
  rewrite Hd. eexists. split; [reflexivity |].
  now rewrite !disk_tick.
Qed.

Lemma copyFile_skips_when_unchanged_witness :
  exists w', FsHelper_copyFile ["src"; "a.txt"] ["out"; "a.txt"]
               (process_of synced_disk ["src"] ["out"]) = (Ret tt, w')
             /\ disk w' = synced_disk.
Proof.
  eapply (copyFile_skips_when_unchanged ["src"; "a.txt"] ["out"; "a.txt"]
            (process_of synced_disk ["src"] ["out"])); reflexivity.
Defined.

(* ================================================================== *)
(** * The handlers of ActiveSync *)

(** C4. Before the [ready] signal every handler returns at once: the
    process, its disk included, is left as it was.  This holds for the
    handlers themselves and for every sequence of events that a watcher
    delivers to the ActiveSync object of the program before [ready]. *)
Theorem events_before_ready_change_nothing fuel this p w :
  ActiveSync_ready this = false ->
  ActiveSync__addHandler this p w = (Ret tt, w) /\
  ActiveSync__addDirHandler fuel this p w = (Ret tt, w) /\
  ActiveSync__changeHandler this p w = (Ret tt, w) /\
  ActiveSync__unlinkHandler this p w = (Ret tt, w) /\
  ActiveSync__unlinkDirHandler this p w = (Ret tt, w) /\
  (Sync_active (sync w) = Some this ->
   forall evs, Forall (fun ev => ev <> ready) evs ->
     for_of evs (emit fuel) w = (Ret tt, w)).
Proof.
  intros H.
  unfold ActiveSync__addHandler, ActiveSync__addDirHandler, ActiveSync__changeHandler,
    ActiveSync__unlinkHandler, ActiveSync__unlinkDirHandler.
  rewrite H. simpl. repeat split; try reflexivity.
  intros Ha evs Hevs. induction Hevs as [| ev evs Hev _ IH]; [reflexivity |].
  cbn [for_of]. rewrite (bind_Ret _ _ w tt w); [exact IH |].
  unfold emit, bind, get_sync. rewrite Ha.
  destruct (ActiveSync_watcher this) as [fw |]; [| reflexivity].
  destruct (closed fw); [reflexivity |].
  destruct (existsb _ _); [| reflexivity].
  destruct ev; try congruence; simpl;
    unfold ActiveSync__addHandler, ActiveSync__addDirHandler, ActiveSync__changeHandler,
      ActiveSync__unlinkHandler, ActiveSync__unlinkDirHandler;
    rewrite H; reflexivity.
Qed.

Lemma events_before_ready_change_nothing_witness :
  let this := ActiveSync_run (ActiveSync_new ["src"] ["out"]) in
  ActiveSync__unlinkHandler this ["src"; "stale.txt"] sample = (Ret tt, sample).
Proof.
  intros this.
  exact (proj1 (proj2 (proj2 (proj2
           (events_before_ready_change_nothing 3 this ["src"; "stale.txt"] sample
              eq_refl))))).
Defined.

(** ** Removal *)

(** The relative path mapping: a path below the source root is mapped to
    the same path below the destination root. *)
Lemma resolveTarget_maps this rel :
  ActiveSync_resolveTarget this (ActiveSync_inPath this ++ rel) =
  ActiveSync_outPath this ++ rel.
Proof.
  unfold ActiveSync_resolveTarget, ActiveSync_resolveSource, join.
  now rewrite replace_prefix.
Qed.

Lemma gone_change p d : p <> [] -> gone p d (change (fun _ => None) p d).
Proof.
  intros Hp. repeat split.
  - intros r. rewrite find_change by exact Hp. rewrite lookup_app.
    rewrite lookup_alter_same by reflexivity. apply lookup_None.
  - intros q Hq. rewrite find_change by exact Hp. now apply lookup_alter_diverge.
  - intros q r -> Hr. rewrite find_change by exact Hp. now apply lookup_alter_above.
Qed.

Lemma fs_rm_file p now d n :
  p <> [] -> find p d = Some n -> is_dir n = false ->
  fs_rm false p now d = inr (change (fun _ => None) p d).
Proof.
  intros Hp Hn Hd. unfold fs_rm. destruct p; [congruence |]. rewrite Hn.
  destruct n; try reflexivity. discriminate.
Qed.

Lemma fs_rm_recursive p now d n :
  p <> [] -> find p d = Some n ->
  fs_rm true p now d = inr (change (fun _ => None) p d).
Proof.
  intros Hp Hn. unfold fs_rm. destruct p; [congruence |]. rewrite Hn.
  now destruct n.
Qed.

(** C8. After readiness, [removed] and [removedDirectory] do nothing when
    the mapped destination entry is absent or not writable.  Otherwise
    [removed] deletes exactly the mapped entry when it is not a directory,
    and [removedDirectory] deletes exactly the mapped entry with all it
    holds. *)
Theorem removal_handlers this p w :
  ActiveSync_ready this = true ->
  let dest := ActiveSync_resolveTarget this p in
  ((exists_at dest (disk w) = false \/ writable_at dest (disk w) = false) ->
     (exists w', ActiveSync__unlinkHandler this p w = (Ret tt, w') /\ disk w' = disk w) /\
     (exists w', ActiveSync__unlinkDirHandler this p w = (Ret tt, w') /\ disk w' = disk w))
  /\
  (exists_at dest (disk w) = true -> writable_at dest (disk w) = true -> dest <> [] ->
     (forall n, find dest (disk w) = Some n -> is_dir n = false ->
        exists w', ActiveSync__unlinkHandler this p w = (Ret tt, w') /\
                   gone dest (disk w) (disk w')) /\
     (exists w', ActiveSync__unlinkDirHandler this p w = (Ret tt, w') /\
                 gone dest (disk w) (disk w'))).
Proof.
  intros Hr dest.
  unfold ActiveSync__unlinkHandler, ActiveSync__unlinkDirHandler. rewrite Hr. simpl.
  fold dest.
  rewrite !(bind_Ret _ _ _ _ _ (pathExists_run dest w)).
  split.
  - intros H. destruct (exists_at dest (disk w)) eqn:E; simpl.
    + destruct H as [H | H]; [discriminate |].
      rewrite !(bind_Ret _ _ _ _ _ (canWrite_run dest (tick w))).
      rewrite !disk_tick, H. simpl.
      split; eexists; (split; [reflexivity |]); now rewrite disk_ticks, disk_tick.
    + split; eexists; (split; [reflexivity |]); apply disk_tick.
  - intros E Wr Hd. rewrite E. simpl.
    rewrite !(bind_Ret _ _ _ _ _ (canWrite_run dest (tick w))).
    rewrite !disk_tick, Wr, E. simpl.
    destruct (exists_at_find _ _ E) as [n0 Hn0].
    split.
    + intros n Hn Hk. unfold rm. rewrite command_run.
      rewrite !disk_tick. rewrite (fs_rm_file _ _ _ _ Hd Hn Hk).
      eexists. split; [reflexivity |]. rewrite disk_set_disk. now apply gone_change.
    + unfold rm_recursive. rewrite command_run.
      rewrite !disk_tick. rewrite (fs_rm_recursive _ _ _ _ Hd Hn0).
      eexists. split; [reflexivity |]. rewrite disk_set_disk. now apply gone_change.
Qed.

Lemma removal_handlers_witness :
  exists w', ActiveSync__unlinkHandler listening ["src"; "stale.txt"] sample = (Ret tt, w')
             /\ gone ["out"; "stale.txt"] (disk sample) (disk w').
Proof.
  apply (proj1 (proj2 (removal_handlers listening ["src"; "stale.txt"] sample eq_refl)
                  eq_refl eq_refl ltac:(discriminate))
           (File (plain 4) "old") eq_refl eq_refl).
Defined.

(** ** The ready flag *)

(** C10. The ready flag starts false; a call sets it only if the call is
    the handler of the [ready] signal; no public method changes it; once
    true it stays true through every sequence of calls, [abort] included. *)
Theorem ready_flag_is_monotonic :
  (forall inPath outPath, ActiveSync_ready (ActiveSync_new inPath outPath) = false) /\
  (forall m this,
     ActiveSync_ready (ActiveSync_call m this) = true ->
     ActiveSync_ready this = true \/ m = call__readyHandler) /\
  (forall m this,
     is_public m = true ->
     ActiveSync_ready (ActiveSync_call m this) = ActiveSync_ready this) /\
  (forall ms this,
     ActiveSync_ready this = true ->
     ActiveSync_ready (ActiveSync_calls ms this) = true).
Proof.
  assert (step : forall m this, ActiveSync_ready this = true ->
                                ActiveSync_ready (ActiveSync_call m this) = true).
  { intros m this H. destruct m; simpl; auto.
    - unfold ActiveSync_abort. destruct (ActiveSync_watcher this); auto.
    - unfold ActiveSync__abortHandler, ActiveSync_abort.
      destruct (ActiveSync_watcher this); auto. }
  repeat split.
  - intros m this H. destruct m; simpl in H; auto.
    + left. unfold ActiveSync_abort in H. destruct (ActiveSync_watcher this); auto.
    + left. unfold ActiveSync__abortHandler, ActiveSync_abort in H.
      destruct (ActiveSync_watcher this); auto.
  - intros m this H. destruct m; simpl in *; try discriminate; auto.
    unfold ActiveSync_abort. destruct (ActiveSync_watcher this); auto.
  - intros ms. unfold ActiveSync_calls.
    induction ms as [| m ms IH]; intros this H; simpl; auto.
Qed.

Lemma ready_flag_is_monotonic_witness :
  ActiveSync_ready
    (ActiveSync_calls [call_abort; call__unlinkHandler ["src"; "x"]; call_run; call__abortHandler]
       listening) = true.
Proof.
  exact (proj2 (proj2 (proj2 ready_flag_is_monotonic)) _ listening eq_refl).
Defined.

(* ================================================================== *)
(** * Reasoning on computations *)

Lemma wp_ret bad {A} (a : A) (Q : A -> process -> Prop) w : Q a w -> wp bad (ret a) Q w.
Proof. intros H. exact H. Qed.

Lemma wp_bind bad {A B} (m : M A) (k : A -> M B) (Q : B -> process -> Prop) w :
  wp bad m (fun a w' => wp bad (k a) Q w') w -> wp bad (bind m k) Q w.
Proof.
  unfold wp, bind. destruct (m w) as [[a | e |] w1]; auto.
Qed.

Lemma wp_mono bad {A} (m : M A) (Q Q' : A -> process -> Prop) w :
  (forall a w', Q a w' -> Q' a w') -> wp bad m Q w -> wp bad m Q' w.
Proof.
  unfold wp. intros H. destruct (m w) as [[a | e |] w1]; auto.
Qed.

Lemma wp_Ret bad {A} (m : M A) (Q : A -> process -> Prop) w a w' :
  m w = (Ret a, w') -> wp bad m Q w -> Q a w'.
Proof. unfold wp. now intros ->. Qed.

Lemma wp_total {A} (m : M A) (Q : A -> process -> Prop) w :
  wp False m Q w -> exists a w', m w = (Ret a, w') /\ Q a w'.
Proof.
  unfold wp. destruct (m w) as [[a | e |] w1]; try tauto. eauto.
Qed.

Lemma wp_of_Ret bad {A} (m : M A) (Q : A -> process -> Prop) w a w' :
  m w = (Ret a, w') -> Q a w' -> wp bad m Q w.
Proof. unfold wp. now intros ->. Qed.

Lemma wp_pathExists bad p (Q : bool -> process -> Prop) w :
  Q (exists_at p (disk w)) (tick w) -> wp bad (FsHelper_pathExists p) Q w.
Proof. intros H. unfold wp. now rewrite pathExists_run. Qed.

Lemma wp_query bad {A} (op : node -> errno + A) (Q : A -> process -> Prop) w :
  match op (disk w) with inr a => Q a (tick w) | inl _ => bad end ->
  wp bad (query op) Q w.
Proof. unfold wp. rewrite query_run. now destruct (op (disk w)). Qed.

Lemma wp_command bad op (Q : unit -> process -> Prop) w :
  match op (clock w + 1) (disk w) with
  | inr d => Q tt (set_disk d (tick w))
  | inl _ => bad
  end ->
  wp bad (command op) Q w.
Proof. unfold wp. rewrite command_run. now destruct (op (clock w + 1) (disk w)). Qed.

(** ** Shells *)

Lemma same_shell_trans a b c : same_shell a b -> same_shell b c -> same_shell a c.
Proof.
  destruct a as [[]|], b as [[]|], c as [[]|]; simpl; intros H1 H2;
    try congruence; try discriminate.
Qed.

Lemma same_shell_not_dir a n :
  same_shell a (Some n) -> is_dir n = false -> a = Some n.
Proof.
  destruct a as [[]|], n; simpl; intros H D; try congruence; try discriminate.
Qed.

(** ** Listings *)

Lemma visible_from_names seen (es : list (string * node)) c :
  In c (map fst (visible_from seen es)) -> existsb (String.eqb c) seen = false.
Proof.
  intros H. apply in_map_iff in H. destruct H as [[c' v] [<- H]].
  apply In_visible_from in H. tauto.
Qed.

Lemma NoDup_visible_from seen (es : list (string * node)) :
  NoDup (map fst (visible_from seen es)).
Proof.
  revert seen. induction es as [| [c v] es IH]; intros seen; simpl.
  - constructor.
  - destruct (existsb (String.eqb c) seen); [apply IH |].
    simpl. constructor; [| apply IH].
    intros H. apply visible_from_names in H. simpl in H.
    now rewrite String.eqb_refl in H.
Qed.

Lemma NoDup_listing (es : list (string * node)) :
  NoDup (map name (map dirent_of (visible es))).
Proof. rewrite map_map. apply NoDup_visible_from. Qed.

Lemma In_listing (es : list (string * node)) x :
  In x (map dirent_of (visible es)) ->
  exists n, assoc (name x) es = Some n /\ d_kind x = kind_of n.
Proof.
  intros H. apply in_map_iff in H. destruct H as [[c n] [<- H]].
  apply In_visible in H. exists n. auto.
Qed.

Lemma listing_names (es : list (string * node)) c :
  ~ In c (map name (map dirent_of (visible es))) -> assoc c es = None.
Proof.
  intros H. destruct (assoc c es) as [n |] eqn:E; auto.
  exfalso. apply H. apply In_visible in E. rewrite map_map.
  apply in_map_iff. exists (c, n). auto.
Qed.

Lemma fs_readdir_dir p d m es :
  find p d = Some (Dir m es) -> fs_readdir p d = inr (map dirent_of (visible es)).
Proof. unfold fs_readdir. now intros ->. Qed.

Lemma fs_readdir_inr p d l :
  fs_readdir p d = inr l ->
  exists m es, find p d = Some (Dir m es) /\ l = map dirent_of (visible es).
Proof.
  unfold fs_readdir. destruct (find p d) as [[]|]; try discriminate.
  intros [= <-]. eauto.
Qed.

(** ** Height *)

Lemma height_assoc c es n m :
  assoc c es = Some n -> (height n < height (Dir m es))%nat.
Proof.
  intros H. cbn [height]. apply Nat.lt_succ_r.
  induction es as [| [c' n'] es IH]; simpl in H; [discriminate |].
  destruct (String.eqb c c').
  - injection H as ->. apply Nat.le_max_l.
  - etransitivity; [apply IH, H | apply Nat.le_max_r].
Qed.


(** ** A loop over the entries of a directory

    Every round works below its own entry of [T]; what it establishes there
    ([E]) is not disturbed by the other rounds. *)
Section SiblingLoop.
Variable bad : Prop.
Variable T : path.
Variable d0 : node.
Variable E : string -> node -> Prop.
Variable body : Dirent -> M unit.
Variable l0 : list Dirent.

Hypothesis E_stable : forall c d1 d2,
  E c d1 -> (forall r, find (T ++ c :: r) d2 = find (T ++ c :: r) d1) -> E c d2.

Hypothesis step : forall x w,
  In x l0 ->
  below T d0 (disk w) ->
  (forall r, find (T ++ name x :: r) (disk w) = find (T ++ name x :: r) d0) ->
  wp bad (body x)
     (fun _ w' => within (T ++ [name x]) (disk w) (disk w') /\ E (name x) (disk w')) w.

Lemma below_child c d1 d2 :
  below T d0 d1 -> within (T ++ [c]) d1 d2 -> below T d0 d2.
Proof.
  intros [F1 F2] [G1 G2]. split.
  - intros q Hq. rewrite G1; [now apply F1 | now apply diverge_app_l].
  - intros q r HT. eapply same_shell_trans; [| now apply (F2 q r)].
    apply (G2 q (r ++ [c])).
    + rewrite HT. now rewrite app_assoc.
    + intros Hnil. now apply app_eq_nil in Hnil as [_ ?].
Qed.

Lemma sibling_untouched c c' d1 d2 r :
  c <> c' -> within (T ++ [c]) d1 d2 ->
  find (T ++ c' :: r) d2 = find (T ++ c' :: r) d1.
Proof.
  intros N [G1 _]. apply G1.
  change (c' :: r) with ([c'] ++ r). rewrite app_assoc.
  apply diverge_app_r. now apply diverge_siblings.
Qed.

Lemma sibling_loop l w :
  incl l l0 ->
  NoDup (map name l) ->
  below T d0 (disk w) ->
  (forall x, In x l ->
     forall r, find (T ++ name x :: r) (disk w) = find (T ++ name x :: r) d0) ->
  (forall c, ~ In c (map name l) -> E c (disk w)) ->
  wp bad (for_of l body) (fun _ w' => below T d0 (disk w') /\ forall c, E c (disk w')) w.
Proof.
  revert w. induction l as [| x l IH]; intros w Hin ND F U Done.
  - apply wp_ret. split; [exact F |]. intros c. apply Done. simpl. tauto.
  - cbn [for_of]. apply wp_bind.
    inversion ND as [| ? ? Hx ND']; subst.
    eapply wp_mono; [| apply step; [apply Hin; now left | exact F | apply U; now left]].
    intros _ w1 [G Ex]. apply IH.
    + intros y Hy. apply Hin. now right.
    + exact ND'.
    + eapply below_child; eauto.
    + intros y Hy r. rewrite <- U by now right.
      apply sibling_untouched with (name x); [| exact G].
      intros Eq. apply Hx. rewrite Eq. now apply in_map.
    + intros c Hc. destruct (string_dec (name x) c) as [<- | N]; [exact Ex |].
      apply E_stable with (disk w).
      * apply Done. simpl. tauto.
      * intros r. now apply sibling_untouched with (name x).
Qed.
End SiblingLoop.

(* ================================================================== *)
(** * The cleanup sub-phase *)

Lemma exists_at_agree p d d' : find p d = find p d' -> exists_at p d = exists_at p d'.
Proof. unfold exists_at, fs_stat. now intros ->. Qed.

Lemma find_through p d r :
  r <> [] -> find (p ++ r) d <> None -> exists m es, find p d = Some (Dir m es).
Proof.
  intros Hr H. rewrite find_app in H. destruct r as [| c r]; [congruence |].
  destruct (find p d) as [[]|]; simpl in H; try congruence. eauto.
Qed.

Lemma find_not_through p d n r :
  find p d = Some n -> is_dir n = false -> r <> [] -> find (p ++ r) d = None.
Proof.
  intros Hn Hd Hr. destruct (find (p ++ r) d) eqn:E; auto.
  destruct (find_through p d r Hr) as [m [es H]]; [congruence |].
  rewrite H in Hn. injection Hn as <-. discriminate.
Qed.

Lemma find_below_None p d r : find p d = None -> find (p ++ r) d = None.
Proof. intros H. rewrite find_app, H. apply lookup_None. Qed.

(** What leads to an existing path exists. *)
Lemma exists_at_prefix p r d : exists_at (p ++ r) d = true -> exists_at p d = true.
Proof.
  intros H. destruct r as [| c r]; [now rewrite app_nil_r in H |].
  destruct (exists_at_find _ _ H) as [n Hn].
  destruct (find_through p d (c :: r)) as [m [es Hp]]; [discriminate | congruence |].
  unfold exists_at, fs_stat. now rewrite Hp.
Qed.

Lemma within_refl p d : within p d d.
Proof. split; intros; auto using same_shell_refl. Qed.

Lemma gone_within p d d' : gone p d d' -> within p d d'.
Proof. intros [_ [H1 H2]]. split; auto. Qed.

Lemma below_refl p d : below p d d.
Proof. split; intros; auto using same_shell_refl. Qed.

Lemma below_within p d d' : below p d d' -> within p d d'.
Proof. intros [H1 H2]. split; [exact H1 | intros q r E _; now apply (H2 q r)]. Qed.

Lemma snoc_cons {A} (T : list A) c r : T ++ c :: r = (T ++ [c]) ++ r.
Proof. now rewrite <- app_assoc. Qed.

Section CleanedEntry.
Variables (T S : path) (d0 : node) (c : string).

Lemma cleaned_entry_stable d1 d2 :
  cleaned_entry T S d0 c d1 ->
  (forall r, find (T ++ c :: r) d2 = find (T ++ c :: r) d1) ->
  cleaned_entry T S d0 c d2.
Proof.
  intros [P3 [P4 P5]] H. repeat split.
  - intros r n'. rewrite H. apply P3.
  - intros r n. rewrite H. apply P4.
  - intros r n. rewrite H. apply P5.
Qed.

Lemma cleaned_entry_absent d :
  find (T ++ [c]) d0 = None ->
  (forall r, find (T ++ c :: r) d = find (T ++ c :: r) d0) ->
  cleaned_entry T S d0 c d.
Proof.
  intros Hn U.
  assert (N : forall r, find (T ++ c :: r) d0 = None).
  { intros r. rewrite snoc_cons. now apply find_below_None. }
  repeat split; intros r n; rewrite ?U, N; discriminate.
Qed.

(** An entry that is not a directory and is left alone. *)
Lemma cleaned_entry_kept d n :
  (forall r, find (T ++ c :: r) d = find (T ++ c :: r) d0) ->
  find (T ++ [c]) d0 = Some n ->
  is_dir n = false ->
  exists_at (S ++ [c]) d0 = true \/ ~ file_or_dir n ->
  cleaned_entry T S d0 c d.
Proof.
  intros U Hn Hd Hk.
  assert (N : forall r, r <> [] -> find (T ++ c :: r) d0 = None).
  { intros r Hr. rewrite snoc_cons. now apply find_not_through with n. }
  repeat split.
  - intros r n'. rewrite U. intros H. exists n'. split; auto. apply same_shell_refl.
  - intros r n1 H _. rewrite U, H. apply same_shell_refl.
  - intros r n1 H Ex K. destruct r as [| c' r].
    + rewrite Hn in H. injection H as <-. destruct Hk; [congruence | tauto].
    + rewrite N in H; discriminate.
Qed.

(** An entry without a source path, deleted with all it holds. *)
Lemma cleaned_entry_deleted d :
  (forall r, find ((T ++ [c]) ++ r) d = None) ->
  exists_at (S ++ [c]) d0 = false ->
  cleaned_entry T S d0 c d.
Proof.
  intros G Ex. repeat split.
  - intros r n'. rewrite snoc_cons, G. discriminate.
  - intros r n _ Ex'. rewrite snoc_cons in Ex'. apply exists_at_prefix in Ex'. congruence.
  - intros r n _ _ _. rewrite snoc_cons. apply G.
Qed.

(** A directory with a source path, cleaned in its turn. *)
Lemma cleaned_entry_recursed d1 d2 :
  (forall r, find (T ++ c :: r) d1 = find (T ++ c :: r) d0) ->
  (forall r, exists_at ((S ++ [c]) ++ r) d1 = exists_at ((S ++ [c]) ++ r) d0) ->
  exists_at (S ++ [c]) d0 = true ->
  cleaned (T ++ [c]) (S ++ [c]) d1 d2 ->
  cleaned_entry T S d0 c d2.
Proof.
  intros U Src Ex [[_ Sh] C]. repeat split.
  - intros r n' H. destruct r as [| c' r].
    + specialize (Sh (T ++ [c]) [] (eq_sym (app_nil_r _))).
      rewrite H, U in Sh. destruct (find (T ++ [c]) d0) as [n |] eqn:E.
      * exists n. auto.
      * destruct n'; discriminate.
    + destruct (C c') as [P3 _]. rewrite snoc_cons in H.
      destruct (P3 r n' H) as [n [H1 H2]]. exists n. split; auto.
      rewrite <- U, snoc_cons. exact H1.
  - intros r n H Ex'. destruct r as [| c' r].
    + specialize (Sh (T ++ [c]) [] (eq_sym (app_nil_r _))).
      rewrite U, H in Sh. exact Sh.
    + destruct (C c') as [_ [P4 _]]. rewrite snoc_cons. apply P4.
      * rewrite <- snoc_cons, U. exact H.
      * rewrite Src, <- snoc_cons. exact Ex'.
  - intros r n H Ex' K. destruct r as [| c' r]; [congruence |].
    destruct (C c') as [_ [_ P5]]. rewrite snoc_cons. apply P5 with n.
    + rewrite <- snoc_cons, U. exact H.
    + rewrite Src, <- snoc_cons. exact Ex'.
    + exact K.
Qed.
End CleanedEntry.

Section Cleanup.
Variable this : NaiveSyncObj.
Let I := NaiveSync_inPath this.
Let O := NaiveSync_outPath this.
Hypothesis roots : diverge I O.

Lemma inDir_eq rel :
  (if path_eqb (O ++ rel) O then I else join I (replace (O ++ rel) O)) = I ++ rel.
Proof.
  destruct (path_eqb_spec (O ++ rel) O) as [E | _].
  - rewrite <- (app_nil_r O) in E at 2. apply app_inv_head in E. subst.
    now rewrite app_nil_r.
  - unfold join. now rewrite replace_prefix.
Qed.

Lemma source_diverges rel q : diverge (O ++ rel) (I ++ q).
Proof. apply diverge_app_l, diverge_app_r, diverge_sym, roots. Qed.

(** The source is out of the reach of a change below the destination. *)
Lemma source_untouched rel d0 d q :
  within (O ++ rel) d0 d -> find (I ++ q) d = find (I ++ q) d0.
Proof. intros [H _]. apply H, source_diverges. Qed.

Lemma cleanup_spec bad fuel : forall rel w,
  bad \/ (exists m es, find (O ++ rel) (disk w) = Some (Dir m es) /\
                       (height (Dir m es) < fuel)%nat) ->
  wp bad (NaiveSync__cleanupOutPath fuel this (O ++ rel))
     (fun _ w' => cleaned (O ++ rel) (I ++ rel) (disk w) (disk w')) w.
Proof.
  induction fuel as [| fuel IH]; intros rel w Hyp.
  - cbn [NaiveSync__cleanupOutPath]. unfold wp, starved.
    destruct Hyp as [B | [m [es [_ H]]]]; [exact B | lia].
  - cbn [NaiveSync__cleanupOutPath]. fold I O. rewrite inDir_eq.
    apply wp_bind. unfold readdir. apply wp_query.
    destruct (fs_readdir (O ++ rel) (disk w)) as [e | l] eqn:R.
    { destruct Hyp as [B | [m [es [H _]]]]; [exact B |].
      rewrite (fs_readdir_dir _ _ _ _ H) in R. discriminate. }
    destruct (fs_readdir_inr _ _ _ R) as [m [es [HT ->]]].
    assert (Hfuel : bad \/ (height (Dir m es) < S fuel)%nat).
    { destruct Hyp as [B | [m' [es' [H Hh]]]]; [now left | right].
      rewrite HT in H. now injection H as <- <-. }
    clear Hyp R.
    set (T := O ++ rel). set (S := I ++ rel). set (d0 := disk w).
    apply wp_mono with
      (Q := fun _ w' => below T d0 (disk w') /\ forall c, cleaned_entry T S d0 c (disk w')).
    { intros _ w' H. exact H. }
    apply sibling_loop with (l0 := map dirent_of (visible es)).
    + apply cleaned_entry_stable.
    + (* one entry *)
      intros x w1 Hx F U.
      destruct (In_listing _ _ Hx) as [n [Hn Hk]].
      assert (Hc0 : find (T ++ [name x]) d0 = Some n).
      { unfold T, d0. fold T. rewrite find_app. fold T in HT. rewrite HT. exact Hn. }
      assert (Hc1 : find (T ++ [name x]) (disk w1) = Some n).
      { rewrite <- Hc0. apply (U []). }
      assert (Src : forall q, find (S ++ q) (disk w1) = find (S ++ q) d0).
      { intros q. unfold S. rewrite <- app_assoc.
        apply source_untouched with rel. apply below_within, F. }
      unfold join. fold T S.
      apply wp_bind. apply wp_pathExists.
      rewrite (exists_at_agree _ _ _ (Src [name x])).
      rewrite Hk.
      destruct (exists_at (S ++ [name x]) d0) eqn:Ex; destruct n as [mf s | md es' | lk | ms];
        cbn [kind_of isFile isDirectory andb].
      * (* a file with a source path *)
        apply wp_ret. rewrite disk_tick. split; [apply within_refl |].
        apply cleaned_entry_kept with (File mf s); auto.
      * (* a directory with a source path *)
        unfold T. rewrite <- app_assoc.
        eapply wp_mono; [| apply IH].
        -- cbv beta. intros _ w2 C. rewrite disk_tick in C.
           rewrite !app_assoc in C. fold T S in C. split.
           ++ apply below_within. rewrite app_assoc. fold T. apply C.
           ++ apply cleaned_entry_recursed with (disk w1); auto.
              intros r. apply exists_at_agree. rewrite <- app_assoc. apply Src.
        -- destruct Hfuel as [B | Hh]; [now left | right].
           exists md, es'. rewrite disk_tick, app_assoc. fold T. split; [exact Hc1 |].
           pose proof (height_assoc _ _ _ m Hn). lia.
      * apply wp_ret. rewrite disk_tick. split; [apply within_refl |].
        apply cleaned_entry_kept with (Symlink lk); auto;
          right; intros [K | K]; discriminate.
      * apply wp_ret. rewrite disk_tick. split; [apply within_refl |].
        apply cleaned_entry_kept with (Special ms); auto;
          right; intros [K | K]; discriminate.
      * (* a file without a source path *)
        unfold rm. apply wp_command. rewrite disk_tick.
        rewrite (fs_rm_file _ _ _ (File mf s)); auto.
        2:{ intros Hnil. now apply app_eq_nil in Hnil as [_ ?]. }
        rewrite disk_set_disk.
        assert (G : gone (T ++ [name x]) (disk w1)
                      (change (fun _ => None) (T ++ [name x]) (disk w1))).
        { apply gone_change. intros Hnil. now apply app_eq_nil in Hnil as [_ ?]. }
        split; [now apply gone_within |].
        apply cleaned_entry_deleted; [apply G | exact Ex].
      * (* a directory without a source path *)
        unfold rm_recursive. apply wp_command. rewrite disk_tick.
        rewrite (fs_rm_recursive _ _ _ (Dir md es')); auto.
        2:{ intros Hnil. now apply app_eq_nil in Hnil as [_ ?]. }
        rewrite disk_set_disk.
        assert (G : gone (T ++ [name x]) (disk w1)
                      (change (fun _ => None) (T ++ [name x]) (disk w1))).
        { apply gone_change. intros Hnil. now apply app_eq_nil in Hnil as [_ ?]. }
        split; [now apply gone_within |].
        apply cleaned_entry_deleted; [apply G | exact Ex].
      * apply wp_ret. rewrite disk_tick. split; [apply within_refl |].
        apply cleaned_entry_kept with (Symlink lk); auto;
          right; intros [K | K]; discriminate.
      * apply wp_ret. rewrite disk_tick. split; [apply within_refl |].
        apply cleaned_entry_kept with (Special ms); auto;
          right; intros [K | K]; discriminate.
    + apply incl_refl.
    + apply NoDup_listing.
    + rewrite disk_tick. apply below_refl.
    + intros x _ r. now rewrite disk_tick.
    + intros c Hc. rewrite disk_tick. apply cleaned_entry_absent; auto.
      unfold T, d0. rewrite find_app. fold T. fold T in HT. rewrite HT. simpl.
      now apply listing_names.
Qed.
End Cleanup.

(* ================================================================== *)
(** * The copy sub-phase *)

(** ** Making a directory *)

Lemma mkdirp_dirs now p : forall d d',
  mkdirp now p d = Some d' ->
  forall q r n, p = q ++ r -> find q d = Some n -> is_dir n = true.
Proof.
  unfold find. induction p as [| c p IH]; intros d d' H q r n E Hn.
  - apply eq_sym, app_eq_nil in E as [-> _]. cbn in Hn. injection Hn as <-.
    destruct d; try discriminate. reflexivity.
  - destruct d as [| m es | |]; try discriminate.
    destruct q as [| c' q]; [cbn in Hn; now injection Hn as <- |].
    cbn in E. injection E as E1 E2. subst c'. cbn [lookup] in Hn. cbn [mkdirp] in H.
    destruct (assoc c es) as [child |]; [| now rewrite lookup_None in Hn].
    destruct (mkdirp now p child) as [child' |] eqn:M; [| discriminate].
    eapply IH; eauto.
Qed.

Lemma mkdirp_new now T c : forall n m es,
  lookup T (Some n) = Some (Dir m es) ->
  lookup (T ++ [c]) (Some n) = None ->
  mkdirp now (T ++ [c]) n =
  alter (fun _ => Some (Dir (new_meta now) [])) (T ++ [c]) (Some n).
Proof.
  induction T as [| a T IH]; intros n m es HT Hc.
  - cbn in HT. injection HT as ->. cbn in Hc. cbn [app mkdirp alter].
    unfold assoc_alter. cbn [alter]. now rewrite Hc.
  - destruct n as [| m0 es0 | |]; try discriminate.
    cbn [app lookup] in HT, Hc. cbn [app mkdirp alter].
    destruct (assoc a es0) as [child |] eqn:A; [| now rewrite lookup_None in HT].
    rewrite (IH _ _ _ HT Hc). unfold assoc_alter at 1. rewrite A.
    destruct (alter_Some (fun _ => Some (Dir (new_meta now) [])) (T ++ [c]) child)
      as [child' ->]; [| reflexivity].
    intros E. now apply app_eq_nil in E as [_ ?].
Qed.

Lemma within_trans p d0 d1 d2 : within p d0 d1 -> within p d1 d2 -> within p d0 d2.
Proof.
  intros [A1 A2] [B1 B2]. split.
  - intros q Hq. rewrite B1, A1; auto.
  - intros q r E Hr. eapply same_shell_trans; [apply (B2 q r) | apply (A2 q r)]; auto.
Qed.

Lemma within_change f p d : p <> [] -> within p d (change f p d).
Proof.
  intros Hp. split.
  - intros q Hq. rewrite find_change by exact Hp. now apply lookup_alter_diverge.
  - intros q r -> Hr. rewrite find_change by exact Hp. now apply lookup_alter_above.
Qed.

Lemma snoc_not_nil {A} (T : list A) c : T ++ [c] <> [].
Proof. intros E. now apply app_eq_nil in E as [_ ?]. Qed.

Lemma find_change_child f T c d m es :
  find T d = Some (Dir m es) ->
  find (T ++ [c]) (change f (T ++ [c]) d) = f (find (T ++ [c]) d).
Proof.
  intros H. rewrite find_change by apply snoc_not_nil.
  now apply lookup_alter_child with m es.
Qed.

Lemma readable_at_shell p d d' :
  same_shell (find p d') (find p d) -> readable_at p d' = readable_at p d.
Proof.
  intros H. apply same_shell_stat in H.
  unfold readable_at, fs_access, fs_stat.
  destruct (find p d') as [n' |], (find p d) as [n |]; cbn in *;
    try rewrite H; try rewrite <- H; try reflexivity.
Qed.

Lemma exists_at_shell p d d' :
  same_shell (find p d') (find p d) -> exists_at p d' = exists_at p d.
Proof.
  intros H. apply same_shell_stat in H.
  unfold exists_at, fs_stat.
  destruct (find p d') as [n' |], (find p d) as [n |]; cbn in *;
    try rewrite H; try rewrite <- H; try reflexivity.
Qed.

Lemma ensured_shell p d d' :
  same_shell (find p d') (find p d) -> ensured p d -> ensured p d'.
Proof.
  intros H [R | [m [es D]]].
  - left. now rewrite (readable_at_shell _ _ _ H).
  - right. rewrite D in H. destruct (find p d') as [[]|]; cbn in H; try discriminate.
    eauto.
Qed.

(** ** [ensureDir] *)

Lemma ensureDir_ensured p w :
  ensured p (disk w) ->
  exists w', FsHelper_ensureDir p w = (Ret tt, w') /\ disk w' = disk w.
Proof.
  intros H. unfold FsHelper_ensureDir.
  rewrite (bind_Ret _ _ _ _ _ (canRead_run p w)).
  destruct (readable_at p (disk w)) eqn:R.
  - eexists. split; [reflexivity |]. apply disk_ticks.
  - destruct H as [H | [m [es H]]]; [congruence |].
    unfold mkdir_recursive. rewrite command_run, disk_ticks.
    unfold fs_mkdir_recursive. rewrite (mkdirp_existing _ _ _ _ _ H).
    eexists. split; [reflexivity |]. now rewrite disk_set_disk.
Qed.

(** [ensureDir] of a path whose parent exists: the directory was there, or
    it is made, empty. *)
Lemma wp_ensureDir_child T c (Q : unit -> process -> Prop) w :
  find T (disk w) <> None ->
  (forall w', disk w' = disk w -> ensured (T ++ [c]) (disk w) -> Q tt w') ->
  (forall w' now m es,
     find T (disk w) = Some (Dir m es) ->
     find (T ++ [c]) (disk w) = None ->
     disk w' = change (fun _ => Some (Dir (new_meta now) [])) (T ++ [c]) (disk w) ->
     Q tt w') ->
  wp True (FsHelper_ensureDir (T ++ [c])) Q w.
Proof.
  intros HT Q1 Q2. unfold FsHelper_ensureDir. apply wp_bind.
  eapply wp_of_Ret; [apply canRead_run |].
  destruct (readable_at (T ++ [c]) (disk w)) eqn:R.
  - apply wp_ret. apply Q1; [apply disk_ticks | now left].
  - unfold mkdir_recursive. apply wp_command. rewrite disk_ticks.
    unfold fs_mkdir_recursive.
    destruct (mkdirp _ (T ++ [c]) (disk w)) as [d' |] eqn:M; [| exact I].
    destruct (find T (disk w)) as [n |] eqn:Hn; [| congruence].
    assert (is_dir n = true) as Dn.
    { eapply mkdirp_dirs; [exact M | reflexivity | exact Hn]. }
    destruct n as [| m es | |]; try discriminate.
    destruct (find (T ++ [c]) (disk w)) as [n |] eqn:Hc.
    + assert (is_dir n = true) as Dc.
      { eapply (mkdirp_dirs _ _ _ _ M (T ++ [c]) []);
          [now rewrite app_nil_r | exact Hc]. }
      destruct n as [| m' es' | |]; try discriminate.
      rewrite (mkdirp_existing _ _ _ _ _ Hc) in M. injection M as <-.
      apply Q1; [now rewrite disk_set_disk | right; eauto].
    + unfold find in Hn, Hc. rewrite (mkdirp_new _ _ _ _ _ _ Hn Hc) in M.
      apply Q2 with (now := clock (ticks (if exists_at (T ++ [c]) (disk w) then 2 else 1) w) + 1)
                    (m := m) (es := es); auto.
      rewrite disk_set_disk. unfold change. now rewrite M.
Qed.

Lemma wp_ensureDir_there p (Q : unit -> process -> Prop) w :
  find p (disk w) <> None ->
  (forall w', disk w' = disk w -> ensured p (disk w) -> Q tt w') ->
  wp True (FsHelper_ensureDir p) Q w.
Proof.
  intros Hp HQ. unfold FsHelper_ensureDir. apply wp_bind.
  eapply wp_of_Ret; [apply canRead_run |].
  destruct (readable_at p (disk w)) eqn:R.
  - apply wp_ret. apply HQ; [apply disk_ticks | now left].
  - unfold mkdir_recursive. apply wp_command. rewrite disk_ticks.
    unfold fs_mkdir_recursive.
    destruct (mkdirp _ p (disk w)) as [d' |] eqn:M; [| exact I].
    destruct (find p (disk w)) as [n |] eqn:Hn; [| congruence].
    assert (is_dir n = true) as Dn.
    { eapply (mkdirp_dirs _ _ _ _ M p []); [now rewrite app_nil_r | exact Hn]. }
    destruct n as [| m es | |]; try discriminate.
    rewrite (mkdirp_existing _ _ _ _ _ Hn) in M. injection M as <-.
    apply HQ; [now rewrite disk_set_disk | right; eauto].
Qed.

(** ** [copyFile] *)

Lemma fs_copyFile_inr s T c now d d' :
  fs_copyFile s (T ++ [c]) now d = inr d' ->
  exists n src m es n',
    find s d = Some n /\ readable_file n = inr src /\
    find T d = Some (Dir m es) /\
    written now src (find (T ++ [c]) d) = inr n' /\
    d' = change (fun _ => Some n') (T ++ [c]) d.
Proof.
  unfold fs_copyFile. destruct (find s d) as [n |]; [| discriminate].
  destruct (readable_file n) as [e | src] eqn:R; [discriminate |].
  replace (dirname (T ++ [c])) with T by (symmetry; apply removelast_last).
  destruct (T ++ [c]) eqn:E; [discriminate |]. rewrite <- E.
  destruct (find T d) as [[| m es | |] |]; try discriminate.
  destruct (written now src (find (T ++ [c]) d)) as [e | n'] eqn:W; [discriminate |].
  intros [= <-]. exists n, src, m, es, n'. auto.
Qed.

Lemma written_not_dir now src old n' :
  written now src old = inr n' -> forall n, old = Some n -> is_dir n = false.
Proof.
  unfold written. destruct old as [[m s | m es | [[m s] |] | m] |];
    try destruct (writable m); intros [= <-]; intros n [= <-]; reflexivity.
Qed.

Lemma written_inr now src old n' :
  written now src old = inr n' ->
  is_dir n' = false /\
  (exists ts, stat_node n' = Some ts) /\
  (forall n, old = Some n -> kind_of n' = kind_of n).
Proof.
  unfold written. destruct old as [[m s | m es | [[m s] |] | m] |];
    try destruct (writable m); intros [= <-];
    cbn; repeat split; eauto; intros n [= <-]; reflexivity.
Qed.

(** The stamp of what was written: the stamped copy of the source. *)
Lemma touched_written a m now src old n' :
  written now src old = inr n' ->
  exists n'',
    touched a m n' = Some n'' /\ kind_of n'' = kind_of n' /\
    (n'' = File (set_times a m (fst src)) (snd src) \/
     n'' = Symlink (Some (set_times a m (fst src), snd src))).
Proof.
  unfold written. destruct old as [[m0 s | m0 es | [[m0 s] |] | m0] |];
    try destruct (writable m0); intros [= <-];
    cbn; eexists; repeat split; auto.
Qed.

Lemma readable_file_inr n src :
  readable_file n = inr src -> is_dir n = false /\ exists ss, stat_node n = Some ss.
Proof.
  destruct n as [m s | m es | [[m s] |] | m]; cbn; intros [= <-]; eauto.
Qed.

Lemma fs_stat_find p d n ss :
  find p d = Some n -> stat_node n = Some ss -> fs_stat p d = inr ss.
Proof. unfold fs_stat. now intros -> ->. Qed.

Lemma fs_stat_inv p d ss :
  fs_stat p d = inr ss -> exists n, find p d = Some n /\ stat_node n = Some ss.
Proof.
  unfold fs_stat. destruct (find p d) as [n |]; [| discriminate].
  destruct (stat_node n) eqn:E; [| discriminate]. intros [= <-]. eauto.
Qed.

Lemma stat_is_dir n ss :
  stat_node n = Some ss -> isDirectory (st_kind ss) = is_dir n.
Proof.
  destruct n as [m s | m es | [[m s] |] | m]; cbn; intros [= <-]; reflexivity.
Qed.

Section CopyFile.
Variables (s T : path) (c : string).
Let t := T ++ [c].
Hypothesis apart : diverge s t.

Lemma settled_exists n ss d : settled n ss t d -> exists_at t d = true.
Proof.
  intros [[ts [H _]] | [n' [H [src [_ [-> | ->]]]]]].
  - now apply fs_stat_inr with ts.
  - unfold exists_at, fs_stat. now rewrite H.
  - unfold exists_at, fs_stat. now rewrite H.
Qed.

(** The source is a file, the target is left, settled. *)
Lemma copied_file d0 d n ss :
  find s d0 = Some n -> stat_node n = Some ss -> is_dir n = false ->
  within t d0 d ->
  (forall r, r <> [] -> find (t ++ r) d = find (t ++ r) d0) ->
  (forall n0, find t d0 = Some n0 ->
     exists n', find t d = Some n' /\ kind_of n' = kind_of n0) ->
  settled n ss t d ->
  copied s t d0 d.
Proof.
  intros Hs Hss Hd W Below Kept Up.
  assert (Ex : exists_at s d0 = true).
  { unfold exists_at. now rewrite (fs_stat_find _ _ _ _ Hs Hss). }
  assert (Ext : exists_at t d = true) by now apply settled_exists with n ss.
  assert (Leaf : forall r, r <> [] -> find (s ++ r) d0 = None).
  { intros r Hr. now apply find_not_through with n. }
  repeat split.
  - intros r n' H. destruct r as [| c' r].
    + right. now rewrite app_nil_r.
    + left. exists n'. split; auto. rewrite <- Below; [exact H | discriminate].
  - intros r n0 H. destruct r as [| c' r].
    + rewrite app_nil_r in *. now apply Kept.
    + exists n0. split; auto. rewrite Below; [exact H | discriminate].
  - intros r H. destruct r as [| c' r].
    + now rewrite app_nil_r.
    + rewrite Leaf in H; [congruence | discriminate].
  - intros r n1 H. destruct r as [| c' r].
    + rewrite app_nil_r in *. rewrite Hs in H. injection H as <-. rewrite Hss.
      rewrite (stat_is_dir _ _ Hss), Hd. exact Up.
    + rewrite Leaf in H; discriminate.
Qed.

Lemma copy_and_stamp w :
  ensured T (disk w) ->
  (forall n, find s (disk w) = Some n -> is_dir n = false) ->
  wp True
     (copyFile s t ;;
      sourceInfo <- stat s ;;
      utimes t (atime sourceInfo) (mtime sourceInfo))
     (fun _ w' => within t (disk w) (disk w') /\ copied s t (disk w) (disk w') /\
                  restamped s t (disk w) (disk w')) w.
Proof.
  intros Ens Hfile. set (d := disk w).
  apply wp_bind. unfold copyFile. apply wp_command. fold d.
  destruct (fs_copyFile s t (clock w + 1) d) as [e | d2] eqn:C; [exact I |].
  destruct (fs_copyFile_inr _ _ _ _ _ _ C) as [n [src [m [es [n' [Hs [Hr [HT [Hw ->]]]]]]]]].
  fold t in Hw |- *. set (d2 := change (fun _ => Some n') t d).
  destruct (readable_file_inr _ _ Hr) as [Hd [ss Hss]].
  assert (W2 : within t d d2) by (apply within_change, snoc_not_nil).
  assert (Hs2 : find s d2 = Some n).
  { rewrite (proj1 W2); [exact Hs | now apply diverge_sym]. }
  assert (Ht2 : find t d2 = Some n').
  { unfold d2, t. now rewrite (find_change_child _ _ _ _ _ _ HT). }
  apply wp_bind. unfold stat. apply wp_query. rewrite disk_set_disk.
  rewrite (fs_stat_find _ _ _ _ Hs2 Hss).
  unfold utimes. apply wp_command. rewrite disk_tick, disk_set_disk.
  unfold fs_utimes. rewrite Ht2.
  destruct (touched_written (atime ss) (mtime ss) _ _ _ _ Hw) as [n'' [Ht [Hk Hst]]].
  rewrite Ht. rewrite disk_set_disk.
  set (d3 := change (fun _ => Some n'') t d2).
  assert (W3 : within t d2 d3) by (apply within_change, snoc_not_nil).
  assert (HT2 : exists es2, find T d2 = Some (Dir m es2)).
  { pose proof (proj2 W2 T [c] eq_refl ltac:(discriminate)) as Sh.
    rewrite HT in Sh. destruct (find T d2) as [[]|]; cbn in Sh; try discriminate.
    subst. eauto. }
  destruct HT2 as [es2 HT2].
  assert (Ht3 : find t d3 = Some n'').
  { unfold d3, t. now rewrite (find_change_child _ _ _ _ _ _ HT2). }
  assert (Hd'' : is_dir n'' = false).
  { unfold is_dir. rewrite Hk. apply (written_inr _ _ _ _ Hw). }
  assert (St : stamped_copy n ss n'') by (exists src; auto).
  split; [now apply within_trans with d2 |].
  split; [| now exists n, ss, n''].
  apply copied_file with n ss; auto.
  - now apply within_trans with d2.
  - intros r Hr'. rewrite (find_not_through t d3 n'') by auto.
    destruct (find t d) as [n0 |] eqn:H0.
    + symmetry. apply find_not_through with n0; auto.
      now apply (written_not_dir _ _ _ _ Hw).
    + symmetry. now apply find_below_None.
  - intros n0 H0. exists n''. split; [exact Ht3 |]. rewrite Hk.
    now apply (written_inr _ _ _ _ Hw).
  - right. now exists n''.
Qed.

(** [FsHelper.copyFile] of a source that is not a directory, onto a target
    whose parent exists. *)
Lemma copyFile_spec w :
  find T (disk w) <> None ->
  (forall n, find s (disk w) = Some n -> is_dir n = false) ->
  wp True (FsHelper_copyFile s t)
     (fun _ w' => within t (disk w) (disk w') /\ copied s t (disk w) (disk w') /\
                  (disk w' = disk w \/ restamped s t (disk w) (disk w'))) w.
Proof.
  intros HT Hfile. unfold FsHelper_copyFile.
  replace (dirname t) with T by (symmetry; apply removelast_last).
  apply wp_bind. apply wp_ensureDir_there; [exact HT |]. intros w1 D1 Ens.
  apply wp_bind. apply wp_pathExists. rewrite D1.
  destruct (exists_at t (disk w)) eqn:Ex.
  - apply wp_bind. unfold stat at 1. apply wp_query. rewrite disk_tick, D1.
    destruct (fs_stat s (disk w)) as [e | ss] eqn:Hss; [exact I |].
    apply wp_bind. unfold stat at 1. apply wp_query. rewrite !disk_tick, D1.
    destruct (fs_stat t (disk w)) as [e | ts] eqn:Hts; [exact I |].
    destruct (strict_equal (Math_abs (Math_round (mtimeMs ss - mtimeMs ts))) (Number_of 0))
      eqn:Delta.
    + apply wp_ret. rewrite !disk_tick, D1. split; [apply within_refl |].
      split; [| now left].
      destruct (fs_stat_inv _ _ _ Hss) as [n [Hn Hst]].
      apply copied_file with n ss; eauto.
      * apply within_refl.
      * left. exists ts. split; auto.
    + eapply wp_mono; [| apply copy_and_stamp].
      * cbv beta. intros _ w'. rewrite !disk_tick, D1. tauto.
      * now rewrite !disk_tick, D1.
      * now rewrite !disk_tick, D1.
  - eapply wp_mono; [| apply copy_and_stamp].
    * cbv beta. intros _ w'. rewrite !disk_tick, D1. tauto.
    * now rewrite !disk_tick, D1.
    * now rewrite !disk_tick, D1.
Qed.
End CopyFile.

(** ** [copyDirectory] *)

Lemma ensured_exists p d : ensured p d -> exists_at p d = true.
Proof.
  intros [R | [m [es D]]]; [now apply readable_exists |].
  unfold exists_at, fs_stat. now rewrite D.
Qed.

Lemma ensured_agree p d d' : find p d' = find p d -> ensured p d -> ensured p d'.
Proof. intros E. apply ensured_shell. rewrite E. apply same_shell_refl. Qed.

Lemma settled_agree n ss p d d' :
  find p d' = find p d -> settled n ss p d -> settled n ss p d'.
Proof.
  intros E [[ts [H1 H2]] | [n' [H1 H2]]].
  - left. exists ts. split; auto. unfold fs_stat in *. now rewrite E.
  - right. exists n'. split; auto. now rewrite E.
Qed.

Lemma copied_stable s t d0 d1 d2 :
  copied s t d0 d1 ->
  (forall r, find (t ++ r) d2 = find (t ++ r) d1) ->
  copied s t d0 d2.
Proof.
  intros [C1 [C2 [C3 C4]]] H. repeat split.
  - intros r n'. rewrite H. apply C1.
  - intros r n. rewrite H. apply C2.
  - intros r Hr. rewrite (exists_at_agree _ _ _ (H r)). now apply C3.
  - intros r n Hn. specialize (C4 r n Hn). destruct (stat_node n) as [ss |]; auto.
    destruct (isDirectory (st_kind ss)).
    + eapply ensured_agree; [apply H | exact C4].
    + eapply settled_agree; [apply H | exact C4].
Qed.

(** The same copy, told from a disk that agrees on the source and below
    the target. *)
Lemma copied_from s t d0 d0' d :
  (forall r, find (s ++ r) d0' = find (s ++ r) d0) ->
  (forall r, find (t ++ r) d0' = find (t ++ r) d0) ->
  copied s t d0 d -> copied s t d0' d.
Proof.
  intros Hs Ht [C1 [C2 [C3 C4]]]. repeat split.
  - intros r n' H. rewrite Ht, (exists_at_agree _ _ _ (Hs r)). now apply C1.
  - intros r n. rewrite Ht. apply C2.
  - intros r. rewrite Hs. apply C3.
  - intros r n. rewrite Hs. apply C4.
Qed.

Lemma copied_nothing s t d :
  find s d = None -> copied s t d d.
Proof.
  intros Hs. assert (N : forall r, find (s ++ r) d = None).
  { intros r. now apply find_below_None. }
  repeat split.
  - intros r n' H. left. eauto.
  - intros r n H. eauto.
  - intros r H. now rewrite N in H.
  - intros r n. rewrite N. discriminate.
Qed.

Section CopyDirectory.
Variables (s T : path) (c : string).
Let t := T ++ [c].

Lemma copied_dir d d1 d' m es :
  find s d = Some (Dir m es) ->
  (forall q, find (s ++ q) d1 = find (s ++ q) d) ->
  within t d d1 ->
  ensured t d1 ->
  (forall r, r <> [] -> find (t ++ r) d1 = find (t ++ r) d) ->
  (forall n, find t d = Some n -> exists n1, find t d1 = Some n1 /\ kind_of n1 = kind_of n) ->
  below t d1 d' ->
  (forall c', copied (s ++ [c']) (t ++ [c']) d1 d') ->
  within t d d' /\ copied s t d d'.
Proof.
  intros Hs Src W1 Ens Sub Kind B Ent.
  assert (Sh : same_shell (find t d') (find t d1)).
  { apply (proj2 B t []). now rewrite app_nil_r. }
  assert (Exs : exists_at s d = true).
  { unfold exists_at, fs_stat. now rewrite Hs. }
  split; [apply within_trans with d1; [exact W1 | now apply below_within] |].
  repeat split.
  - intros r n' H. destruct r as [| c' r].
    + right. now rewrite app_nil_r.
    + destruct (Ent c') as [C1 _]. rewrite snoc_cons in H.
      destruct (C1 r n' H) as [[n [H1 H2]] | H1].
      * left. exists n. split; auto. rewrite <- Sub by discriminate.
        now rewrite snoc_cons.
      * right. rewrite snoc_cons, <- H1. apply exists_at_agree.
        rewrite <- app_assoc. symmetry. apply Src.
  - intros r n H. destruct r as [| c' r].
    + rewrite app_nil_r in *. destruct (Kind n H) as [n1 [H1 K1]].
      rewrite H1 in Sh. destruct (find t d') as [n' |] eqn:E.
      * exists n'. split; auto. rewrite <- K1.
        apply same_shell_kind in Sh. now injection Sh.
      * destruct n1; discriminate.
    + destruct (Ent c') as [_ [C2 _]]. rewrite snoc_cons. apply C2.
      rewrite <- snoc_cons, Sub by discriminate. exact H.
  - intros r H. destruct r as [| c' r].
    + rewrite app_nil_r. rewrite (exists_at_shell _ _ _ Sh). now apply ensured_exists.
    + destruct (Ent c') as [_ [_ [C3 _]]]. rewrite snoc_cons. apply C3.
      rewrite <- app_assoc, Src. exact H.
  - intros r n H. destruct r as [| c' r].
    + rewrite app_nil_r in *. rewrite Hs in H. injection H as <-. cbn.
      eapply ensured_shell; eauto.
    + destruct (Ent c') as [_ [_ [_ C4]]]. rewrite snoc_cons. apply C4.
      rewrite <- app_assoc, Src. exact H.
Qed.
End CopyDirectory.

Lemma copyDirectory_spec fuel : forall s T c w,
  diverge s (T ++ [c]) ->
  find T (disk w) <> None ->
  wp True (FsHelper_copyDirectory fuel s (T ++ [c]))
     (fun _ w' => within (T ++ [c]) (disk w) (disk w') /\
                  copied s (T ++ [c]) (disk w) (disk w')) w.
Proof.
  induction fuel as [| fuel IH]; intros s T c w apart HT; [exact I |].
  cbn [FsHelper_copyDirectory]. set (t := T ++ [c]). set (d := disk w).
  assert (Src0 : forall d1, within t d d1 -> forall q, find (s ++ q) d1 = find (s ++ q) d).
  { intros d1 W q. apply (proj1 W). apply diverge_sym, diverge_app_l, apart. }
  (* the rest of the body, from a disk where [t] is ensured *)
  assert (Rest : forall w1,
    within t d (disk w1) -> ensured t (disk w1) ->
    (forall r, r <> [] -> find (t ++ r) (disk w1) = find (t ++ r) d) ->
    (forall n, find t d = Some n ->
       exists n1, find t (disk w1) = Some n1 /\ kind_of n1 = kind_of n) ->
    wp True
      (entries <- readdir s ;;
       for_of entries (fun entry =>
         let srcFile := join s [name entry] in
         let destFile := join t [name entry] in
         srcStat <- stat srcFile ;;
         if isDirectory (st_kind srcStat) then FsHelper_copyDirectory fuel srcFile destFile
         else FsHelper_copyFile srcFile destFile))
      (fun _ w' => within t d (disk w') /\ copied s t d (disk w')) w1).
  { intros w1 W1 Ens Sub Kind. set (d1 := disk w1).
    assert (Src1 := Src0 d1 W1).
    apply wp_bind. unfold readdir. apply wp_query. fold d1.
    destruct (fs_readdir s d1) as [e | l] eqn:R; [exact I |].
    destruct (fs_readdir_inr _ _ _ R) as [m [es [Hs ->]]].
    assert (Hs0 : find s d = Some (Dir m es)).
    { rewrite <- Hs, <- (app_nil_r s). apply eq_sym, Src1. }
    apply wp_mono with
      (Q := fun _ w' => below t d1 (disk w') /\
                        forall c', copied (s ++ [c']) (t ++ [c']) d1 (disk w')).
    { intros _ w' [B Ent]. now apply copied_dir with d1 m es. }
    apply sibling_loop with (l0 := map dirent_of (visible es)) (T := t) (d0 := d1)
      (E := fun c' d' => copied (s ++ [c']) (t ++ [c']) d1 d').
    - intros c' da db H E. apply copied_stable with da; auto.
      intros r. rewrite <- snoc_cons. apply E.
    - intros x w2 Hx B U. set (c' := name x). set (d2 := disk w2).
      destruct (In_listing _ _ Hx) as [n [Hn _]]. fold c' in Hn.
      assert (Src2 : forall q, find (s ++ q) d2 = find (s ++ q) d1).
      { intros q. apply (proj1 B). apply diverge_sym, diverge_app_l, apart. }
      assert (Hc : find (s ++ [c']) d2 = Some n).
      { rewrite Src2, find_app, Hs. exact Hn. }
      assert (Ht2 : find t d2 <> None).
      { pose proof (proj2 B t [] (eq_sym (app_nil_r _))) as Sh.
        pose proof (ensured_exists _ _ Ens) as Ex. fold d1 in Ex.
        rewrite <- (exists_at_shell _ _ _ Sh) in Ex.
        destruct (exists_at_find _ _ Ex) as [n0 H0]. unfold d2. rewrite H0. discriminate. }
      assert (Apart : diverge (s ++ [c']) (t ++ [c'])).
      { apply diverge_app_l, diverge_app_r, apart. }
      unfold join. apply wp_bind. unfold stat. apply wp_query. fold d2.
      destruct (fs_stat (s ++ [c']) d2) as [e | ss] eqn:St; [exact I |].
      destruct (fs_stat_inv _ _ _ St) as [n' [Hn' Hss]].
      rewrite Hc in Hn'. injection Hn' as <-.
      assert (Back : forall w3,
        within (t ++ [c']) d2 (disk w3) /\ copied (s ++ [c']) (t ++ [c']) d2 (disk w3) ->
        within (t ++ [c']) d2 (disk w3) /\ copied (s ++ [c']) (t ++ [c']) d1 (disk w3)).
      { intros w3 [W3 C3]. split; [exact W3 |].
        apply copied_from with d2; auto.
        - intros r. symmetry. rewrite <- app_assoc. apply Src2.
        - intros r. symmetry. rewrite <- snoc_cons. apply U. }
      destruct (isDirectory (st_kind ss)) eqn:Dk.
      + eapply wp_mono; [| apply IH; [exact Apart | now rewrite disk_tick]].
        cbv beta. intros _ w3. rewrite disk_tick. apply Back.
      + eapply wp_mono; [| apply copyFile_spec; [exact Apart | now rewrite disk_tick |]].
        * cbv beta. intros _ w3. rewrite disk_tick. intros [W3 [C3 _]]. now apply Back.
        * rewrite disk_tick. fold d2. intros n0 H0. rewrite Hc in H0. injection H0 as <-.
          now rewrite <- (stat_is_dir _ _ Hss).
    - apply incl_refl.
    - apply NoDup_listing.
    - rewrite disk_tick. apply below_refl.
    - intros x _ r. now rewrite disk_tick.
    - intros c' Hc'. rewrite disk_tick. apply copied_nothing.
      rewrite find_app. fold d1. rewrite Hs. cbn. now apply listing_names. }
  apply wp_bind. apply wp_ensureDir_child; [exact HT | |].
  - intros w1 D1 Ens. apply Rest; rewrite D1; fold d; eauto using within_refl.
  - intros w1 now m es HTd Hnone D1. fold t d in Hnone, D1.
    assert (Ht1 : find t (disk w1) = Some (Dir (new_meta now) [])).
    { rewrite D1. unfold t. now rewrite (find_change_child _ _ _ _ _ _ HTd). }
    apply Rest.
    + rewrite D1. apply within_change, snoc_not_nil.
    + right. eauto.
    + intros r Hr. rewrite (find_below_None t d r Hnone).
      destruct r as [| c' r]; [congruence |].
      rewrite find_app, Ht1. cbn. apply lookup_None.
    + intros n Hn. fold d in Hnone. congruence.
Qed.

(* ================================================================== *)
(** * The initial reconciliation *)

Lemma top_copied_stable I O d0 c d1 d2 :
  top_copied I O d0 c d1 ->
  (forall r, find (O ++ c :: r) d2 = find (O ++ c :: r) d1) ->
  top_copied I O d0 c d2.
Proof.
  intros [A B] H. split.
  - intros n Hn K. apply copied_stable with d1; [now apply (A n) |].
    intros r. rewrite <- snoc_cons. apply H.
  - intros N r. rewrite H. now apply B.
Qed.

Lemma file_or_dir_dec n : {file_or_dir n} + {~ file_or_dir n}.
Proof.
  destruct n; [left; now left | left; now right | right | right];
    intros [K | K]; discriminate.
Qed.

Lemma cleaned_root_kept T S d0 d m es :
  cleaned T S d0 d -> find T d0 = Some (Dir m es) ->
  exists es', find T d = Some (Dir m es').
Proof.
  intros [[_ Sh] _] H. specialize (Sh T [] (eq_sym (app_nil_r _))).
  rewrite H in Sh. destruct (find T d) as [[]|]; cbn in Sh; try discriminate.
  subst. eauto.
Qed.

Section Run.
Variable this : NaiveSyncObj.
Let I := NaiveSync_inPath this.
Let O := NaiveSync_outPath this.
Hypothesis roots : diverge I O.

Lemma copy_phase_spec fuel w m es :
  find O (disk w) = Some (Dir m es) ->
  wp True
    (files <- readdir I ;;
     for_of files (fun file =>
       let src := join I [name file] in
       let target := join O [name file] in
       if isDirectory (d_kind file) then FsHelper_copyDirectory fuel src target
       else if isFile (d_kind file) then FsHelper_copyFile src target
       else ret tt))
    (fun _ w' =>
       (exists m es, find I (disk w) = Some (Dir m es)) /\
       below O (disk w) (disk w') /\
       forall c, top_copied I O (disk w) c (disk w')) w.
Proof.
  intros HO. set (dc := disk w).
  apply wp_bind. unfold readdir. apply wp_query. fold dc.
  destruct (fs_readdir I dc) as [e | l] eqn:R; [exact Logic.I |].
  destruct (fs_readdir_inr _ _ _ R) as [mi [ei [HI ->]]].
  apply wp_mono with
    (Q := fun _ w' => below O dc (disk w') /\ forall c, top_copied I O dc c (disk w')).
  { intros _ w' [B Ent]. split; eauto. }
  apply sibling_loop with (l0 := map dirent_of (visible ei)) (T := O) (d0 := dc)
    (E := top_copied I O dc).
  - intros c. apply top_copied_stable.
  - intros x w2 Hx B U. set (c := name x). set (d2 := disk w2).
    destruct (In_listing _ _ Hx) as [n [Hn Hk]]. fold c in Hn.
    assert (Src2 : forall q, find (I ++ q) d2 = find (I ++ q) dc).
    { intros q. apply (proj1 B). apply diverge_sym, diverge_app_l, roots. }
    assert (Hc0 : find (I ++ [c]) dc = Some n).
    { rewrite find_app, HI. exact Hn. }
    assert (Hc : find (I ++ [c]) d2 = Some n) by now rewrite Src2.
    assert (HO2 : find O d2 <> None).
    { pose proof (proj2 B O [] (eq_sym (app_nil_r _))) as Sh.
      unfold dc in Sh. rewrite HO in Sh. unfold d2.
      destruct (find O (disk w2)); [discriminate | cbn in Sh; discriminate]. }
    assert (Apart : diverge (I ++ [c]) (O ++ [c])).
    { apply diverge_app_l, diverge_app_r, roots. }
    assert (Back : file_or_dir n -> forall w3,
      within (O ++ [c]) d2 (disk w3) /\ copied (I ++ [c]) (O ++ [c]) d2 (disk w3) ->
      within (O ++ [c]) d2 (disk w3) /\ top_copied I O dc c (disk w3)).
    { intros K w3 [W3 C3]. split; [exact W3 |]. split.
      - intros n' _ _. apply copied_from with d2; auto.
        + intros r. symmetry. rewrite <- app_assoc. apply Src2.
        + intros r. symmetry. rewrite <- snoc_cons. apply U.
      - intros N. exfalso. now apply (N n Hc0). }
    unfold join. rewrite Hk.
    destruct n as [mf sf | md ed | lk | ms]; cbn [kind_of isDirectory isFile].
    + eapply wp_mono; [| apply copyFile_spec; [exact Apart | exact HO2 |]].
      * cbv beta. intros _ w3 [W3 [C3 _]]. apply Back; [now left | now split].
      * fold d2. intros n0 H0. rewrite Hc in H0. now injection H0 as <-.
    + eapply wp_mono; [| apply copyDirectory_spec; [exact Apart | exact HO2]].
      cbv beta. intros _ w3. apply Back. now right.
    + apply wp_ret. split; [apply within_refl |]. split.
      * intros n' Hn' K. rewrite Hc0 in Hn'. injection Hn' as <-.
        destruct K; discriminate.
      * intros _. exact U.
    + apply wp_ret. split; [apply within_refl |]. split.
      * intros n' Hn' K. rewrite Hc0 in Hn'. injection Hn' as <-.
        destruct K; discriminate.
      * intros _. exact U.
  - apply incl_refl.
  - apply NoDup_listing.
  - rewrite disk_tick. apply below_refl.
  - intros x _ r. now rewrite disk_tick.
  - intros c Hc. rewrite disk_tick. split.
    + intros n Hn. rewrite find_app, HI in Hn. cbn in Hn.
      rewrite (listing_names _ _ Hc) in Hn. discriminate.
    + reflexivity.
Qed.

Lemma cleanup_Ret_dir fuel p w w' :
  NaiveSync__cleanupOutPath fuel this p w = (Ret tt, w') ->
  exists m es, find p (disk w) = Some (Dir m es).
Proof.
  destruct fuel as [| fuel]; [discriminate |]. cbn [NaiveSync__cleanupOutPath].
  intros H. apply bind_inv in H as [l [w1 [R _]]].
  unfold readdir in R. rewrite query_run in R.
  destruct (fs_readdir p (disk w)) as [e | l'] eqn:E; [discriminate |].
  destruct (fs_readdir_inr _ _ _ E) as [m [es [H _]]]. eauto.
Qed.

Lemma run_phases fuel :
  NaiveSync_run fuel this = (NaiveSync__cleanupOutPath fuel this O ;; copy_phase fuel this).
Proof. reflexivity. Qed.

Lemma cleanup_Ret fuel w wc :
  NaiveSync__cleanupOutPath fuel this O w = (Ret tt, wc) ->
  cleaned O I (disk w) (disk wc).
Proof.
  intros H. pose proof (cleanup_spec this roots True fuel [] w (or_introl Logic.I)) as S.
  fold I O in S. rewrite !app_nil_r in S.
  exact (wp_Ret _ _ _ _ _ _ H S).
Qed.

Lemma run_Ret fuel w w' :
  NaiveSync_run fuel this w = (Ret tt, w') ->
  exists wc,
    NaiveSync__cleanupOutPath fuel this O w = (Ret tt, wc) /\
    copy_phase fuel this wc = (Ret tt, w') /\
    cleaned O I (disk w) (disk wc) /\
    (exists m es, find O (disk w) = Some (Dir m es)) /\
    (exists m es, find I (disk wc) = Some (Dir m es)) /\
    below O (disk wc) (disk w') /\
    forall c, top_copied I O (disk wc) c (disk w').
Proof.
  rewrite run_phases. intros H. apply bind_inv in H as [[] [wc [Hc Hp]]].
  exists wc. split; [exact Hc |]. split; [exact Hp |].
  pose proof (cleanup_Ret _ _ _ Hc) as C. split; [exact C |].
  destruct (cleanup_Ret_dir _ _ _ _ Hc) as [m [es HO]]. split; [eauto |].
  destruct (cleaned_root_kept _ _ _ _ _ _ C HO) as [es' HO'].
  pose proof (copy_phase_spec fuel wc m es' HO') as S.
  exact (wp_Ret _ _ _ _ _ _ Hp S).
Qed.

Lemma source_kept d0 dc q :
  cleaned O I d0 dc -> find (I ++ q) dc = find (I ++ q) d0.
Proof.
  intros [[H _] _]. apply H. apply diverge_sym, diverge_app_l, roots.
Qed.

Lemma source_kept_copy dc d q :
  below O dc d -> find (I ++ q) d = find (I ++ q) dc.
Proof.
  intros [H _]. apply H. apply diverge_sym, diverge_app_l, roots.
Qed.


(** Every entry of the source is present when the copy ends. *)
Lemma source_present d0 dc d Y nY :
  cleaned O I d0 dc -> (exists m es, find I dc = Some (Dir m es)) ->
  (forall c, top_copied I O dc c d) ->
  Y <> [] -> find (I ++ Y) d0 = Some nY -> file_or_dir nY ->
  exists_at (O ++ Y) d = true.
Proof.
  intros C [m [es HI]] Top HY Hn K. destruct Y as [| c r]; [congruence |].
  rewrite <- (source_kept _ _ _ C) in Hn.
  assert (Hc : exists n, find (I ++ [c]) dc = Some n /\ file_or_dir n).
  { destruct r as [| c' r].
    - eauto.
    - rewrite snoc_cons in Hn.
      destruct (find_through (I ++ [c]) dc (c' :: r)) as [m' [es' H]];
        [discriminate | congruence |].
      exists (Dir m' es'). split; [exact H | now right]. }
  destruct Hc as [n [Hc Kn]].
  destruct (Top c) as [A _]. destruct (A n Hc Kn) as [_ [_ [C3 _]]].
  rewrite snoc_cons. apply C3. rewrite <- snoc_cons. congruence.
Qed.
End Run.

(* ================================================================== *)
(** * The cleanup and the copy of [NaiveSync.run] *)

Lemma cleanup_returns this fuel w m es :
  diverge (NaiveSync_inPath this) (NaiveSync_outPath this) ->
  find (NaiveSync_outPath this) (disk w) = Some (Dir m es) ->
  (height (Dir m es) < fuel)%nat ->
  exists w',
    NaiveSync__cleanupOutPath fuel this (NaiveSync_outPath this) w = (Ret tt, w') /\
    cleaned (NaiveSync_outPath this) (NaiveSync_inPath this) (disk w) (disk w').
Proof.
  intros roots HO Hh.
  pose proof (cleanup_spec this roots False fuel [] w) as S.
  rewrite !app_nil_r in S.
  destruct (wp_total _ _ _ (S (or_intror (ex_intro _ m (ex_intro _ es (conj HO Hh))))))
    as [[] [w' [E C]]].
  eauto.
Qed.

(** C5. The two roots do not hold one another.  With the recursion bound
    above the depth of the destination, the cleanup returns, and every file
    and every directory of the destination whose mapped source path does
    not exist is deleted, with all that the directory holds. *)
Theorem cleanup_deletes_entries_without_source this fuel w m es :
  diverge (NaiveSync_inPath this) (NaiveSync_outPath this) ->
  find (NaiveSync_outPath this) (disk w) = Some (Dir m es) ->
  (height (Dir m es) < fuel)%nat ->
  exists w',
    NaiveSync__cleanupOutPath fuel this (NaiveSync_outPath this) w = (Ret tt, w') /\
    forall rel n,
      rel <> [] ->
      find (NaiveSync_outPath this ++ rel) (disk w) = Some n ->
      file_or_dir n ->
      exists_at (NaiveSync_inPath this ++ rel) (disk w) = false ->
      forall r, find ((NaiveSync_outPath this ++ rel) ++ r) (disk w') = None.
Proof.
  intros roots HO Hh.
  destruct (cleanup_returns this fuel w m es roots HO Hh) as [w' [E [_ C]]].
  exists w'. split; [exact E |].
  intros rel n Hrel Hn K Ex r. apply find_below_None.
  destruct rel as [| c rel]; [congruence |].
  destruct (C c) as [_ [_ P5]]. now apply P5 with n.
Qed.

Lemma cleanup_deletes_entries_without_source_witness :
  exists w',
    NaiveSync__cleanupOutPath 4 src_out ["out"] (process_of mismatch_disk ["src"] ["out"])
      = (Ret tt, w') /\
    find ["out"; "old"; "f"] (disk w') = None.
Proof.
  destruct (cleanup_deletes_entries_without_source src_out 4
              (process_of mismatch_disk ["src"] ["out"]) (plain 3)
              [("x", File (plain 4) "kept");
               ("old", Dir (plain 5) [("f", File (plain 6) "gone")])])
    as [w' [E H]].
  - cbn. left. discriminate.
  - reflexivity.
  - cbn. lia.
  - exists w'. split; [exact E |].
    apply (H ["old"] (Dir (plain 5) [("f", File (plain 6) "gone")])
             ltac:(discriminate) eq_refl (or_intror eq_refl) eq_refl ["f"]).
Defined.

(** C6. The two roots do not hold one another.  The cleanup keeps a file
    of the destination as it is whenever its mapped source path exists,
    whatever is there: in particular when the source path is a directory. *)
Theorem cleanup_keeps_file_with_source_path this fuel w m es :
  diverge (NaiveSync_inPath this) (NaiveSync_outPath this) ->
  find (NaiveSync_outPath this) (disk w) = Some (Dir m es) ->
  (height (Dir m es) < fuel)%nat ->
  exists w',
    NaiveSync__cleanupOutPath fuel this (NaiveSync_outPath this) w = (Ret tt, w') /\
    (forall rel mf s,
       find (NaiveSync_outPath this ++ rel) (disk w) = Some (File mf s) ->
       exists_at (NaiveSync_inPath this ++ rel) (disk w) = true ->
       find (NaiveSync_outPath this ++ rel) (disk w') = Some (File mf s)) /\
    (forall rel mf s md ed,
       find (NaiveSync_outPath this ++ rel) (disk w) = Some (File mf s) ->
       find (NaiveSync_inPath this ++ rel) (disk w) = Some (Dir md ed) ->
       find (NaiveSync_outPath this ++ rel) (disk w') = Some (File mf s)).
Proof.
  intros roots HO Hh.
  destruct (cleanup_returns this fuel w m es roots HO Hh) as [w' [E [_ C]]].
  exists w'. split; [exact E |].
  assert (Keep : forall rel mf s,
    find (NaiveSync_outPath this ++ rel) (disk w) = Some (File mf s) ->
    exists_at (NaiveSync_inPath this ++ rel) (disk w) = true ->
    find (NaiveSync_outPath this ++ rel) (disk w') = Some (File mf s)).
  { intros rel mf s Hn Ex. destruct rel as [| c rel].
    - rewrite app_nil_r in Hn. congruence.
    - destruct (C c) as [_ [P4 _]]. apply same_shell_not_dir; [| reflexivity].
      now apply P4. }
  split; [exact Keep |].
  intros rel mf s md ed Hn Hs. apply Keep; [exact Hn |].
  unfold exists_at, fs_stat. now rewrite Hs.
Qed.

Lemma cleanup_keeps_file_with_source_path_witness :
  exists w',
    NaiveSync__cleanupOutPath 4 src_out ["out"] (process_of mismatch_disk ["src"] ["out"])
      = (Ret tt, w') /\
    find ["out"; "x"] (disk w') = Some (File (plain 4) "kept").
Proof.
  destruct (cleanup_keeps_file_with_source_path src_out 4
              (process_of mismatch_disk ["src"] ["out"]) (plain 3)
              [("x", File (plain 4) "kept");
               ("old", Dir (plain 5) [("f", File (plain 6) "gone")])])
    as [w' [E [_ H]]].
  - cbn. left. discriminate.
  - reflexivity.
  - cbn. lia.
  - exists w'. split; [exact E |].
    apply (H ["x"] (plain 4) "kept" (plain 2) [] eq_refl eq_refl).
Defined.



(* ================================================================== *)
(** * Entries that are neither files nor directories *)

(** C7 (where the code departs from it).  An entry of the source root that
    is neither a file nor a directory is passed over by [run].  One level
    down, [copyDirectory] hands whatever is not a directory to [copyFile]:
    a link to a file is copied to the destination as a file, and a socket
    makes the run throw. *)
Theorem copyDirectory_copies_entries_of_other_types :
  (let (r, w') := NaiveSync_run 3 src_out (process_of top_level_others_disk ["src"] ["out"]) in
   r = Ret tt /\ find ["out"] (disk w') = Some (Dir (plain 3) [])) /\
  (let (r, w') := NaiveSync_run 3 src_out (process_of linked_disk ["src"] ["out"]) in
   r = Ret tt /\
   find ["out"; "sub"; "link"] (disk w') = Some (File (plain 7000000) "data")) /\
  fst (NaiveSync_run 3 src_out (process_of socket_disk ["src"] ["out"])) = Throw ENXIO.
Proof. vm_compute. repeat split. Qed.

(* ================================================================== *)
(** * A second reconciliation changes nothing *)



(** ** A rewrite made twice *)

Lemma bind_entry_twice {A} c (a b : A) es :
  bind_entry c a (bind_entry c b es) = bind_entry c a es.
Proof.
  induction es as [| [c' v] es IH]; cbn [bind_entry].
  - now rewrite String.eqb_refl.
  - destruct (String.eqb c c') eqn:E; cbn [bind_entry].
    + now rewrite String.eqb_refl.
    + now rewrite E, IH.
Qed.

Lemma unbind_bind_entry {A} c (b : A) es :
  unbind c (bind_entry c b es) = unbind c es.
Proof.
  unfold unbind. induction es as [| [c' v] es IH]; cbn [bind_entry filter fst].
  - now rewrite String.eqb_refl.
  - destruct (String.eqb c c') eqn:E; cbn [filter fst].
    + now rewrite String.eqb_refl.
    + rewrite ?E. cbn [negb]. now rewrite IH.
Qed.

Lemma unbind_absent {A} c (es : list (string * A)) :
  assoc c es = None -> unbind c es = es.
Proof.
  unfold unbind. induction es as [| [c' v] es IH]; cbn [assoc filter fst]; auto.
  destruct (String.eqb c c'); [discriminate |]. intros H. cbn. now rewrite IH.
Qed.

Lemma alter_const_None b p o : alter (fun _ => Some b) p o = None -> o = None.
Proof.
  destruct p as [| c p]; cbn [alter]; [discriminate |].
  destruct o as [[]|]; auto; discriminate.
Qed.

Lemma alter_twice a b p : forall o,
  alter (fun _ => Some a) p (alter (fun _ => Some b) p o) = alter (fun _ => Some a) p o.
Proof.
  induction p as [| c p IH]; intros o; cbn [alter]; [reflexivity |].
  destruct o as [[m s | m es | l | m] |]; cbn [alter]; try reflexivity.
  f_equal. f_equal.
  set (k := alter (fun _ => Some a) p). set (h := alter (fun _ => Some b) p).
  assert (K : forall x, k (h x) = k x) by (intros x; apply IH).
  unfold assoc_alter at 1 3. rewrite assoc_alter_same, K.
  unfold assoc_alter.
  destruct (h (assoc c es)) as [v |] eqn:H.
  - destruct (k (assoc c es)).
    + apply bind_entry_twice.
    + apply unbind_bind_entry.
  - apply alter_const_None in H. rewrite H.
    now rewrite !(unbind_absent _ _ H).
Qed.

Lemma change_twice a b p d :
  p <> [] ->
  change (fun _ => Some a) p (change (fun _ => Some b) p d) = change (fun _ => Some a) p d.
Proof.
  intros Hp. unfold change.
  destruct (alter_Some (fun _ => Some b) p d Hp) as [d' E]. rewrite E.
  destruct (alter_Some (fun _ => Some a) p d Hp) as [d2 E2]. rewrite E2.
  assert (H : alter (fun _ => Some a) p (Some d') = Some d2).
  { now rewrite <- E, alter_twice. }
  now rewrite H.
Qed.

Lemma change_same n p d : find p d = Some n -> change (fun _ => Some n) p d = d.
Proof.
  intros H. unfold change. now rewrite alter_id.
Qed.

(** ** The copy of a file that is settled *)

Lemma stamped_copy_stat n ss n' :
  stamped_copy n ss n' -> exists ts, stat_node n' = Some ts.
Proof. intros [src [_ [-> | ->]]]; cbn; eauto. Qed.

(** The copy and the stamp, onto the stamped copy of the source: the disk
    is left as it was.  The copy is refused when the target cannot be
    written, which is the case when the source cannot. *)
Lemma copy_and_stamp_again s T c d n ss n' :
  diverge s (T ++ [c]) ->
  find s d = Some n -> stat_node n = Some ss ->
  find (T ++ [c]) d = Some n' -> stamped_copy n ss n' ->
  forall w, disk w = d ->
  exists r w',
    (copyFile s (T ++ [c]) ;;
     sourceInfo <- stat s ;;
     utimes (T ++ [c]) (atime sourceInfo) (mtime sourceInfo)) w = (r, w') /\
    disk w' = d /\
    ((forall src, readable_file n = inr src -> writable (fst src) = true) -> r = Ret tt).
Proof.
  intros apart Hs Hss Ht [src [Hr St]] w Hw. subst d.
  set (t := T ++ [c]) in *.
  destruct (lookup_parent T c _ _ Ht) as [m [es HT]]. fold (find T (disk w)) in HT.
  set (x := set_times (atime ss) (mtime ss) (fst src)) in *.
  assert (Wx : writable x = writable (fst src)) by reflexivity.
  assert (C : forall r, written (clock w + 1) src (find t (disk w)) = r ->
              fs_copyFile s t (clock w + 1) (disk w) =
              match r with
              | inr n1 => inr (change (fun _ => Some n1) t (disk w))
              | inl e => inl e
              end).
  { intros r <-. unfold fs_copyFile. rewrite Hs, Hr.
    replace (dirname t) with T by (symmetry; apply removelast_last).
    rewrite HT. unfold t.
    destruct (T ++ [c]) eqn:E; [now apply snoc_not_nil in E | reflexivity]. }
  destruct (writable (fst src)) eqn:Wr.
  - assert (Hw : exists n1, written (clock w + 1) src (find t (disk w)) = inr n1 /\
                            touched (atime ss) (mtime ss) n1 = Some n').
    { rewrite Ht. destruct St as [-> | ->]; cbn [written]; rewrite Wx;
        eexists; (split; [reflexivity |]); reflexivity. }
    destruct Hw as [n1 [Hw Hn1]]. specialize (C _ Hw). cbv iota in C.
    set (d2 := change (fun _ => Some n1) t (disk w)) in *.
    assert (W2 : within t (disk w) d2) by (apply within_change, snoc_not_nil).
    assert (Hs2 : find s d2 = Some n).
    { rewrite (proj1 W2); [exact Hs | now apply diverge_sym]. }
    assert (Ht2 : find t d2 = Some n1).
    { unfold d2, t. now rewrite (find_change_child _ _ _ _ _ _ HT). }
    unfold bind at 1. unfold copyFile. rewrite command_run, C.
    unfold bind at 1. rewrite stat_run, disk_set_disk.
    rewrite (fs_stat_find _ _ _ _ Hs2 Hss).
    unfold utimes. rewrite command_run, disk_tick, disk_set_disk.
    unfold fs_utimes. rewrite Ht2, Hn1.
    eexists. eexists. split; [reflexivity |]. rewrite disk_set_disk. split; [| reflexivity].
    unfold d2. rewrite change_twice by apply snoc_not_nil.
    now apply change_same.
  - assert (Hw : written (clock w + 1) src (find t (disk w)) = inl EACCES).
    { rewrite Ht. destruct St as [-> | ->]; cbn [written]; now rewrite Wx. }
    specialize (C _ Hw). cbv iota in C.
    unfold bind at 1. unfold copyFile. rewrite command_run, C.
    eexists. eexists. split; [reflexivity |]. split; [apply disk_tick |].
    intros H. specialize (H src Hr). congruence.
Qed.

(** [FsHelper.copyFile] onto a target that is settled leaves the disk as it
    was: the oracle finds the target up to date, or the copy and the stamp
    are made again, to the same effect, or the copy is refused. *)
Lemma copyFile_still s T c d n ss :
  diverge s (T ++ [c]) ->
  ensured T d ->
  find s d = Some n -> stat_node n = Some ss ->
  settled n ss (T ++ [c]) d ->
  forall w, disk w = d ->
  exists r w', FsHelper_copyFile s (T ++ [c]) w = (r, w') /\ disk w' = d /\
    ((forall src, readable_file n = inr src -> writable (fst src) = true) -> r = Ret tt).
Proof.
  intros apart Ens Hs Hss Stl w Hw. subst d.
  assert (Ex : exists ts, fs_stat (T ++ [c]) (disk w) = inr ts).
  { destruct Stl as [[ts [H _]] | [n' [H St]]]; [eauto |].
    destruct (stamped_copy_stat _ _ _ St) as [ts Hts].
    exists ts. now apply fs_stat_find with n'. }
  destruct Ex as [ts Ht].
  unfold FsHelper_copyFile.
  replace (dirname (T ++ [c])) with T by (symmetry; apply removelast_last).
  destruct (ensureDir_ensured _ _ Ens) as [w1 [E1 D1]].
  rewrite (bind_Ret _ _ _ _ _ E1).
  rewrite (bind_Ret _ _ _ _ _ (pathExists_run (T ++ [c]) w1)).
  rewrite D1, (fs_stat_inr _ _ _ Ht).
  unfold bind at 1. rewrite stat_run, disk_tick, D1, (fs_stat_find _ _ _ _ Hs Hss).
  unfold bind at 1. rewrite stat_run, !disk_tick, D1, Ht.
  destruct (strict_equal (Math_abs (Math_round (mtimeMs ss - mtimeMs ts))) (Number_of 0))
    eqn:Delta.
  - eexists. eexists. split; [reflexivity |]. now rewrite !disk_tick.
  - destruct Stl as [[ts' [H Up]] | [n' [H St]]].
    + rewrite Ht in H. injection H as <-. congruence.
    + apply copy_and_stamp_again with ss n'; auto.
      now rewrite !disk_tick.
Qed.






Section Quiet.
Variable this : NaiveSyncObj.
Let I := NaiveSync_inPath this.
Let O := NaiveSync_outPath this.
Hypothesis roots : diverge I O.




(** What the first reconciliation leaves. *)
Lemma old_entry_has_source d0 dc r n :
  cleaned O I d0 dc -> r <> [] ->
  find (O ++ r) dc = Some n -> file_or_dir n ->
  exists_at (I ++ r) dc = true.
Proof.
  intros C Hr Hn K. destruct r as [| c r]; [congruence |].
  rewrite (exists_at_agree _ _ _ (source_kept this roots _ _ _ C)).
  destruct C as [_ C]. destruct (C c) as [P3 [_ P5]].
  destruct (P3 r n Hn) as [n0 [H0 Sh]].
  destruct (exists_at (I ++ c :: r) d0) eqn:Ex; auto.
  rewrite (P5 r n0 H0 Ex) in Hn; [discriminate |].
  apply same_shell_kind in Sh. cbn in Sh. injection Sh as Sh.
  unfold file_or_dir in *. now rewrite <- Sh.
Qed.

Lemma reconciled_pruned d0 dc d :
  cleaned O I d0 dc -> below O dc d -> (forall c, top_copied I O dc c d) ->
  pruned I O d.
Proof.
  intros C B Top r n Hr Hn K. destruct r as [| c r]; [congruence |].
  rewrite (exists_at_agree _ _ _ (source_kept_copy this roots _ _ _ B)).
  assert (Old : find (O ++ c :: r) dc = Some n -> exists_at (I ++ c :: r) dc = true).
  { intros H. now apply old_entry_has_source with d0 n. }
  assert (Old' : forall n0, find (O ++ c :: r) dc = Some n0 -> kind_of n = kind_of n0 ->
                       exists_at (I ++ c :: r) dc = true).
  { intros n0 H Hk. apply old_entry_has_source with d0 n0; auto.
    unfold file_or_dir in *. now rewrite <- Hk. }
  destruct (Top c) as [A U].
  destruct (find (I ++ [c]) dc) as [ns |] eqn:Hs.
  - destruct (file_or_dir_dec ns) as [Ks | Ks].
    + destruct (A ns eq_refl Ks) as [C1 _]. rewrite snoc_cons in Hn.
      destruct (C1 r n Hn) as [[n0 [H0 Hk]] | H0].
      * rewrite <- snoc_cons in H0. eauto.
      * now rewrite <- snoc_cons in H0.
    + apply Old. rewrite <- U; auto. intros n0 [= <-]. exact Ks.
  - apply Old. rewrite <- U; auto. discriminate.
Qed.

End Quiet.

Lemma below_root_kept T d0 d m es :
  below T d0 d -> find T d0 = Some (Dir m es) -> exists es', find T d = Some (Dir m es').
Proof.
  intros [_ Sh] H. specialize (Sh T [] (eq_sym (app_nil_r _))).
  rewrite H in Sh. destruct (find T d) as [[]|]; cbn in Sh; try discriminate.
  subst. eauto.
Qed.




(* ================================================================== *)
(** * The engine and the interrupt *)

Lemma same_control_refl w : same_control w w.
Proof. repeat split. Qed.

Lemma same_control_trans a b c : same_control a b -> same_control b c -> same_control a c.
Proof. intros [A1 [A2 A3]] [B1 [B2 B3]]. repeat split; congruence. Qed.

Lemma same_control_tick a b : same_control a b -> same_control (tick a) (tick b).
Proof.
  intros [A1 [A2 A3]]. unfold same_control, tick. rewrite A1, A2, A3.
  destruct (sigint b) as [[| k] |]; [destruct (sigint_listener b) | |]; cbn; auto.
Qed.

Lemma same_control_ticks n a b : same_control a b -> same_control (ticks n a) (ticks n b).
Proof.
  revert a b. induction n as [| n IH]; intros a b H; cbn; auto.
  apply IH. now apply same_control_tick.
Qed.

Lemma same_control_set_disk d w : same_control (set_disk d w) w.
Proof. repeat split. Qed.

Lemma advanced_refl w : advanced w w.
Proof. exists 0%nat. apply same_control_refl. Qed.

Lemma advanced_tick w : advanced w (tick w).
Proof. exists 1%nat. apply same_control_refl. Qed.

Lemma advanced_trans a b c : advanced a b -> advanced b c -> advanced a c.
Proof.
  intros [n Hn] [k Hk]. exists (n + k)%nat. rewrite <- ticks_add.
  eapply same_control_trans; [exact Hk |]. now apply same_control_ticks.
Qed.

Lemma same_fs_tick a b : same_fs a b -> same_fs (tick a) (tick b).
Proof. intros [D C]. split; [now rewrite !disk_tick | now rewrite !clock_tick, C]. Qed.

Lemma fs_only_ret {A} (a : A) : fs_only (ret a).
Proof. split; [intros w; apply advanced_refl | intros w1 w2 H; auto]. Qed.

Lemma fs_only_throw {A} e : fs_only (@throw A e).
Proof. split; [intros w; apply advanced_refl | intros w1 w2 H; auto]. Qed.

Lemma fs_only_starved {A} : fs_only (@starved A).
Proof. split; [intros w; apply advanced_refl | intros w1 w2 H; auto]. Qed.

Lemma fs_only_bind {A B} (m : M A) (k : A -> M B) :
  fs_only m -> (forall a, fs_only (k a)) -> fs_only (bind m k).
Proof.
  intros [Am Nm] Hk. split.
  - intros w. unfold bind. specialize (Am w).
    destruct (m w) as [[a | e |] w1]; cbn in *; auto.
    eapply advanced_trans; [exact Am | apply (proj1 (Hk a))].
  - intros w1 w2 H. unfold bind. destruct (Nm w1 w2 H) as [F S].
    destruct (m w1) as [[a1 | e1 |] w1'], (m w2) as [[a2 | e2 |] w2'];
      cbn in *; try discriminate; try (split; [congruence | assumption]).
    injection F as <-. now apply (proj2 (Hk a1)).
Qed.

Lemma fs_only_try_catch {A} (m : M A) (h : errno -> M A) :
  fs_only m -> (forall e, fs_only (h e)) -> fs_only (try_catch m h).
Proof.
  intros [Am Nm] Hh. split.
  - intros w. unfold try_catch. specialize (Am w).
    destruct (m w) as [[a | e |] w1]; cbn in *; auto.
    eapply advanced_trans; [exact Am | apply (proj1 (Hh e))].
  - intros w1 w2 H. unfold try_catch. destruct (Nm w1 w2 H) as [F S].
    destruct (m w1) as [[a1 | e1 |] w1'], (m w2) as [[a2 | e2 |] w2'];
      cbn in *; try discriminate; try (split; [congruence | assumption]).
    injection F as <-. now apply (proj2 (Hh e1)).
Qed.

Lemma fs_only_for_of {A} (l : list A) (body : A -> M unit) :
  (forall x, fs_only (body x)) -> fs_only (for_of l body).
Proof.
  intros Hb. induction l as [| x l IH]; cbn [for_of].
  - apply fs_only_ret.
  - apply fs_only_bind; auto.
Qed.

Lemma fs_only_query {A} (op : node -> errno + A) : fs_only (query op).
Proof.
  split.
  - intros w. rewrite query_run. apply advanced_tick.
  - intros w1 w2 H. rewrite !query_run. cbn. rewrite (proj1 H).
    split; [reflexivity | now apply same_fs_tick].
Qed.

Lemma fs_only_command op : fs_only (command op).
Proof.
  split.
  - intros w. rewrite command_run.
    destruct (op (clock w + 1) (disk w)); cbn; [apply advanced_tick |].
    exists 1%nat. apply same_control_set_disk.
  - intros w1 w2 H. rewrite !command_run. destruct H as [D C]. rewrite D, C.
    destruct (op (clock w2 + 1) (disk w2)); cbn.
    + split; [reflexivity | apply same_fs_tick; now split].
    + split; [reflexivity |]. split; [reflexivity |]. cbn.
      now rewrite !clock_tick, C.
Qed.

Ltac fs_only_step :=
  match goal with
  | |- fs_only (bind _ _) => apply fs_only_bind; [| intros ?]
  | |- fs_only (try_catch _ _) => apply fs_only_try_catch; [| intros ?]
  | |- fs_only (for_of _ _) => apply fs_only_for_of; intros ?
  | |- fs_only (ret _) => apply fs_only_ret
  | |- fs_only (throw _) => apply fs_only_throw
  | |- fs_only starved => apply fs_only_starved
  | |- fs_only (query _) => apply fs_only_query
  | |- fs_only (command _) => apply fs_only_command
  | |- fs_only (if ?b then _ else _) => destruct b
  | |- fs_only (let _ := _ in _) => cbv zeta
  end.

Ltac fs_only_auto := repeat (fs_only_step || assumption).

Lemma fs_only_pathExists p : fs_only (FsHelper_pathExists p).
Proof. unfold FsHelper_pathExists, stat. fs_only_auto. Qed.

Lemma fs_only_canRead p : fs_only (FsHelper_canRead p).
Proof. unfold FsHelper_canRead, access. pose proof fs_only_pathExists. fs_only_auto; auto. Qed.

Lemma fs_only_canWrite p : fs_only (FsHelper_canWrite p).
Proof. unfold FsHelper_canWrite, access. pose proof fs_only_pathExists. fs_only_auto; auto. Qed.

Lemma fs_only_ensureDir p : fs_only (FsHelper_ensureDir p).
Proof.
  unfold FsHelper_ensureDir, mkdir_recursive. pose proof fs_only_canRead.
  fs_only_auto; auto.
Qed.

Lemma fs_only_copyFile s t : fs_only (FsHelper_copyFile s t).
Proof.
  unfold FsHelper_copyFile, copyFile, utimes, stat.
  pose proof fs_only_ensureDir. pose proof fs_only_pathExists.
  fs_only_auto; auto.
Qed.

Lemma fs_only_copyDirectory fuel : forall s t, fs_only (FsHelper_copyDirectory fuel s t).
Proof.
  induction fuel as [| fuel IH]; intros s t; cbn [FsHelper_copyDirectory].
  - apply fs_only_starved.
  - unfold readdir, stat.
    pose proof fs_only_ensureDir. pose proof fs_only_copyFile.
    fs_only_auto; auto.
Qed.

Lemma fs_only_cleanup fuel : forall this p, fs_only (NaiveSync__cleanupOutPath fuel this p).
Proof.
  induction fuel as [| fuel IH]; intros this p; cbn [NaiveSync__cleanupOutPath].
  - apply fs_only_starved.
  - unfold readdir, rm, rm_recursive. pose proof fs_only_pathExists.
    fs_only_auto; auto.
Qed.

Lemma fs_only_run fuel this : fs_only (NaiveSync_run fuel this).
Proof.
  unfold NaiveSync_run, readdir.
  pose proof fs_only_cleanup. pose proof fs_only_copyDirectory. pose proof fs_only_copyFile.
  fs_only_auto; auto.
Qed.

(** ** The marker of NaiveSync *)

Lemma for_of_ext {A} (l : list A) (b1 b2 : A -> M unit) :
  (forall x w, b1 x w = b2 x w) -> forall w, for_of l b1 w = for_of l b2 w.
Proof.
  intros H. induction l as [| x l IH]; intros w; cbn [for_of]; auto.
  unfold bind. rewrite H. destruct (b2 x w) as [[[] | e |] w1]; auto.
Qed.

Lemma cleanup_ignores_marker fuel : forall this p w,
  NaiveSync__cleanupOutPath fuel (NaiveSync_abort this) p w =
  NaiveSync__cleanupOutPath fuel this p w.
Proof.
  induction fuel as [| fuel IH]; intros this p w; cbn [NaiveSync__cleanupOutPath]; auto.
  cbn [NaiveSync_abort NaiveSync_inPath NaiveSync_outPath].
  unfold bind at 1 3. destruct (readdir p w) as [[l | e |] w1]; auto.
  apply for_of_ext. intros x w2. unfold bind.
  destruct (FsHelper_pathExists _ w2) as [[b | e |] w3]; auto.
  destruct (b && isFile (d_kind x)); auto.
  destruct (b && isDirectory (d_kind x)); auto.
Qed.

Lemma run_ignores_marker fuel this w :
  NaiveSync_run fuel (NaiveSync_abort this) w = NaiveSync_run fuel this w.
Proof.
  unfold NaiveSync_run. cbn [NaiveSync_abort NaiveSync_inPath NaiveSync_outPath].
  unfold bind at 1 3. now rewrite cleanup_ignores_marker.
Qed.

(** ** What the suspension points do to the Sync object *)

Lemma through_ticks (P : process -> Prop) :
  (forall w, P w -> P (tick w)) ->
  (forall a b, same_control a b -> P b -> P a) ->
  forall w w', advanced w w' -> P w -> P w'.
Proof.
  intros St Ct w w' [n H] Pw. apply (Ct _ _ H). clear H.
  revert w Pw. induction n as [| n IH]; intros w Pw; cbn; auto.
Qed.

Lemma active_None_advanced w w' :
  advanced w w' -> Sync_active (sync w) = None -> Sync_active (sync w') = None.
Proof.
  apply (through_ticks (fun w => Sync_active (sync w) = None)).
  - intros w0 H. unfold tick.
    destruct (sigint w0) as [[| k] |]; cbn; auto.
    destruct (sigint_listener w0); cbn; auto. now rewrite H.
  - intros a b [_ [_ E]]. now rewrite E.
Qed.

Lemma aborted_advanced w w' :
  advanced w w' -> Sync_aborted (sync w) = true -> Sync_aborted (sync w') = true.
Proof.
  apply (through_ticks (fun w => Sync_aborted (sync w) = true)).
  - intros w0 H. unfold tick.
    destruct (sigint w0) as [[| k] |]; cbn; auto.
    destruct (sigint_listener w0); cbn; auto.
  - intros a b [_ [_ E]]. now rewrite E.
Qed.

(** An interrupt is pending, or it has set the marker. *)
Lemma delivered_advanced w w' :
  advanced w w' ->
  sigint w <> None \/ Sync_aborted (sync w) = true ->
  sigint w' <> None \/ Sync_aborted (sync w') = true.
Proof.
  apply (through_ticks (fun w => sigint w <> None \/ Sync_aborted (sync w) = true)).
  - intros w0 H. unfold tick.
    destruct (sigint w0) as [[| k] |]; cbn.
    + destruct (sigint_listener w0); cbn; [now right | left; discriminate].
    + left. discriminate.
    + destruct H as [H | H]; [congruence | now right].
  - intros a b [E1 [_ E2]]. now rewrite E1, E2.
Qed.

Lemma fs_only_assertSource p : fs_only (Sync_assertSource p).
Proof.
  unfold Sync_assertSource, Validators_isDirectory, Validators_canRead, stat, access.
  fs_only_auto.
Qed.

Lemma fs_only_assertTarget p : fs_only (Sync_assertTarget p).
Proof.
  unfold Sync_assertTarget, Sync_createTargetPath, Validators_isPath,
    Validators_isDirectory, Validators_canWrite, mkdir_recursive, stat, access.
  fs_only_auto.
Qed.

Lemma emit_without_watcher fuel ev w :
  Sync_active (sync w) = None -> emit fuel ev w = (Ret tt, w).
Proof. intros H. unfold emit, bind, get_sync. now rewrite H. Qed.

(** The course of [Sync.run]: the process at the moment the initial
    reconciliation has returned, and what follows. *)
Lemma Sync_run_Ret fuel w w' :
  Sync_run fuel w = (Ret tt, w') ->
  exists w4 w5,
    advanced w w4 /\
    NaiveSync_run fuel
      (NaiveSync_new (Sync_inArg (sync w)) (Sync_outArg (sync w)))
      (set_sync (set_naive (Some (NaiveSync_new (Sync_inArg (sync w)) (Sync_outArg (sync w))))
                   (sync w4))
         {| disk := disk w4; clock := clock w4; sigint := sigint w4;
            sigint_listener := true; sync := sync w4 |}) = (Ret tt, w5) /\
    if Sync_aborted (sync w5) then w' = set_sync (set_naive None (sync w5)) w5
    else
      w' = set_sync
             (set_active
                (Some (ActiveSync_run
                         (ActiveSync_new (Sync_inArg (sync w)) (Sync_outArg (sync w)))))
                (set_naive None (sync w5))) w5.
Proof.
  unfold Sync_run. intros H.
  apply bind_inv in H as [this [w0 [H0 H]]]. unfold get_sync in H0.
  injection H0 as <- <-. unfold Sync_normalizePath in H.
  apply bind_inv in H as [[] [w1 [H1 H]]].
  apply bind_inv in H as [[] [w2 [H2 H]]].
  apply bind_inv in H as [[] [w3 [H3 H]]]. unfold process_once_SIGINT in H3.
  injection H3 as <-.
  apply bind_inv in H as [[] [w4 [H4 H]]]. unfold modify_sync in H4.
  injection H4 as <-.
  apply bind_inv in H as [[] [w5 [H5 H]]].
  apply bind_inv in H as [[] [w6 [H6 H]]]. unfold modify_sync in H6.
  injection H6 as <-.
  apply bind_inv in H as [this' [w7 [H7 H]]]. unfold get_sync in H7.
  injection H7 as <- <-.
  exists w2, w5. split; [| split].
  - eapply advanced_trans.
    + pose proof (proj1 (fs_only_assertSource (Sync_inArg (sync w))) w) as A.
      rewrite H1 in A. exact A.
    + pose proof (proj1 (fs_only_assertTarget (Sync_outArg (sync w))) w1) as A.
      rewrite H2 in A. exact A.
  - exact H5.
  - cbn [sync set_sync Sync_aborted set_naive] in H.
    destruct (Sync_aborted (sync w5)).
    + unfold ret in H. now injection H as <-.
    + apply bind_inv in H as [[] [w8 [H8 H]]]. unfold modify_sync in H8, H.
      injection H8 as <-. injection H as <-. reflexivity.
Qed.

(* ================================================================== *)
(** * Cancellation *)

(** C9. The initial engine never looks at the abort marker: [run] does the
    same with the marker set, and on two processes that differ in the
    interrupt or in the Sync object it returns the same and leaves the same
    disk.  In [Sync.run], when the marker is set before the initial
    reconciliation returns (set beforehand, or by an interrupt delivered
    by then), no watcher is made, and no event is handled afterwards;
    otherwise the watcher is made and started. *)
Theorem abort_marker_only_gates_the_watcher :
  (forall fuel this w,
     NaiveSync_run fuel (NaiveSync_abort this) w = NaiveSync_run fuel this w) /\
  (forall fuel this w1 w2,
     disk w1 = disk w2 -> clock w1 = clock w2 ->
     fst (NaiveSync_run fuel this w1) = fst (NaiveSync_run fuel this w2) /\
     disk (snd (NaiveSync_run fuel this w1)) = disk (snd (NaiveSync_run fuel this w2))) /\
  (forall fuel w w',
     Sync_active (sync w) = None ->
     Sync_run fuel w = (Ret tt, w') ->
     (Sync_aborted (sync w) = true \/ (sigint w <> None /\ sigint w' = None) ->
      Sync_aborted (sync w') = true) /\
     (Sync_aborted (sync w') = true ->
      Sync_active (sync w') = None /\
      forall fuel' ev, emit fuel' ev w' = (Ret tt, w')) /\
     (Sync_aborted (sync w') = false ->
      Sync_active (sync w') =
      Some (ActiveSync_run (ActiveSync_new (Sync_inArg (sync w)) (Sync_outArg (sync w)))))).
Proof.
  split; [exact run_ignores_marker |]. split.
  - intros fuel this w1 w2 D C.
    destruct (proj2 (fs_only_run fuel this) w1 w2 (conj D C)) as [F [D' _]]. auto.
  - intros fuel w w' Hact H.
    destruct (Sync_run_Ret _ _ _ H) as [w4 [w5 [A4 [Hrun Hend]]]].
    set (naive := NaiveSync_new (Sync_inArg (sync w)) (Sync_outArg (sync w))) in *.
    set (wA := set_sync (set_naive (Some naive) (sync w4))
                 {| disk := disk w4; clock := clock w4; sigint := sigint w4;
                    sigint_listener := true; sync := sync w4 |}) in *.
    assert (A5 : advanced wA w5).
    { pose proof (proj1 (fs_only_run fuel naive) wA) as A. now rewrite Hrun in A. }
    assert (Act5 : Sync_active (sync w5) = None).
    { apply (active_None_advanced wA w5 A5). cbn.
      now apply (active_None_advanced w w4 A4). }
    assert (Ab : Sync_aborted (sync w') = Sync_aborted (sync w5)).
    { destruct (Sync_aborted (sync w5)) eqn:E; subst w'; cbn; exact E. }
    split; [| split].
    + rewrite Ab. intros [H0 | [H0 H1]].
      * apply (aborted_advanced wA w5 A5). cbn. now apply (aborted_advanced w w4 A4).
      * assert (S5 : sigint w' = sigint w5).
        { destruct (Sync_aborted (sync w5)); subst w'; reflexivity. }
        destruct (delivered_advanced wA w5 A5) as [D | D]; auto; [| congruence].
        destruct (delivered_advanced w w4 A4 (or_introl H0)) as [D | D];
          [now left | now right].
    + rewrite Ab. intros E. rewrite E in Hend. subst w'.
      split; [exact Act5 |]. intros fuel' ev.
      apply emit_without_watcher. exact Act5.
    + rewrite Ab. intros E. rewrite E in Hend. subst w'. reflexivity.
Qed.

Lemma abort_marker_only_gates_the_watcher_witness :
  let w' := snd (Sync_run 3 interrupted) in
  Sync_aborted (sync w') = true /\
  Sync_active (sync w') = None /\
  emit 3 (added ["src"; "c.txt"]) w' = (Ret tt, w').
Proof.
  intros w'.
  destruct (proj2 (proj2 abort_marker_only_gates_the_watcher) 3%nat interrupted w'
              eq_refl ltac:(vm_compute; reflexivity)) as [Ha [Hb _]].
  assert (Ab : Sync_aborted (sync w') = true).
  { apply Ha. right. split; [discriminate | vm_compute; reflexivity]. }
  split; [exact Ab |]. destruct (Hb Ab) as [Hn He]. split; [exact Hn | apply He].
Defined.

(** The interrupt arrives during the initial reconciliation of [sample];
    the destination is the one the undisturbed run leaves. *)
Example interrupted_run_leaves_the_same_disk :
  disk (snd (Sync_run 3 interrupted)) = disk (snd (Sync_run 3 sample)) /\
  Sync_aborted (sync (snd (Sync_run 3 interrupted))) = true /\
  Sync_aborted (sync (snd (Sync_run 3 sample))) = false.
Proof. vm_compute. repeat split. Qed.

(* ================================================================== *)
(** * The scenarios of the specification, run on the sample *)

(** The initial reconciliation copies [a.txt] and [sub/b.txt] with their
    content and their [Date]s, and deletes [stale.txt]. *)
Example scenario_initial_sync :
  let d := disk (snd (NaiveSync_run 3 src_out sample)) in
  find ["out"; "a.txt"] d =
    Some (File {| atimeNs := 5000000; mtimeNs := 7000000;
                  readable := true; writable := true |} "1") /\
  find ["out"; "sub"; "b.txt"] d = Some (File (plain 9000000) "2") /\
  find ["out"; "stale.txt"] d = None /\
  match fs_stat ["out"; "a.txt"] d, fs_stat ["src"; "a.txt"] d with
  | inr t, inr s => atime t = atime s /\ mtime t = mtime s
  | _, _ => False
  end.
Proof. vm_compute. repeat split. Qed.

(** After [Sync.run] the watcher listens; after [ready] the object is ready. *)
Example scenario_watching :
  option_map ActiveSync_ready (Sync_active (sync (snd (Sync_run 3 sample)))) = Some false /\
  option_map ActiveSync_ready (Sync_active (sync live)) = Some true.
Proof. vm_compute. split; reflexivity. Qed.

(** A file made in the source after [ready] is copied. *)
Example scenario_live_add :
  let w := user_writes ["src"; "c.txt"] "3" live in
  let w' := snd (emit 3 (added ["src"; "c.txt"]) w) in
  fst (emit 3 (added ["src"; "c.txt"]) w) = Ret tt /\
  option_map kind_of (find ["out"; "c.txt"] (disk w')) = Some KFile /\
  option_map stat_node (find ["out"; "c.txt"] (disk w')) =
  option_map stat_node (find ["src"; "c.txt"] (disk w')).
Proof. vm_compute. repeat split. Qed.

(** A directory removed from the source after [ready] is removed from the
    destination with all it holds. *)
Example scenario_live_remove_directory :
  let w := user_removes ["src"; "sub"] live in
  let w' := snd (emit 3 (removedDirectory ["src"; "sub"]) w) in
  find ["out"; "sub"; "b.txt"] (disk w) = Some (File (plain 9000000) "2") /\
  find ["out"; "sub"] (disk w') = None /\
  find ["out"; "sub"; "b.txt"] (disk w') = None /\
  find ["out"; "a.txt"] (disk w') = find ["out"; "a.txt"] (disk w).
Proof. vm_compute. repeat split. Qed.

(** The same event before [ready] does nothing. *)
Example scenario_before_ready :
  let w := user_removes ["src"; "sub"] (snd (Sync_run 3 sample)) in
  emit 3 (removedDirectory ["src"; "sub"]) w = (Ret tt, w).
Proof. vm_compute. reflexivity. Qed.

(** ** Times that are not whole milliseconds *)

(** A source that is 499999 ns newer than its target, at a time of today:
    the two [mtimeMs] differ by a half, which rounds to one, and [copyFile]
    copies.  The copy is stamped with the [Date] of the source, the next
    whole millisecond. *)
Example scenario_half_a_millisecond :
  let w' := snd (FsHelper_copyFile ["src"; "a.txt"] ["out"; "a.txt"]
                   (process_of half_disk ["src"] ["out"])) in
  Math_round (ms_of_ns 1700000000123499999 - ms_of_ns 1700000000123000000) = Number_of 1 /\
  find ["out"; "a.txt"] (disk w') = Some (File (plain 1700000000124000000) "new").
Proof. vm_compute. split; reflexivity. Qed.

(** [utimes] with the [Date] 1700000000123 sets a time that is a
    microsecond short of it: the seconds of the [Date] are not a number,
    their nearest number is below them, and libuv cuts what it makes of it
    to whole microseconds. *)
Example scenario_stamp_of_a_date :
  uv__fs_to_timespec (toUnixTimestamp 1700000000123) = 1700000000122999000 /\
  uv__fs_to_timespec (toUnixTimestamp 7) = 7000000.
Proof. vm_compute. split; reflexivity. Qed.

(* ================================================================== *)
(** * The probes and [ensureDir] *)

(** Two paths diverge, or one leads to the other. *)
Lemma path_cases p : forall q,
  diverge p q \/ (exists r, q = p ++ r) \/ (exists r, r <> [] /\ p = q ++ r).
Proof.
  induction p as [| a p IH]; intros q.
  - right. left. now exists q.
  - destruct q as [| b q].
    + right. right. exists (a :: p). split; [discriminate | reflexivity].
    + destruct (string_dec a b) as [-> | N]; [| left; now left].
      destruct (IH q) as [D | [[r ->] | [r [Hr ->]]]].
      * left. right. auto.
      * right. left. now exists r.
      * right. right. exists r. auto.
Qed.

Lemma diverge_irrefl p : ~ diverge p p.
Proof. induction p as [| a p IH]; simpl; [tauto |]. intros [H | [_ H]]; auto. Qed.

Lemma diverge_prefix p r : ~ diverge (p ++ r) p.
Proof.
  induction p as [| a p IH]; simpl.
  - destruct r; tauto.
  - intros [H | [_ H]]; auto.
Qed.

(** ** What [mkdir -p] does to the disk *)

Lemma lookup_new now q : q <> [] -> lookup q (Some (Dir (new_meta now) [])) = None.
Proof. destruct q as [| c q]; [congruence |]. intros _. cbn. apply lookup_None. Qed.

Lemma mkdirp_diverge now p : forall n n' q,
  mkdirp now p n = Some n' -> diverge p q -> find q n' = find q n.
Proof.
  unfold find. induction p as [| c p IH]; intros n n' q H D; [destruct D |].
  destruct q as [| b q]; [destruct D |].
  destruct n as [| m es | |]; try discriminate. cbn [mkdirp] in H.
  destruct (mkdirp now p _) as [child' |] eqn:M; [| discriminate].
  injection H as <-. cbn [lookup].
  destruct D as [N | [<- D]].
  - now rewrite assoc_bind_other.
  - rewrite assoc_bind_same, (IH _ _ _ M D).
    destruct (assoc c es); [reflexivity |].
    rewrite lookup_None. apply lookup_new. intros ->. now destruct p.
Qed.

Lemma mkdirp_below now p : forall n n' r,
  mkdirp now p n = Some n' -> r <> [] -> find (p ++ r) n' = find (p ++ r) n.
Proof.
  unfold find. induction p as [| c p IH]; intros n n' r H Hr.
  - destruct n; try discriminate. now injection H as <-.
  - destruct n as [| m es | |]; try discriminate. cbn [mkdirp] in H.
    destruct (mkdirp now p _) as [child' |] eqn:M; [| discriminate].
    injection H as <-. cbn [app lookup].
    rewrite assoc_bind_same, (IH _ _ _ M Hr).
    destruct (assoc c es); [reflexivity |].
    rewrite lookup_None. apply lookup_new. intros E. now apply app_eq_nil in E as [_ ?].
Qed.

(** On the way to [p] and at [p] there are directories: those that were
    there, as they were but for what they hold, and new ones. *)
Lemma mkdirp_prefix now p : forall n n' q r,
  mkdirp now p n = Some n' -> p = q ++ r ->
  exists m es', find q n' = Some (Dir m es') /\
                (find q n = None \/ exists es, find q n = Some (Dir m es)).
Proof.
  unfold find. induction p as [| c p IH]; intros n n' q r H E.
  - apply eq_sym, app_eq_nil in E as [-> _].
    destruct n as [| m es | |]; try discriminate. injection H as <-.
    exists m, es. cbn. eauto.
  - destruct n as [| m es | |]; try discriminate. cbn [mkdirp] in H.
    destruct (mkdirp now p _) as [child' |] eqn:M; [| discriminate].
    injection H as <-.
    destruct q as [| b q].
    + exists m, (bind_entry c child' es). cbn. eauto.
    + cbn in E. injection E as <- E. cbn [lookup]. rewrite assoc_bind_same.
      destruct (IH _ _ _ _ M E) as [m' [es' [H1 H2]]].
      exists m', es'. split; [exact H1 |].
      destruct (assoc c es); [exact H2 |].
      left. apply lookup_None.
Qed.

Lemma mkdirp_Some now p : forall n,
  creatable p n -> exists n', mkdirp now p n = Some n'.
Proof.
  unfold creatable, find. induction p as [| c p IH]; intros n C.
  - pose proof (C [] [] n eq_refl eq_refl) as D.
    destruct n; try discriminate. cbn. eauto.
  - pose proof (C [] (c :: p) n eq_refl eq_refl) as D.
    destruct n as [| m es | |]; try discriminate. cbn [mkdirp].
    destruct (IH (match assoc c es with Some n' => n' | None => Dir (new_meta now) [] end))
      as [child' ->]; [| eauto].
    intros q r n0 E Hn. destruct (assoc c es) as [child |] eqn:A.
    + apply (C (c :: q) r n0); [cbn; congruence |]. cbn. now rewrite A.
    + destruct q as [| b q]; [cbn in Hn; now injection Hn as <- |].
      cbn in Hn. now rewrite lookup_None in Hn.
Qed.

Lemma creatable_dirs now p n n' : mkdirp now p n = Some n' -> creatable p n.
Proof. intros H q r n0 E Hn. eapply mkdirp_dirs; eauto. Qed.

(** Whatever was on the disk is there after [mkdir -p], a directory with
    what it held and possibly more. *)
Lemma mkdirp_keeps now p n n' q n0 :
  mkdirp now p n = Some n' -> find q n = Some n0 -> same_shell (find q n') (Some n0).
Proof.
  intros M Hq. destruct (path_cases p q) as [D | [[r ->] | [r [Hr ->]]]].
  - rewrite (mkdirp_diverge _ _ _ _ _ M D), Hq. apply same_shell_refl.
  - destruct r as [| c r].
    + rewrite app_nil_r in *.
      destruct (mkdirp_prefix _ _ _ _ p [] M (eq_sym (app_nil_r _))) as [m [es' [H1 H2]]].
      rewrite H1. destruct H2 as [H2 | [es H2]]; [congruence |].
      rewrite Hq in H2. injection H2 as ->. reflexivity.
    + rewrite (mkdirp_below _ _ _ _ _ M) by discriminate.
      rewrite Hq. apply same_shell_refl.
  - destruct (mkdirp_prefix _ _ _ _ q r M eq_refl) as [m [es' [H1 H2]]].
    rewrite H1. destruct H2 as [H2 | [es H2]]; [congruence |].
    rewrite Hq in H2. injection H2 as ->. reflexivity.
Qed.

(** What is new after [mkdir -p] is a directory on the way to [p]. *)
Lemma mkdirp_makes now p n n' q n1 :
  mkdirp now p n = Some n' -> find q n' = Some n1 -> find q n = None ->
  is_dir n1 = true /\ exists r, p = q ++ r.
Proof.
  intros M H1 H0. destruct (path_cases p q) as [D | [[r ->] | [r [Hr ->]]]].
  - rewrite (mkdirp_diverge _ _ _ _ _ M D) in H1. congruence.
  - destruct r as [| c r].
    + rewrite app_nil_r in *.
      destruct (mkdirp_prefix _ _ _ _ p [] M (eq_sym (app_nil_r _))) as [m [es' [H2 _]]].
      rewrite H1 in H2. injection H2 as ->. split; [reflexivity |].
      exists []. now rewrite app_nil_r.
    + rewrite (mkdirp_below _ _ _ _ _ M) in H1 by discriminate. congruence.
  - destruct (mkdirp_prefix _ _ _ _ q r M eq_refl) as [m [es' [H2 _]]].
    rewrite H1 in H2. injection H2 as ->. split; [reflexivity | eauto].
Qed.

(** ** Running [ensureDir] *)

Lemma ensureDir_run p w :
  FsHelper_ensureDir p w =
  let w1 := ticks (if exists_at p (disk w) then 2 else 1) w in
  if readable_at p (disk w) then (Ret tt, w1)
  else match mkdirp (clock w1 + 1) p (disk w) with
       | Some d' => (Ret tt, set_disk d' (tick w1))
       | None => (Throw EEXIST, tick w1)
       end.
Proof.
  unfold FsHelper_ensureDir. rewrite (bind_Ret _ _ _ _ _ (canRead_run p w)).
  cbv zeta. destruct (readable_at p (disk w)); [reflexivity |].
  unfold mkdir_recursive. rewrite command_run, disk_ticks.
  unfold fs_mkdir_recursive. now destruct (mkdirp _ p (disk w)).
Qed.

(** When [ensureDir] returns, the disk is what it was or what [mkdir -p]
    makes of it. *)
Lemma ensureDir_Ret p w w' :
  FsHelper_ensureDir p w = (Ret tt, w') ->
  (readable_at p (disk w) = true /\ disk w' = disk w) \/
  (readable_at p (disk w) = false /\
   exists now, mkdirp now p (disk w) = Some (disk w')).
Proof.
  rewrite ensureDir_run. cbv zeta.
  destruct (readable_at p (disk w)).
  - intros [= <-]. left. split; [reflexivity | apply disk_ticks].
  - destruct (mkdirp _ p (disk w)) as [d' |] eqn:M; [| discriminate].
    intros [= <-]. right. split; [reflexivity |]. eexists. rewrite disk_set_disk. exact M.
Qed.

(** [ensureDir] of a path that can be made. *)
Lemma ensureDir_creatable p w :
  creatable p (disk w) ->
  exists w', FsHelper_ensureDir p w = (Ret tt, w') /\
    (disk w' = disk w \/ exists now, mkdirp now p (disk w) = Some (disk w')).
Proof.
  intros C. rewrite ensureDir_run. cbv zeta.
  destruct (readable_at p (disk w)).
  - eexists. split; [reflexivity |]. left. apply disk_ticks.
  - match goal with |- context [mkdirp ?now p (disk w)] =>
      destruct (mkdirp_Some now p (disk w) C) as [d' M] end.
    rewrite M. eexists. split; [reflexivity |]. right. eexists.
    rewrite disk_set_disk. exact M.
Qed.

(** X1. The three probes of FsHelper never throw and leave the disk as it
    is.  [pathExists] answers whether the path leads to an entry that
    [stat] resolves; [canRead] and [canWrite] answer [true] only for such an
    entry, when it grants the permission: for a missing path, a path through
    a file or a dangling link they answer [false]. *)
Theorem probes_answer_and_leave_the_disk p w :
  (exists b w', FsHelper_pathExists p w = (Ret b, w') /\ disk w' = disk w /\
     (b = true <-> exists n s, find p (disk w) = Some n /\ stat_node n = Some s)) /\
  (exists b w', FsHelper_canRead p w = (Ret b, w') /\ disk w' = disk w /\
     (b = true <-> exists n s, find p (disk w) = Some n /\ stat_node n = Some s /\
                               st_readable s = true)) /\
  (exists b w', FsHelper_canWrite p w = (Ret b, w') /\ disk w' = disk w /\
     (b = true <-> exists n s, find p (disk w) = Some n /\ stat_node n = Some s /\
                               st_writable s = true)).
Proof.
  assert (Acc : forall mode,
    (exists u, fs_access p mode (disk w) = inr u) <->
    exists n s, find p (disk w) = Some n /\ stat_node n = Some s /\
      match mode with
      | R_OK => st_readable s
      | W_OK => st_writable s
      | RW_OK => st_readable s && st_writable s
      end = true).
  { intros mode. unfold fs_access, fs_stat.
    destruct (find p (disk w)) as [n |]; [destruct (stat_node n) as [s |] eqn:Sn |].
    - destruct (match mode with R_OK => _ | W_OK => _ | RW_OK => _ end) eqn:E.
      + split; [intros _; exists n, s; auto | intros _; now exists tt].
      + split; [intros [u H]; discriminate |].
        intros [n' [s' [[= <-] [H1 H]]]]. rewrite Sn in H1. injection H1 as <-.
        congruence.
    - split; [intros [u H]; discriminate |].
      intros [n' [s' [[= <-] [H _]]]]. congruence.
    - split; [intros [u H]; discriminate | intros [n' [s' [H _]]]; discriminate]. }
  split; [| split].
  - exists (exists_at p (disk w)), (tick w).
    split; [apply pathExists_run |]. split; [apply disk_tick |].
    unfold exists_at, fs_stat.
    destruct (find p (disk w)) as [n |]; [destruct (stat_node n) as [s |] eqn:Sn |].
    + split; [intros _; exists n, s; auto | reflexivity].
    + split; [discriminate | intros [n' [s' [[= <-] H]]]; congruence].
    + split; [discriminate | intros [n' [s' [H _]]]; discriminate].
  - eexists; eexists. split; [apply canRead_run |]. split; [apply disk_ticks |].
    rewrite <- (Acc R_OK). unfold readable_at.
    destruct (fs_access p R_OK (disk w)) as [e | u].
    + split; [discriminate | intros [u H]; discriminate].
    + split; [intros _; now exists u | reflexivity].
  - eexists; eexists. split; [apply canWrite_run |]. split; [apply disk_ticks |].
    rewrite <- (Acc W_OK). unfold writable_at.
    destruct (fs_access p W_OK (disk w)) as [e | u].
    + split; [discriminate | intros [u H]; discriminate].
    + split; [intros _; now exists u | reflexivity].
Qed.

(** X2. When [ensureDir] returns, the path exists; whatever was on the disk
    is still there, a file with its content and a directory with what it
    held; and whatever is new is a directory on the way to the path.  (The
    path itself need not be a directory: a readable file passes.) *)
Theorem ensureDir_makes_the_missing_directories p w w' :
  FsHelper_ensureDir p w = (Ret tt, w') ->
  exists_at p (disk w') = true /\
  (forall q n, find q (disk w) = Some n -> same_shell (find q (disk w')) (Some n)) /\
  (forall q n', find q (disk w') = Some n' -> find q (disk w) = None ->
     is_dir n' = true /\ exists r, p = q ++ r).
Proof.
  intros H. destruct (ensureDir_Ret _ _ _ H) as [[R D] | [R [now M]]].
  - rewrite D. split; [now apply readable_exists |]. split.
    + intros q n ->. apply same_shell_refl.
    + intros q n' H1 H0. congruence.
  - split; [| split].
    + destruct (mkdirp_prefix _ _ _ _ p [] M (eq_sym (app_nil_r _))) as [m [es' [H1 _]]].
      unfold exists_at, fs_stat. now rewrite H1.
    + intros q n Hq. exact (mkdirp_keeps now p _ _ _ _ M Hq).
    + intros q n' H1 H0. exact (mkdirp_makes now p _ _ _ _ M H1 H0).
Qed.

Lemma ensureDir_makes_the_missing_directories_witness :
  exists_at ["out"; "new"; "deep"]
    (disk (snd (FsHelper_ensureDir ["out"; "new"; "deep"] sample))) = true /\
  same_shell
    (find ["out"] (disk (snd (FsHelper_ensureDir ["out"; "new"; "deep"] sample))))
    (Some (Dir (plain 3) [("stale.txt", File (plain 4) "old")])).
Proof.
  destruct (ensureDir_makes_the_missing_directories ["out"; "new"; "deep"] sample
              (snd (FsHelper_ensureDir ["out"; "new"; "deep"] sample)) eq_refl)
    as [E [K _]].
  split; [exact E |]. apply K. reflexivity.
Defined.

(** X3. [ensureDir] of a path that is not readable and that leads through,
    or ends at, an entry that is not a directory throws, and the disk is
    what it was. *)
Theorem ensureDir_throws_at_a_file p w q r n :
  readable_at p (disk w) = false ->
  p = q ++ r -> find q (disk w) = Some n -> is_dir n = false ->
  exists e w', FsHelper_ensureDir p w = (Throw e, w') /\ disk w' = disk w.
Proof.
  intros R E Hq Hd. rewrite ensureDir_run. cbv zeta. rewrite R.
  destruct (mkdirp _ p (disk w)) as [d' |] eqn:M.
  - pose proof (mkdirp_dirs _ _ _ _ M q r n E Hq). congruence.
  - eexists; eexists. split; [reflexivity |]. now rewrite disk_tick, disk_ticks.
Qed.

Lemma ensureDir_throws_at_a_file_witness :
  exists e w', FsHelper_ensureDir ["out"; "stale.txt"; "dir"] sample = (Throw e, w') /\
               disk w' = disk sample.
Proof.
  apply (ensureDir_throws_at_a_file ["out"; "stale.txt"; "dir"] sample
           ["out"; "stale.txt"] ["dir"] (File (plain 4) "old"));
    reflexivity.
Defined.

(* ================================================================== *)
(** * What a copy leaves *)

Lemma copyFile_phases s t :
  FsHelper_copyFile s t = (FsHelper_ensureDir (dirname t) ;; copyFile_after_ensureDir s t).
Proof. reflexivity. Qed.

Lemma fs_copyFile_run s T c now d n src m es n' :
  find s d = Some n -> readable_file n = inr src ->
  find T d = Some (Dir m es) ->
  written now src (find (T ++ [c]) d) = inr n' ->
  fs_copyFile s (T ++ [c]) now d = inr (change (fun _ => Some n') (T ++ [c]) d).
Proof.
  intros Hs Hr HT Hw. unfold fs_copyFile. rewrite Hs, Hr.
  replace (dirname (T ++ [c])) with T by (symmetry; apply removelast_last).
  rewrite HT, Hw.
  destruct (T ++ [c]) eqn:E; [now apply snoc_not_nil in E | reflexivity].
Qed.

(** [copyFile] fails on a source that is not a regular file. *)
Lemma fs_copyFile_inl s t now d :
  (forall n src, find s d = Some n -> readable_file n = inr src -> False) ->
  exists e, fs_copyFile s t now d = inl e.
Proof.
  intros H. unfold fs_copyFile. destruct (find s d) as [n |]; [| eauto].
  destruct (readable_file n) as [e | src] eqn:R; [eauto |].
  exfalso. eauto.
Qed.

Lemma readable_file_stat n src :
  readable_file n = inr src -> stat_node n = Some (stats_of KFile (fst src)).
Proof. destruct n as [m s | m es | [[m s] |] | m]; cbn; intros [= <-]; reflexivity. Qed.

Lemma not_exists_not_regular p d n src :
  exists_at p d = false -> find p d = Some n -> readable_file n = inr src -> False.
Proof.
  unfold exists_at, fs_stat. intros E Hn Hr.
  rewrite Hn, (readable_file_stat _ _ Hr) in E. discriminate.
Qed.

Lemma written_file now src old :
  old = None \/ (exists m0 s0, old = Some (File m0 s0) /\ writable m0 = true) ->
  exists x, written now src old = inr (File x (snd src)) /\
            readable x = readable (fst src) /\ writable x = writable (fst src).
Proof.
  intros [-> | [m0 [s0 [-> W]]]]; cbn; rewrite ?W; eexists; repeat split.
Qed.

Lemma same_shell_entry a b : same_shell a b -> same_entry a b.
Proof.
  destruct a as [[] |], b as [[] |]; cbn; auto. now intros ->.
Qed.

Lemma set_times_flags a m x y :
  readable x = readable y -> writable x = writable y -> set_times a m x = set_times a m y.
Proof. unfold set_times. now intros -> ->. Qed.

Section CopyRun.
Variables (s T : path) (c : string).
Let t := T ++ [c].
Hypothesis apart : diverge s t.

(** The copy and the stamp, onto nothing or onto a regular file that can
    be written. *)
Lemma copy_and_stamp_run d n src m es :
  find s d = Some n -> readable_file n = inr src ->
  find T d = Some (Dir m es) ->
  (find t d = None \/
   exists m0 s0, find t d = Some (File m0 s0) /\ writable m0 = true) ->
  forall w, disk w = d ->
  exists w',
    (copyFile s t ;;
     sourceInfo <- stat s ;;
     utimes t (atime sourceInfo) (mtime sourceInfo)) w = (Ret tt, w') /\
    find t (disk w') = Some (copy_of src) /\ within t d (disk w').
Proof.
  intros Hs Hr HT Ht w Hw. subst d.
  destruct (written_file (clock w + 1) src _ Ht) as [x [Hx [Rx Wx]]].
  pose proof (fs_copyFile_run s T c (clock w + 1) (disk w) n src m es _ Hs Hr HT Hx) as C.
  fold t in C. set (d2 := change (fun _ => Some (File x (snd src))) t (disk w)) in *.
  assert (W2 : within t (disk w) d2) by (apply within_change, snoc_not_nil).
  assert (Hs2 : find s d2 = Some n).
  { rewrite (proj1 W2); [exact Hs | now apply diverge_sym]. }
  assert (Ht2 : find t d2 = Some (File x (snd src))).
  { unfold d2, t. now rewrite (find_change_child _ _ _ _ _ _ HT). }
  assert (HT2 : exists es2, find T d2 = Some (Dir m es2)).
  { pose proof (proj2 W2 T [c] eq_refl ltac:(discriminate)) as Sh.
    rewrite HT in Sh. destruct (find T d2) as [[]|]; cbn in Sh; try discriminate.
    subst. eauto. }
  destruct HT2 as [es2 HT2].
  unfold bind at 1. unfold copyFile. rewrite command_run, C.
  unfold bind at 1. rewrite stat_run, disk_set_disk.
  rewrite (fs_stat_find _ _ _ _ Hs2 (readable_file_stat _ _ Hr)).
  unfold utimes. rewrite command_run, disk_tick, disk_set_disk.
  unfold fs_utimes. rewrite Ht2. cbn [touched].
  eexists. split; [reflexivity |]. rewrite disk_set_disk.
  rewrite (set_times_flags _ _ x (fst src) Rx Wx).
  split.
  - unfold t. rewrite (find_change_child _ _ _ _ _ _ HT2). reflexivity.
  - apply within_trans with d2; [exact W2 |]. apply within_change, snoc_not_nil.
Qed.

Lemma copyFile_after_ensureDir_copies d n src m es :
  find s d = Some n -> readable_file n = inr src ->
  find T d = Some (Dir m es) ->
  (find t d = None \/
   exists m0 s0, find t d = Some (File m0 s0) /\ writable m0 = true /\
     strict_equal
       (Math_abs (Math_round (mtimeMs (stats_of KFile (fst src)) -
                              mtimeMs (stats_of KFile m0))))
       (Number_of 0) = false) ->
  forall w, disk w = d ->
  exists w', copyFile_after_ensureDir s t w = (Ret tt, w') /\
    find t (disk w') = Some (copy_of src) /\ within t d (disk w').
Proof.
  intros Hs Hr HT Ht w Hw. subst d.
  unfold copyFile_after_ensureDir. cbv zeta.
  rewrite (bind_Ret _ _ _ _ _ (pathExists_run t w)).
  destruct Ht as [Ht | [m0 [s0 [Ht [Wt Delta]]]]].
  - unfold exists_at, fs_stat. rewrite Ht.
    apply copy_and_stamp_run with n m es; auto using disk_tick.
  - unfold exists_at, fs_stat. rewrite Ht. cbn [stat_node].
    unfold bind at 1. rewrite stat_run, disk_tick.
    rewrite (fs_stat_find _ _ _ _ Hs (readable_file_stat _ _ Hr)).
    unfold bind at 1. rewrite stat_run, !disk_tick.
    rewrite (fs_stat_find _ _ _ _ Ht eq_refl).
    rewrite Delta.
    destruct (copy_and_stamp_run (disk w) n src m es Hs Hr HT) with (w := tick (tick (tick w)))
      as [w' [E [F W]]]; eauto.
    now rewrite !disk_tick.
Qed.

(** [FsHelper.copyFile] onto a target whose directory is there. *)
Lemma copyFile_copies d n src m es :
  find s d = Some n -> readable_file n = inr src ->
  find T d = Some (Dir m es) ->
  (find t d = None \/
   exists m0 s0, find t d = Some (File m0 s0) /\ writable m0 = true /\
     strict_equal
       (Math_abs (Math_round (mtimeMs (stats_of KFile (fst src)) -
                              mtimeMs (stats_of KFile m0))))
       (Number_of 0) = false) ->
  forall w, disk w = d ->
  exists w', FsHelper_copyFile s t w = (Ret tt, w') /\
    find t (disk w') = Some (copy_of src) /\ within t d (disk w').
Proof.
  intros Hs Hr HT Ht w Hw. subst d. rewrite copyFile_phases.
  replace (dirname t) with T by (symmetry; apply removelast_last).
  destruct (ensureDir_existing _ _ _ _ HT) as [w1 [E1 D1]].
  rewrite (bind_Ret _ _ _ _ _ E1).
  apply copyFile_after_ensureDir_copies with n m es; auto.
Qed.
End CopyRun.

Lemma snoc_of {A} (l : list A) : l <> [] -> exists T c, l = T ++ [c].
Proof. intros H. destruct (exists_last H) as [T [c E]]. eauto. Qed.

Lemma diverge_not_nil_r p q : diverge p q -> q <> [].
Proof. destruct p, q; simpl; try tauto. discriminate. Qed.

(** [FsHelper.copyFile] onto a target whose directory can be made. *)
Lemma copyFile_makes_the_copy s t w n src :
  diverge s t ->
  find s (disk w) = Some n -> readable_file n = inr src ->
  creatable (dirname t) (disk w) ->
  (find t (disk w) = None \/
   exists m0 s0, find t (disk w) = Some (File m0 s0) /\ writable m0 = true /\
     strict_equal
       (Math_abs (Math_round (mtimeMs (stats_of KFile (fst src)) -
                              mtimeMs (stats_of KFile m0))))
       (Number_of 0) = false) ->
  exists w', FsHelper_copyFile s t w = (Ret tt, w') /\
    find t (disk w') = Some (copy_of src) /\
    (forall q, diverge t q -> find q (disk w') = find q (disk w)) /\
    (forall q r n0, t = q ++ r -> r <> [] -> find q (disk w) = Some n0 ->
       same_shell (find q (disk w')) (Some n0)).
Proof.
  intros apart Hs Hr Cr Ht.
  destruct (snoc_of t (diverge_not_nil_r _ _ apart)) as [T [c ->]].
  replace (dirname (T ++ [c])) with T in Cr by (symmetry; apply removelast_last).
  rewrite copyFile_phases.
  replace (dirname (T ++ [c])) with T by (symmetry; apply removelast_last).
  destruct (ensureDir_creatable _ _ Cr) as [w1 [E1 _]].
  rewrite (bind_Ret _ _ _ _ _ E1).
  pose proof (ensureDir_Ret _ _ _ E1) as D1.
  assert (Keep : forall q n0, find q (disk w) = Some n0 ->
                   same_shell (find q (disk w1)) (Some n0)).
  { intros q n0 Hq. destruct D1 as [[_ D1] | [_ [now M]]].
    - rewrite D1, Hq. apply same_shell_refl.
    - exact (mkdirp_keeps now T _ _ _ _ M Hq). }
  assert (Side : forall q, diverge (T ++ [c]) q -> find q (disk w1) = find q (disk w)).
  { intros q D. destruct D1 as [[_ D1] | [_ [now M]]]; [now rewrite D1 |].
    destruct (path_cases T q) as [D' | [[r ->] | [r [Hr' ->]]]].
    - exact (mkdirp_diverge now T _ _ _ M D').
    - destruct r as [| c' r].
      + exfalso. rewrite app_nil_r in D. now apply diverge_prefix in D.
      + apply (mkdirp_below now T _ _ _ M). discriminate.
    - exfalso. rewrite <- app_assoc in D. now apply diverge_prefix in D. }
  assert (HT1 : exists m es, find T (disk w1) = Some (Dir m es)).
  { destruct D1 as [[R D1] | [_ [now M]]].
    - rewrite D1. apply readable_exists, exists_at_find in R. destruct R as [nT HT].
      pose proof (Cr T [] nT (eq_sym (app_nil_r _)) HT).
      destruct nT; try discriminate. eauto.
    - destruct (mkdirp_prefix _ _ _ _ T [] M (eq_sym (app_nil_r _))) as [m [es' [H1 _]]].
      eauto. }
  destruct HT1 as [m1 [es1 HT1]].
  assert (Hs1 : find s (disk w1) = Some n).
  { apply same_shell_not_dir; [now apply Keep |].
    apply (readable_file_inr _ _ Hr). }
  assert (Ht1 : find (T ++ [c]) (disk w1) = find (T ++ [c]) (disk w)).
  { destruct D1 as [[_ D1] | [_ [now M]]]; [now rewrite D1 |].
    apply (mkdirp_below now T _ _ _ M). discriminate. }
  destruct (copyFile_after_ensureDir_copies s T c apart (disk w1) n src m1 es1 Hs1 Hr HT1)
    with (w := w1) as [w' [E [F W]]]; [now rewrite Ht1 | reflexivity |].
  exists w'. split; [exact E |]. split; [exact F |]. split.
  - intros q D. rewrite (proj1 W q D). now apply Side.
  - intros q r n0 Eq Hr' Hq.
    eapply same_shell_trans; [apply (proj2 W q r Eq Hr') | now apply Keep].
Qed.

(** X4. [copyFile] of a regular file (or a link to one) that can be read,
    onto a path that holds nothing, or a regular file that can be written
    and that the oracle finds changed (the rounded difference of the two
    [mtimeMs] is not zero): the directories that lead to the target are
    made where they are missing, and the target is left a regular file
    with the content and the permissions of the source, stamped with the
    times that [utimes] makes of its two [Date]s.  Nothing that diverges
    from the target changes, and what led to it is still a directory with
    its permissions. *)
Theorem copyFile_leaves_a_copy s t w n src :
  diverge s t ->
  find s (disk w) = Some n -> readable_file n = inr src ->
  readable (fst src) = true ->
  creatable (dirname t) (disk w) ->
  (find t (disk w) = None \/
   exists m0 s0, find t (disk w) = Some (File m0 s0) /\ writable m0 = true /\
     strict_equal
       (Math_abs (Math_round (mtimeMs (stats_of KFile (fst src)) -
                              mtimeMs (stats_of KFile m0))))
       (Number_of 0) = false) ->
  exists w', FsHelper_copyFile s t w = (Ret tt, w') /\
    find t (disk w') = Some (copy_of src) /\
    (forall q, diverge t q -> find q (disk w') = find q (disk w)) /\
    (forall q r n0, t = q ++ r -> r <> [] -> find q (disk w) = Some n0 ->
       same_entry (find q (disk w')) (Some n0)).
Proof.
  intros apart Hs Hr _ Cr Ht.
  destruct (copyFile_makes_the_copy s t w n src apart Hs Hr Cr Ht) as [w' [E [F [D A]]]].
  exists w'. repeat split; auto.
  intros q r n0 Eq Hr' Hq. apply same_shell_entry. now apply (A q r).
Qed.

Lemma copyFile_leaves_a_copy_witness :
  exists w',
    FsHelper_copyFile ["src"; "a.txt"] ["out"; "new"; "deep"; "a.txt"] sample = (Ret tt, w') /\
    find ["out"; "new"; "deep"; "a.txt"] (disk w') =
      Some (File {| atimeNs := 5000000; mtimeNs := 7000000;
                    readable := true; writable := true |} "1").
Proof.
  destruct (copyFile_leaves_a_copy ["src"; "a.txt"] ["out"; "new"; "deep"; "a.txt"] sample
              (File {| atimeNs := 5000000; mtimeNs := 7400000;
                       readable := true; writable := true |} "1")
              ({| atimeNs := 5000000; mtimeNs := 7400000;
                  readable := true; writable := true |}, "1"))
    as [w' [E [F _]]].
  - cbn. left. discriminate.
  - reflexivity.
  - reflexivity.
  - reflexivity.
  - apply (creatable_dirs 0 _ _
             (Dir (plain 0)
                [("src", Dir (plain 1)
                   [("a.txt", File {| atimeNs := 5000000; mtimeNs := 7400000;
                                      readable := true; writable := true |} "1");
                    ("sub", Dir (plain 2) [("b.txt", File (plain 9000000) "2")])]);
                 ("out", Dir (plain 3)
                   [("stale.txt", File (plain 4) "old");
                    ("new", Dir (new_meta 0) [("deep", Dir (new_meta 0) [])])])])).
    reflexivity.
  - left. reflexivity.
  - exists w'. split; [exact E |]. rewrite F. vm_compute. reflexivity.
Defined.

(** ** A source that is not there *)

Lemma ensureDir_cases p w :
  (exists w', FsHelper_ensureDir p w = (Ret tt, w')) \/
  (exists e w', FsHelper_ensureDir p w = (Throw e, w') /\ disk w' = disk w).
Proof.
  rewrite ensureDir_run. cbv zeta. destruct (readable_at p (disk w)); [left; eauto |].
  destruct (mkdirp _ p (disk w)); [left; eauto | right].
  eexists; eexists. split; [reflexivity |]. now rewrite disk_tick, disk_ticks.
Qed.

Lemma mkdirp_dirname now t d d1 :
  mkdirp now (dirname t) d = Some d1 -> find t d1 = find t d.
Proof.
  intros M. destruct t as [| a t'].
  - cbn in M. destruct d; try discriminate. now injection M as <-.
  - destruct (snoc_of (a :: t') ltac:(discriminate)) as [T [c E]]. rewrite E in *.
    unfold dirname in M. rewrite removelast_last in M.
    apply (mkdirp_below now T _ _ _ M). discriminate.
Qed.

Lemma exists_at_false_node p d n :
  exists_at p d = false -> find p d = Some n -> n = Symlink None.
Proof.
  unfold exists_at, fs_stat. intros E H. rewrite H in E.
  destruct n as [m s | m es | [[m s] |] | m]; cbn in E; try discriminate. reflexivity.
Qed.

(** X5. [copyFile] of a source path that does not exist (or is a dangling
    link) never returns: it throws, whatever the target is, and the entry at
    the target is what it was. *)
Theorem copyFile_of_a_missing_source_throws s t w :
  exists_at s (disk w) = false ->
  exists e w', FsHelper_copyFile s t w = (Throw e, w') /\
               find t (disk w') = find t (disk w).
Proof.
  intros Ex. rewrite copyFile_phases.
  destruct (ensureDir_cases (dirname t) w) as [[w1 E1] | [e [w1 [E1 D1]]]].
  2:{ exists e, w1. unfold bind. rewrite E1. split; [reflexivity | now rewrite D1]. }
  rewrite (bind_Ret _ _ _ _ _ E1).
  pose proof (ensureDir_Ret _ _ _ E1) as D1.
  assert (NotReg : forall n src,
            find s (disk w1) = Some n -> readable_file n = inr src -> False).
  { intros n src Hn Hr. destruct D1 as [[_ D1] | [_ [now M]]].
    - rewrite D1 in Hn. eapply not_exists_not_regular; eauto.
    - destruct (find s (disk w)) as [n0 |] eqn:H0.
      + pose proof (mkdirp_keeps now _ _ _ _ _ M H0) as Sh.
        rewrite (exists_at_false_node _ _ _ Ex H0) in Sh.
        apply same_shell_not_dir in Sh; [| reflexivity].
        rewrite Hn in Sh. injection Sh as ->. discriminate.
      + destruct (mkdirp_makes now _ _ _ _ _ M Hn H0) as [Dn _].
        destruct (readable_file_inr _ _ Hr) as [Dn' _]. congruence. }
  assert (Tgt : find t (disk w1) = find t (disk w)).
  { destruct D1 as [[_ D1] | [_ [now M]]]; [now rewrite D1 |].
    now apply mkdirp_dirname with now. }
  assert (Same : exists_at t (disk w1) = true -> disk w1 = disk w).
  { intros Et. destruct D1 as [[_ D1] | [_ [now M]]]; [exact D1 |].
    apply exists_at_find in Et. destruct Et as [nt Hnt]. rewrite Tgt in Hnt.
    assert (Rt : is_dir (disk w) = true).
    { apply (mkdirp_dirs _ _ _ _ M [] (dirname t) (disk w) eq_refl eq_refl). }
    destruct (root_or_parent _ _ _ Rt Hnt) as [m [es Hp]].
    rewrite (mkdirp_existing _ _ _ _ _ Hp) in M. now injection M as <-. }
  unfold copyFile_after_ensureDir. cbv zeta.
  rewrite (bind_Ret _ _ _ _ _ (pathExists_run t w1)).
  destruct (exists_at t (disk w1)) eqn:Et.
  - unfold bind at 1. rewrite stat_run, disk_tick, (Same eq_refl).
    unfold exists_at in Ex. destruct (fs_stat s (disk w)) as [e | ss]; [| discriminate].
    exists e. eexists. split; [reflexivity |]. now rewrite !disk_tick, (Same eq_refl).
  - destruct (fs_copyFile_inl s t (clock (tick w1) + 1) (disk w1) NotReg) as [e Hc].
    unfold bind at 1. unfold copyFile. rewrite command_run, disk_tick, Hc.
    exists e. eexists. split; [reflexivity |]. now rewrite !disk_tick.
Qed.

Lemma copyFile_of_a_missing_source_throws_witness :
  exists e w',
    FsHelper_copyFile ["src"; "none"] ["out"; "stale.txt"] sample = (Throw e, w') /\
    find ["out"; "stale.txt"] (disk w') = find ["out"; "stale.txt"] (disk sample).
Proof.
  apply (copyFile_of_a_missing_source_throws ["src"; "none"] ["out"; "stale.txt"] sample).
  reflexivity.
Defined.

(* ================================================================== *)
(** * [copyDirectory] *)

(** X6. When [copyDirectory] returns, nothing that diverges from the target
    has changed, the source included; no entry below the target was lost or
    changed its type; and every path of the source exists below the
    target. *)
Theorem copyDirectory_adds_and_never_deletes fuel s T c w w' :
  diverge s (T ++ [c]) ->
  find T (disk w) <> None ->
  FsHelper_copyDirectory fuel s (T ++ [c]) w = (Ret tt, w') ->
  (forall q, diverge (T ++ [c]) q -> find q (disk w') = find q (disk w)) /\
  (forall r n, find ((T ++ [c]) ++ r) (disk w) = Some n ->
     exists n', find ((T ++ [c]) ++ r) (disk w') = Some n' /\ kind_of n' = kind_of n) /\
  (forall r, find (s ++ r) (disk w) <> None ->
     exists_at ((T ++ [c]) ++ r) (disk w') = true).
Proof.
  intros apart HT H.
  pose proof (copyDirectory_spec fuel s T c w apart HT) as S.
  destruct (wp_Ret _ _ _ _ _ _ H S) as [[W _] [_ [C2 [C3 _]]]].
  auto.
Qed.

Lemma copyDirectory_adds_and_never_deletes_witness :
  exists w',
    FsHelper_copyDirectory 3 ["src"] ["out"] sample = (Ret tt, w') /\
    (exists n', find ["out"; "stale.txt"] (disk w') = Some n' /\ kind_of n' = KFile) /\
    exists_at ["out"; "sub"; "b.txt"] (disk w') = true.
Proof.
  destruct (FsHelper_copyDirectory 3 ["src"] ["out"] sample) as [r w'] eqn:E.
  assert (R : r = Ret tt) by (apply (f_equal fst) in E; vm_compute in E; now subst r).
  subst r. exists w'. split; [reflexivity |].
  destruct (copyDirectory_adds_and_never_deletes 3 ["src"] [] "out" sample w')
    as [_ [K P]].
  - cbn. left. discriminate.
  - discriminate.
  - exact E.
  - split.
    + apply (K ["stale.txt"] (File (plain 4) "old") eq_refl).
    + apply (P ["sub"; "b.txt"]). discriminate.
Defined.

(* ================================================================== *)
(** * The mirror that [copyDirectory] makes *)

Lemma regular_tree_entry m es c n :
  regular_tree (Dir m es) = true -> assoc c es = Some n -> regular_tree n = true.
Proof.
  cbn [regular_tree]. induction es as [| [c' n'] es IH]; [discriminate |].
  intros H. apply andb_prop in H as [H1 H2]. cbn [assoc].
  destruct (String.eqb c c'); [now intros [= <-] | auto].
Qed.

Lemma regular_tree_copyable s d n :
  find s d = Some n -> regular_tree n = true -> copyable s d.
Proof.
  intros Hs Hn r. rewrite find_app, Hs. clear Hs. revert n Hn.
  induction r as [| c r IH]; intros n Hn n0; cbn [lookup].
  - intros [= <-]. destruct n as [m s0 | m es | [[m s0] |] | m]; try discriminate;
      [right | left | right]; cbn; eauto.
  - destruct n as [| m es | |]; try discriminate.
    destruct (assoc c es) as [n1 |] eqn:A; [| now rewrite lookup_None].
    apply IH. now apply regular_tree_entry with m es c.
Qed.

Lemma mirrored_stable s t d0 d1 d2 :
  mirrored s t d0 d1 -> (forall r, find (t ++ r) d2 = find (t ++ r) d1) ->
  mirrored s t d0 d2.
Proof. intros H E r. specialize (H r). rewrite E. exact H. Qed.

Lemma mirrored_from s t d0 d0' d :
  (forall r, find (s ++ r) d0' = find (s ++ r) d0) ->
  mirrored s t d0 d -> mirrored s t d0' d.
Proof. intros E H r. rewrite E. apply H. Qed.

Lemma mirrored_absent s t d0 d :
  find s d0 = None -> find t d = None -> mirrored s t d0 d.
Proof.
  intros Hs Ht r. rewrite (find_below_None _ _ r Hs). now apply find_below_None.
Qed.

Lemma mirrored_file s t d0 d n src :
  find s d0 = Some n -> readable_file n = inr src ->
  find t d = Some (copy_of src) -> mirrored s t d0 d.
Proof.
  intros Hs Hr Ht r. destruct r as [| c r].
  - rewrite !app_nil_r, Hs, Hr. exact Ht.
  - rewrite (find_not_through s d0 n (c :: r) Hs); [| apply (readable_file_inr _ _ Hr) |];
      try discriminate.
    apply (find_not_through t d (copy_of src)); [exact Ht | reflexivity | discriminate].
Qed.

Lemma mirrored_dir s t d0 d m es :
  find s d0 = Some (Dir m es) ->
  (exists m' es', find t d = Some (Dir m' es')) ->
  (forall c, mirrored (s ++ [c]) (t ++ [c]) d0 d) ->
  mirrored s t d0 d.
Proof.
  intros Hs Ht H r. destruct r as [| c r].
  - rewrite !app_nil_r, Hs. cbn. split; [reflexivity | exact Ht].
  - rewrite (snoc_cons s c r), (snoc_cons t c r). apply H.
Qed.

(** [ensureDir] of a path that is not there, in a directory that is. *)
Lemma ensureDir_fresh T c w m es :
  find T (disk w) = Some (Dir m es) -> find (T ++ [c]) (disk w) = None ->
  exists w1 now,
    FsHelper_ensureDir (T ++ [c]) w = (Ret tt, w1) /\
    disk w1 = change (fun _ => Some (Dir (new_meta now) [])) (T ++ [c]) (disk w).
Proof.
  intros HT Hc. rewrite ensureDir_run. cbv zeta.
  unfold readable_at, fs_access, fs_stat. rewrite Hc.
  unfold find in HT, Hc. rewrite (mkdirp_new _ _ _ _ _ _ HT Hc).
  match goal with |- context [alter ?f (T ++ [c]) (Some (disk w))] =>
    destruct (alter_Some f (T ++ [c]) (disk w) (snoc_not_nil T c)) as [d' A] end.
  rewrite A. eexists; eexists. split; [reflexivity |].
  rewrite disk_set_disk. unfold change. now rewrite A.
Qed.

Lemma copyDirectory_fresh fuel : forall s T c w m es mT eT,
  diverge s (T ++ [c]) ->
  find s (disk w) = Some (Dir m es) ->
  (height (Dir m es) <= fuel)%nat ->
  copyable s (disk w) ->
  find T (disk w) = Some (Dir mT eT) ->
  find (T ++ [c]) (disk w) = None ->
  wp False (FsHelper_copyDirectory fuel s (T ++ [c]))
     (fun _ w' => within (T ++ [c]) (disk w) (disk w') /\
                  mirrored s (T ++ [c]) (disk w) (disk w')) w.
Proof.
  induction fuel as [| fuel IH]; intros s T c w m es mT eT apart Hs Hh Cp HT Hnone.
  { cbn [height] in Hh. lia. }
  cbn [FsHelper_copyDirectory]. set (t := T ++ [c]) in *. set (d := disk w) in *.
  destruct (ensureDir_fresh T c w mT eT HT Hnone) as [w1 [now [E1 D1]]].
  fold t d in E1, D1.
  apply wp_bind. eapply wp_of_Ret; [exact E1 |].
  set (d1 := disk w1) in *.
  assert (W1 : within t d d1) by (rewrite D1; apply within_change, snoc_not_nil).
  assert (Ht1 : find t d1 = Some (Dir (new_meta now) [])).
  { rewrite D1. unfold t. now rewrite (find_change_child _ _ _ _ _ _ HT). }
  assert (Src1 : forall q, find (s ++ q) d1 = find (s ++ q) d).
  { intros q. apply (proj1 W1). apply diverge_sym, diverge_app_l, apart. }
  assert (Sub1 : forall r, r <> [] -> find (t ++ r) d1 = None).
  { intros r Hr. rewrite find_app, Ht1. now apply lookup_new. }
  assert (Hs1 : find s d1 = Some (Dir m es)).
  { rewrite <- Hs, <- (app_nil_r s). apply Src1. }
  apply wp_bind. unfold readdir. apply wp_query. fold d1.
  rewrite (fs_readdir_dir _ _ _ _ Hs1).
  apply wp_mono with
    (Q := fun _ w' => below t d1 (disk w') /\
                      forall c', mirrored (s ++ [c']) (t ++ [c']) d1 (disk w')).
  { intros _ w' [B Ent]. split.
    - apply within_trans with d1; [exact W1 | now apply below_within].
    - apply mirrored_from with d1.
      + intros r. symmetry. apply Src1.
      + apply mirrored_dir with m es; auto.
        destruct (below_root_kept _ _ _ _ _ B Ht1) as [es' H']. eauto. }
  apply sibling_loop with (l0 := map dirent_of (visible es)) (T := t) (d0 := d1)
    (E := fun c' d' => mirrored (s ++ [c']) (t ++ [c']) d1 d').
  - intros c' da db H E. apply mirrored_stable with da; auto.
    intros r. rewrite <- snoc_cons. apply E.
  - intros x w2 Hx B U. set (c' := name x) in *. set (d2 := disk w2) in *.
    destruct (In_listing _ _ Hx) as [n [Hn _]]. fold c' in Hn.
    assert (Src2 : forall q, find (s ++ q) d2 = find (s ++ q) d1).
    { intros q. apply (proj1 B). apply diverge_sym, diverge_app_l, apart. }
    assert (Hc1 : find (s ++ [c']) d1 = Some n).
    { rewrite find_app, Hs1. exact Hn. }
    assert (Hc2 : find (s ++ [c']) d2 = Some n) by now rewrite Src2.
    destruct (below_root_kept _ _ _ _ _ B Ht1) as [es2 Ht2]. fold d2 in Ht2.
    assert (Hn2 : find (t ++ [c']) d2 = None).
    { rewrite (U []). apply Sub1. discriminate. }
    assert (Apart : diverge (s ++ [c']) (t ++ [c'])).
    { apply diverge_app_l, diverge_app_r, apart. }
    assert (Kn : is_dir n = true \/ exists src, readable_file n = inr src).
    { apply (Cp [c'] n). fold d. now rewrite <- Src1. }
    assert (Hss : exists ss, stat_node n = Some ss).
    { destruct Kn as [Dn | [src Hr]]; [destruct n; try discriminate; cbn; eauto |].
      apply (readable_file_inr _ _ Hr). }
    destruct Hss as [ss Hss].
    unfold join. apply wp_bind. unfold stat. apply wp_query. fold d2.
    rewrite (fs_stat_find _ _ _ _ Hc2 Hss), (stat_is_dir _ _ Hss).
    destruct Kn as [Dn | [src Hr]].
    + rewrite Dn. destruct n as [| md ed | |]; try discriminate.
      eapply wp_mono; [| apply (IH (s ++ [c']) t c' (tick w2) md ed (new_meta now) es2)];
        rewrite ?disk_tick; fold d2; auto.
      * cbv beta. intros _ w3 [W3 M3]. split; [exact W3 |].
        apply mirrored_from with d2; [| exact M3].
        intros r. symmetry. rewrite <- app_assoc. apply Src2.
      * pose proof (height_assoc _ _ _ m Hn). lia.
      * intros r n0 H0. apply (Cp (c' :: r) n0). fold d.
        rewrite <- Src1, <- Src2, snoc_cons. exact H0.
    + rewrite (proj1 (readable_file_inr _ _ Hr)).
      destruct (copyFile_copies (s ++ [c']) t c' Apart d2 n src (new_meta now) es2
                  Hc2 Hr Ht2 (or_introl Hn2) (tick w2) (disk_tick w2))
        as [w3 [E3 [F3 W3]]].
      eapply wp_of_Ret; [exact E3 |]. split; [exact W3 |].
      now apply mirrored_file with n src.
  - apply incl_refl.
  - apply NoDup_listing.
  - rewrite disk_tick. apply below_refl.
  - intros x _ r. now rewrite disk_tick.
  - intros c' Hc'. rewrite disk_tick. fold d1. apply mirrored_absent.
    + rewrite find_app, Hs1. cbn. now apply listing_names.
    + apply Sub1. discriminate.
Qed.

(** X7. [copyDirectory] of a directory that holds directories, regular files
    and links to regular files only, onto a path that holds nothing in a
    directory that exists, with a recursion bound that reaches the depth of
    the source: it returns, and the target is the mirror of the source: a
    directory for every directory, for every file a regular file with its
    content and its permissions, stamped with its two [Date]s, and nothing
    else.
    Nothing that diverges from the target has changed. *)
Theorem copyDirectory_mirrors_the_source fuel s T c w m es mT eT :
  diverge s (T ++ [c]) ->
  find s (disk w) = Some (Dir m es) ->
  regular_tree (Dir m es) = true ->
  (height (Dir m es) <= fuel)%nat ->
  find T (disk w) = Some (Dir mT eT) ->
  find (T ++ [c]) (disk w) = None ->
  exists w',
    FsHelper_copyDirectory fuel s (T ++ [c]) w = (Ret tt, w') /\
    mirrored s (T ++ [c]) (disk w) (disk w') /\
    (forall q, diverge (T ++ [c]) q -> find q (disk w') = find q (disk w)).
Proof.
  intros apart Hs Reg Hh HT Hnone.
  pose proof (copyDirectory_fresh fuel s T c w m es mT eT apart Hs Hh
                (regular_tree_copyable _ _ _ Hs Reg) HT Hnone) as S.
  destruct (wp_total _ _ _ S) as [[] [w' [E [W M]]]].
  exists w'. split; [exact E |]. split; [exact M | apply W].
Qed.

Lemma copyDirectory_mirrors_the_source_witness :
  exists w',
    FsHelper_copyDirectory 2 ["src"] ["out"; "copy"]
      (process_of tree_disk ["src"] ["out"]) = (Ret tt, w') /\
    find ["out"; "copy"; "sub"; "b.txt"] (disk w') = Some (File (plain 9000000) "2") /\
    find ["out"; "copy"; "l"] (disk w') = Some (File (plain 3000000) "linked") /\
    find ["out"; "copy"; "a.txt"] (disk w') =
      Some (File {| atimeNs := 5000000; mtimeNs := 7000000;
                    readable := true; writable := false |} "1").
Proof.
  destruct (copyDirectory_mirrors_the_source 2 ["src"] ["out"] "copy"
              (process_of tree_disk ["src"] ["out"]) (plain 1)
              [("a.txt", File {| atimeNs := 5000000; mtimeNs := 7400000;
                                 readable := true; writable := false |} "1");
               ("l", Symlink (Some (plain 3000000, "linked")));
               ("sub", Dir (plain 2) [("b.txt", File (plain 9000000) "2")])]
              (plain 3) [])
    as [w' [E [M _]]].
  - cbn. left. discriminate.
  - reflexivity.
  - reflexivity.
  - cbn. lia.
  - reflexivity.
  - reflexivity.
  - exists w'. split; [exact E |]. split; [| split].
    + exact (M ["sub"; "b.txt"]).
    + exact (M ["l"]).
    + exact (M ["a.txt"]).
Defined.

(** X8. [copyDirectory] of a source path that is not there, onto a path that
    holds nothing in a directory that exists: the target directory is made,
    empty, before the listing of the source throws ENOENT; nothing else
    changes. *)
Theorem copyDirectory_of_a_missing_source fuel s T c w m es :
  diverge s (T ++ [c]) ->
  find s (disk w) = None ->
  find T (disk w) = Some (Dir m es) ->
  find (T ++ [c]) (disk w) = None ->
  exists w' now,
    FsHelper_copyDirectory (S fuel) s (T ++ [c]) w = (Throw ENOENT, w') /\
    find (T ++ [c]) (disk w') = Some (Dir (new_meta now) []) /\
    (forall q, diverge (T ++ [c]) q -> find q (disk w') = find q (disk w)).
Proof.
  intros apart Hs HT Hnone. cbn [FsHelper_copyDirectory].
  destruct (ensureDir_fresh T c w m es HT Hnone) as [w1 [now [E1 D1]]].
  rewrite (bind_Ret _ _ _ _ _ E1).
  assert (W1 : within (T ++ [c]) (disk w) (disk w1)).
  { rewrite D1. apply within_change, snoc_not_nil. }
  assert (Hs1 : find s (disk w1) = None).
  { rewrite (proj1 W1); [exact Hs | now apply diverge_sym]. }
  unfold bind. rewrite readdir_run. unfold fs_readdir. rewrite Hs1.
  exists (tick w1), now. split; [reflexivity |]. rewrite disk_tick. split.
  - rewrite D1. now rewrite (find_change_child _ _ _ _ _ _ HT).
  - apply W1.
Qed.

Lemma copyDirectory_of_a_missing_source_witness :
  exists w' now,
    FsHelper_copyDirectory 1 ["src"; "none"] ["out"; "none"] sample = (Throw ENOENT, w') /\
    find ["out"; "none"] (disk w') = Some (Dir (new_meta now) []).
Proof.
  destruct (copyDirectory_of_a_missing_source 0 ["src"; "none"] ["out"] "none" sample
              (plain 3) [("stale.txt", File (plain 4) "old")])
    as [w' [now [E [F _]]]].
  - cbn. left. discriminate.
  - reflexivity.
  - reflexivity.
  - reflexivity.
  - exists w', now. split; [exact E | exact F].
Defined.

(* ================================================================== *)
(** * [emptyDir] *)

Lemma no_binding_nil {A} (es : list (string * A)) :
  (forall c, assoc c es = None) -> es = [].
Proof.
  destruct es as [| [c v] es]; [reflexivity |]. intros H. specialize (H c).
  cbn in H. now rewrite String.eqb_refl in H.
Qed.

Lemma emptyDir_run p w :
  FsHelper_emptyDir p w =
  if exists_at p (disk w) then
    if writable_at p (disk w) then
      (items <- readdir p ;;
       for_of items (fun item => rm_recursive (join p [name item])))
        (ticks 2 (tick w))
    else (Throw EACCES, ticks 2 (tick w))
  else (Ret tt, tick w).
Proof.
  unfold FsHelper_emptyDir. rewrite (bind_Ret _ _ _ _ _ (pathExists_run p w)).
  destruct (exists_at p (disk w)) eqn:E; [| reflexivity]. cbn [negb].
  rewrite (bind_Ret _ _ _ _ _ (canWrite_run p (tick w))).
  rewrite !disk_tick, E. now destruct (writable_at p (disk w)).
Qed.

Lemma emptyDir_loop p d m es w :
  find p d = Some (Dir m es) -> disk w = d ->
  wp False
    (items <- readdir p ;;
     for_of items (fun item => rm_recursive (join p [name item])))
    (fun _ w' => below p d (disk w') /\ forall c, find (p ++ [c]) (disk w') = None) w.
Proof.
  intros Hp Hw. subst d.
  apply wp_bind. unfold readdir. apply wp_query.
  rewrite (fs_readdir_dir _ _ _ _ Hp).
  apply sibling_loop with (l0 := map dirent_of (visible es)) (T := p) (d0 := disk w)
    (E := fun c d' => find (p ++ [c]) d' = None).
  - intros c d1 d2 H E. rewrite <- H. apply (E []).
  - intros x w1 Hx B U.
    destruct (In_listing _ _ Hx) as [n [Hn _]].
    assert (Hc : find (p ++ [name x]) (disk w1) = Some n).
    { rewrite (U []), find_app, Hp. exact Hn. }
    unfold join, rm_recursive. apply wp_command.
    rewrite (fs_rm_recursive _ _ _ _ (snoc_not_nil p (name x)) Hc).
    rewrite disk_set_disk.
    pose proof (gone_change (p ++ [name x]) (disk w1) (snoc_not_nil _ _)) as G.
    split; [now apply gone_within |].
    pose proof (proj1 G []) as G0. now rewrite app_nil_r in G0.
  - apply incl_refl.
  - apply NoDup_listing.
  - rewrite disk_tick. apply below_refl.
  - intros x _ r. now rewrite disk_tick.
  - intros c Hc. rewrite disk_tick, find_app, Hp. cbn. now apply listing_names.
Qed.

(** X9. [emptyDir] of a writable directory returns and leaves the directory
    in place: a directory with the permissions it had and without any
    entry.  Nothing that diverges from the directory changes, and the
    directories that lead to it are kept. *)
Theorem emptyDir_leaves_an_empty_directory p w m es :
  find p (disk w) = Some (Dir m es) -> writable m = true ->
  exists w' m',
    FsHelper_emptyDir p w = (Ret tt, w') /\
    find p (disk w') = Some (Dir m' []) /\
    readable m' = readable m /\ writable m' = writable m /\
    (forall q, diverge p q -> find q (disk w') = find q (disk w)) /\
    (forall q r, p = q ++ r -> r <> [] ->
       same_shell (find q (disk w')) (find q (disk w))).
Proof.
  intros Hp Hw. rewrite emptyDir_run.
  unfold exists_at, writable_at, fs_access, fs_stat. rewrite Hp. cbn. rewrite Hw.
  destruct (wp_total _ _ _ (emptyDir_loop p (disk w) m es (tick (tick (tick w))) Hp
                              ltac:(now rewrite !disk_tick)))
    as [[] [w' [E [B None]]]].
  destruct (below_root_kept _ _ _ _ _ B Hp) as [es' H'].
  exists w', m. split; [exact E |]. split; [| repeat split].
  - rewrite H'. f_equal. f_equal. apply no_binding_nil. intros c.
    specialize (None c). rewrite find_app, H' in None. exact None.
  - exact Hw.
  - apply (proj1 B).
  - intros q r Eq _. now apply (proj2 B q r).
Qed.

Lemma emptyDir_leaves_an_empty_directory_witness :
  exists w',
    FsHelper_emptyDir ["src"] sample = (Ret tt, w') /\
    (exists m', find ["src"] (disk w') = Some (Dir m' [])) /\
    find ["out"; "stale.txt"] (disk w') = Some (File (plain 4) "old").
Proof.
  destruct (emptyDir_leaves_an_empty_directory ["src"] sample (plain 1)
              [("a.txt", File {| atimeNs := 5000000; mtimeNs := 7400000;
                                 readable := true; writable := true |} "1");
               ("sub", Dir (plain 2) [("b.txt", File (plain 9000000) "2")])]
              eq_refl eq_refl)
    as [w' [m' [E [F [_ [_ [S _]]]]]]].
  exists w'. split; [exact E |]. split; [now exists m' |].
  rewrite S; [reflexivity |]. cbn. left. discriminate.
Defined.

(** X10. [emptyDir] changes nothing unless the path is a writable directory:
    it returns at once when the path does not exist, and it throws when the
    path cannot be written or is not a directory. *)
Theorem emptyDir_refuses_and_leaves_the_disk p w :
  (exists_at p (disk w) = false ->
     exists w', FsHelper_emptyDir p w = (Ret tt, w') /\ disk w' = disk w) /\
  (exists_at p (disk w) = true -> writable_at p (disk w) = false ->
     exists w', FsHelper_emptyDir p w = (Throw EACCES, w') /\ disk w' = disk w) /\
  (forall n, exists_at p (disk w) = true ->
     find p (disk w) = Some n -> is_dir n = false ->
     exists e w', FsHelper_emptyDir p w = (Throw e, w') /\ disk w' = disk w).
Proof.
  rewrite emptyDir_run. split; [| split].
  - intros ->. eexists. split; [reflexivity | apply disk_tick].
  - intros -> ->. eexists. split; [reflexivity |]. cbn. now rewrite !disk_tick.
  - intros n -> Hn Hd.
    destruct (writable_at p (disk w)).
    + unfold bind. rewrite readdir_run. cbn [ticks]. rewrite !disk_tick.
      unfold fs_readdir. rewrite Hn.
      destruct n; try discriminate; eexists; eexists;
        (split; [reflexivity | now rewrite !disk_tick]).
    + eexists; eexists. split; [reflexivity |]. cbn. now rewrite !disk_tick.
Qed.

Lemma emptyDir_refuses_and_leaves_the_disk_witness :
  exists w',
    FsHelper_emptyDir ["out"; "locked"] (process_of outdated_disk ["src"] ["out"])
      = (Throw EACCES, w') /\
    disk w' = outdated_disk.
Proof.
  apply (proj1 (proj2 (emptyDir_refuses_and_leaves_the_disk ["out"; "locked"]
                         (process_of outdated_disk ["src"] ["out"])))); reflexivity.
Defined.

(* ================================================================== *)
(** * More on the initial reconciliation *)

Lemma below_trans T d0 d1 d2 : below T d0 d1 -> below T d1 d2 -> below T d0 d2.
Proof.
  intros [A1 A2] [B1 B2]. split.
  - intros q Hq. rewrite B1, A1; auto.
  - intros q r E. eapply same_shell_trans; [apply (B2 q r E) | apply (A2 q r E)].
Qed.

Lemma same_shell_Some a n' :
  same_shell (Some n') a -> exists n, a = Some n /\ same_shell (Some n') (Some n).
Proof.
  destruct a as [n |]; [eauto |]. destruct n'; cbn; discriminate.
Qed.

Lemma same_shell_sym a b : same_shell a b -> same_shell b a.
Proof. destruct a as [[]|], b as [[]|]; cbn; congruence. Qed.

Section MoreRun.
Variable this : NaiveSyncObj.
Let I := NaiveSync_inPath this.
Let O := NaiveSync_outPath this.

(** An entry of the destination whose source path exists is there when the
    run ends, with its type. *)
Lemma reconciled_keeps_kind d0 dc d rel n :
  cleaned O I d0 dc -> (forall c, top_copied I O dc c d) ->
  rel <> [] -> find (O ++ rel) d0 = Some n -> exists_at (I ++ rel) d0 = true ->
  exists n', find (O ++ rel) d = Some n' /\ kind_of n' = kind_of n.
Proof.
  intros C Top Hrel Hn Ex. destruct rel as [| c r]; [congruence |].
  assert (Hc : exists n1, find (O ++ c :: r) dc = Some n1 /\ kind_of n1 = kind_of n).
  { destruct (proj2 C c) as [_ [P4 _]]. specialize (P4 r n Hn Ex).
    apply same_shell_kind in P4. cbn in P4.
    destruct (find (O ++ c :: r) dc) as [n1 |]; [| discriminate].
    exists n1. split; [reflexivity |]. now injection P4. }
  destruct Hc as [n1 [Hc K1]]. rewrite <- K1.
  destruct (Top c) as [A U].
  destruct (find (I ++ [c]) dc) as [ns |] eqn:Hs.
  - destruct (file_or_dir_dec ns) as [Ks | Ks].
    + destruct (A ns eq_refl Ks) as [_ [C2 _]].
      rewrite snoc_cons. apply C2. rewrite <- snoc_cons. exact Hc.
    + exists n1. split; [| reflexivity]. rewrite U; [exact Hc |].
      intros n0 [= <-]. exact Ks.
  - exists n1. split; [| reflexivity]. rewrite U; [exact Hc | discriminate].
Qed.
End MoreRun.

(** X11. When [run] returns, nothing that diverges from the destination root
    has changed; in particular the source is what it was.  The destination
    root and what leads to it are kept. *)
Theorem run_changes_only_the_destination this fuel w w' :
  diverge (NaiveSync_inPath this) (NaiveSync_outPath this) ->
  NaiveSync_run fuel this w = (Ret tt, w') ->
  (forall q, diverge (NaiveSync_outPath this) q -> find q (disk w') = find q (disk w)) /\
  (forall r, find (NaiveSync_inPath this ++ r) (disk w') =
             find (NaiveSync_inPath this ++ r) (disk w)) /\
  (forall q r, NaiveSync_outPath this = q ++ r ->
     same_shell (find q (disk w')) (find q (disk w))).
Proof.
  intros roots H.
  destruct (run_Ret this roots fuel w w' H) as [wc [_ [_ [[B0 _] [_ [_ [B1 _]]]]]]].
  pose proof (below_trans _ _ _ _ B0 B1) as [F S].
  split; [exact F |]. split; [| exact S].
  intros r. apply F. apply diverge_sym, diverge_app_l, roots.
Qed.

Lemma run_changes_only_the_destination_witness :
  exists w',
    NaiveSync_run 3 src_out sample = (Ret tt, w') /\
    find ["src"] (disk w') = find ["src"] (disk sample).
Proof.
  destruct (NaiveSync_run 3 src_out sample) as [r w'] eqn:E.
  assert (R : r = Ret tt) by (apply (f_equal fst) in E; vm_compute in E; now subst r).
  subst r. exists w'. split; [reflexivity |].
  destruct (run_changes_only_the_destination src_out 3 sample w') as [_ [S _]].
  - cbn. left. discriminate.
  - exact E.
  - exact (S []).
Defined.

(** X12. When [run] returns, the files and the directories of the
    destination are at source paths only: each of them has a source path
    that exists; and every file and every directory of the source has its
    path in the destination. *)
Theorem run_leaves_the_names_of_the_source this fuel w w' :
  diverge (NaiveSync_inPath this) (NaiveSync_outPath this) ->
  NaiveSync_run fuel this w = (Ret tt, w') ->
  (forall rel n, rel <> [] ->
     find (NaiveSync_outPath this ++ rel) (disk w') = Some n -> file_or_dir n ->
     exists_at (NaiveSync_inPath this ++ rel) (disk w') = true) /\
  (forall rel n, rel <> [] ->
     find (NaiveSync_inPath this ++ rel) (disk w') = Some n -> file_or_dir n ->
     exists_at (NaiveSync_outPath this ++ rel) (disk w') = true).
Proof.
  intros roots H.
  destruct (run_Ret this roots fuel w w' H) as [wc [_ [_ [C [_ [HI [B Top]]]]]]].
  split.
  - exact (reconciled_pruned this roots _ _ _ C B Top).
  - intros rel n Hrel Hn K.
    apply (source_present this roots (disk w) (disk wc) (disk w') rel n C HI Top Hrel);
      [| exact K].
    rewrite <- (source_kept this roots _ _ rel C).
    rewrite <- (source_kept_copy this roots _ _ rel B). exact Hn.
Qed.

Lemma run_leaves_the_names_of_the_source_witness :
  exists w',
    NaiveSync_run 4 src_out (process_of mismatch_disk ["src"] ["out"]) = (Ret tt, w') /\
    exists_at ["src"; "x"] (disk w') = true /\
    exists_at ["out"; "x"] (disk w') = true.
Proof.
  destruct (NaiveSync_run 4 src_out (process_of mismatch_disk ["src"] ["out"]))
    as [r w'] eqn:E.
  assert (R : r = Ret tt) by (apply (f_equal fst) in E; vm_compute in E; now subst r).
  subst r. exists w'. split; [reflexivity |].
  destruct (run_leaves_the_names_of_the_source src_out 4
              (process_of mismatch_disk ["src"] ["out"]) w') as [P Q].
  - cbn. left. discriminate.
  - exact E.
  - assert (F : find ["out"; "x"] (disk w') = Some (File (plain 4) "kept")).
    { apply (f_equal (fun rw => find ["out"; "x"] (disk (snd rw)))) in E.
      vm_compute in E. symmetry. exact E. }
    assert (G : find ["src"; "x"] (disk w') = Some (Dir (plain 2) [])).
    { apply (f_equal (fun rw => find ["src"; "x"] (disk (snd rw)))) in E.
      vm_compute in E. symmetry. exact E. }
    split.
    + apply (P ["x"] (File (plain 4) "kept") ltac:(discriminate) F). now left.
    + apply (Q ["x"] (Dir (plain 2) []) ltac:(discriminate) G). now right.
Defined.

(** X13. [run] never deletes and never retypes an entry of the destination
    whose source path exists: when it returns the entry is there with the
    type it had.  A file of the destination stays a file even where the
    source holds a directory of that name. *)
Theorem run_keeps_the_type_of_an_entry this fuel w w' rel n :
  diverge (NaiveSync_inPath this) (NaiveSync_outPath this) ->
  NaiveSync_run fuel this w = (Ret tt, w') ->
  rel <> [] ->
  find (NaiveSync_outPath this ++ rel) (disk w) = Some n ->
  exists_at (NaiveSync_inPath this ++ rel) (disk w) = true ->
  exists n', find (NaiveSync_outPath this ++ rel) (disk w') = Some n' /\
             kind_of n' = kind_of n.
Proof.
  intros roots H Hrel Hn Ex.
  destruct (run_Ret this roots fuel w w' H) as [wc [_ [_ [C [_ [_ [_ Top]]]]]]].
  now apply (reconciled_keeps_kind this (disk w) (disk wc) (disk w') rel n C Top).
Qed.

Lemma run_keeps_the_type_of_an_entry_witness :
  exists w' n',
    NaiveSync_run 4 src_out (process_of mismatch_disk ["src"] ["out"]) = (Ret tt, w') /\
    find ["out"; "x"] (disk w') = Some n' /\ kind_of n' = KFile.
Proof.
  destruct (NaiveSync_run 4 src_out (process_of mismatch_disk ["src"] ["out"]))
    as [r w'] eqn:E.
  assert (R : r = Ret tt) by (apply (f_equal fst) in E; vm_compute in E; now subst r).
  subst r.
  destruct (run_keeps_the_type_of_an_entry src_out 4
              (process_of mismatch_disk ["src"] ["out"]) w' ["x"] (File (plain 4) "kept"))
    as [n' [F K]].
  - cbn. left. discriminate.
  - exact E.
  - discriminate.
  - reflexivity.
  - reflexivity.
  - exists w', n'. auto.
Defined.

(** X14. Where the destination holds a file and the source a directory of
    the same name that is not empty, [run] does not return: the file is
    kept by the cleanup, and the copy of the directory cannot be made
    below it. *)
Theorem run_fails_where_a_file_stands_for_a_directory this fuel w c f mf sf nf :
  diverge (NaiveSync_inPath this) (NaiveSync_outPath this) ->
  find (NaiveSync_outPath this ++ [c]) (disk w) = Some (File mf sf) ->
  find (NaiveSync_inPath this ++ [c; f]) (disk w) = Some nf ->
  failed (fst (NaiveSync_run fuel this w)) = true.
Proof.
  intros roots Ho Hi.
  destruct (NaiveSync_run fuel this w) as [[[] | e |] w'] eqn:H; try reflexivity.
  exfalso.
  destruct (run_Ret this roots fuel w w' H) as [wc [_ [_ [C [_ [_ [_ Top]]]]]]].
  change [c; f] with ([c] ++ [f]) in Hi. rewrite app_assoc in Hi.
  destruct (find_through _ _ [f] ltac:(discriminate) ltac:(now rewrite Hi)) as [md [ed Hd]].
  assert (Ex : exists_at (NaiveSync_inPath this ++ [c]) (disk w) = true).
  { unfold exists_at, fs_stat. now rewrite Hd. }
  destruct (reconciled_keeps_kind this (disk w) (disk wc) (disk w') [c] _ C Top
              ltac:(discriminate) Ho Ex) as [n' [Hn' K]].
  assert (Hdc : find (NaiveSync_inPath this ++ [c]) (disk wc) = Some (Dir md ed)).
  { rewrite <- Hd. apply (source_kept this roots _ _ [c] C). }
  destruct (Top c) as [A _].
  destruct (A _ Hdc (or_intror eq_refl)) as [_ [_ [C3 _]]].
  assert (P : exists_at ((NaiveSync_outPath this ++ [c]) ++ [f]) (disk w') = true).
  { apply C3. rewrite <- app_assoc.
    rewrite (source_kept this roots _ _ ([c] ++ [f]) C), app_assoc, Hi. discriminate. }
  apply exists_at_find in P. destruct P as [n2 P].
  destruct (find_through _ _ [f] ltac:(discriminate) ltac:(now rewrite P)) as [m2 [e2 H2]].
  rewrite H2 in Hn'. injection Hn' as <-. discriminate.
Qed.

Lemma run_fails_where_a_file_stands_for_a_directory_witness :
  failed (fst (NaiveSync_run 4 src_out (process_of clash_disk ["src"] ["out"]))) = true.
Proof.
  apply (run_fails_where_a_file_stands_for_a_directory src_out 4
           (process_of clash_disk ["src"] ["out"]) "x" "f" (plain 4) "kept"
           (File (plain 7000000) "in")).
  - cbn. left. discriminate.
  - reflexivity.
  - reflexivity.
Defined.

(** X15. [run] with a source root that does not exist: the cleanup finds no
    source path for any entry, so every file and every directory of the
    destination is deleted, and then the listing of the source throws
    ENOENT.  Nothing outside the destination changes. *)
Theorem run_without_a_source_empties_the_destination this fuel w m es :
  diverge (NaiveSync_inPath this) (NaiveSync_outPath this) ->
  find (NaiveSync_inPath this) (disk w) = None ->
  find (NaiveSync_outPath this) (disk w) = Some (Dir m es) ->
  (height (Dir m es) < fuel)%nat ->
  exists w',
    NaiveSync_run fuel this w = (Throw ENOENT, w') /\
    (forall rel n, rel <> [] ->
       find (NaiveSync_outPath this ++ rel) (disk w) = Some n -> file_or_dir n ->
       find (NaiveSync_outPath this ++ rel) (disk w') = None) /\
    (forall q, diverge (NaiveSync_outPath this) q -> find q (disk w') = find q (disk w)).
Proof.
  intros roots HI HO Hh.
  destruct (cleanup_returns this fuel w m es roots HO Hh) as [wc [Ec C]].
  rewrite run_phases. rewrite (bind_Ret _ _ _ _ _ Ec).
  assert (HIc : find (NaiveSync_inPath this) (disk wc) = None).
  { rewrite <- HI, <- (app_nil_r (NaiveSync_inPath this)).
    apply (source_kept this roots _ _ [] C). }
  unfold copy_phase, bind. rewrite readdir_run. unfold fs_readdir. rewrite HIc.
  exists (tick wc). split; [reflexivity |]. rewrite disk_tick. split.
  - intros rel n Hrel Hn K. destruct rel as [| c r]; [congruence |].
    destruct (proj2 C c) as [_ [_ P5]]. apply P5 with n; auto.
    destruct (exists_at (NaiveSync_inPath this ++ c :: r) (disk w)) eqn:Ex; auto.
    apply exists_at_prefix, exists_at_find in Ex. destruct Ex. congruence.
  - apply (proj1 C).
Qed.

Lemma run_without_a_source_empties_the_destination_witness :
  exists w',
    NaiveSync_run 4 src_out (process_of sourceless_disk ["src"] ["out"])
      = (Throw ENOENT, w') /\
    find ["out"; "a.txt"] (disk w') = None /\
    find ["out"; "sub"] (disk w') = None.
Proof.
  destruct (run_without_a_source_empties_the_destination src_out 4
              (process_of sourceless_disk ["src"] ["out"]) (plain 3)
              [("a.txt", File (plain 4) "only copy");
               ("sub", Dir (plain 5) [("b.txt", File (plain 6) "only copy")])])
    as [w' [E [P _]]].
  - cbn. left. discriminate.
  - reflexivity.
  - reflexivity.
  - cbn. lia.
  - exists w'. split; [exact E |]. split.
    + apply (P ["a.txt"] (File (plain 4) "only copy")); [discriminate | reflexivity |].
      now left.
    + apply (P ["sub"] (Dir (plain 5) [("b.txt", File (plain 6) "only copy")]));
        [discriminate | reflexivity |]. now right.
Defined.

(** X16. The cleanup only deletes.  With the recursion bound above the depth
    of the destination it returns, and every entry of the disk it leaves was
    there before: a file with its content, its permissions and its times,
    a directory as a directory with its permissions.  The source is
    untouched. *)
Theorem cleanup_only_deletes this fuel w m es :
  diverge (NaiveSync_inPath this) (NaiveSync_outPath this) ->
  find (NaiveSync_outPath this) (disk w) = Some (Dir m es) ->
  (height (Dir m es) < fuel)%nat ->
  exists w',
    NaiveSync__cleanupOutPath fuel this (NaiveSync_outPath this) w = (Ret tt, w') /\
    (forall q n', find q (disk w') = Some n' ->
       exists n, find q (disk w) = Some n /\ same_entry (Some n') (Some n)) /\
    (forall r, find (NaiveSync_inPath this ++ r) (disk w') =
               find (NaiveSync_inPath this ++ r) (disk w)).
Proof.
  intros roots HO Hh.
  destruct (cleanup_returns this fuel w m es roots HO Hh) as [w' [E C]].
  exists w'. split; [exact E |]. split.
  - assert (K : forall q n', find q (disk w') = Some n' ->
              exists n, find q (disk w) = Some n /\ same_shell (Some n') (Some n)).
    { intros q n' Hq. destruct C as [[F S] Ent].
      destruct (path_cases (NaiveSync_outPath this) q) as [D | [[r ->] | [r [Hr Eq]]]].
      + rewrite <- (F q D), Hq. exists n'. split; [reflexivity | apply same_shell_refl].
      + destruct r as [| c r].
        * rewrite app_nil_r in *. apply same_shell_Some. rewrite <- Hq.
          apply (S _ []). now rewrite app_nil_r.
        * destruct (Ent c) as [P3 _]. now apply P3.
      + apply same_shell_Some. rewrite <- Hq. now apply (S q r). }
    intros q n' Hq. destruct (K q n' Hq) as [n [Hn Sh]].
    exists n. split; [exact Hn | now apply same_shell_entry].
  - intros r. apply (source_kept this roots _ _ r C).
Qed.

Lemma cleanup_only_deletes_witness :
  exists w' n,
    NaiveSync__cleanupOutPath 4 src_out ["out"] (process_of mismatch_disk ["src"] ["out"])
      = (Ret tt, w') /\
    find ["out"; "x"] (disk w') = Some (File (plain 4) "kept") /\
    find ["out"; "x"] mismatch_disk = Some n /\
    same_entry (Some (File (plain 4) "kept")) (Some n).
Proof.
  destruct (cleanup_only_deletes src_out 4
              (process_of mismatch_disk ["src"] ["out"]) (plain 3)
              [("x", File (plain 4) "kept");
               ("old", Dir (plain 5) [("f", File (plain 6) "gone")])])
    as [w' [E [P _]]].
  - cbn. left. discriminate.
  - reflexivity.
  - cbn. lia.
  - assert (F : find ["out"; "x"] (disk w') = Some (File (plain 4) "kept")).
    { apply (f_equal (fun rw => find ["out"; "x"] (disk (snd rw)))) in E.
      vm_compute in E. symmetry. exact E. }
    destruct (P ["out"; "x"] _ F) as [n [Hn Sh]].
    exists w', n. auto.
Defined.

(* ================================================================== *)
(** * The live phase *)

(** ** The relative path mapping *)

(** X17. The mapping of ActiveSync takes a path below the source root to
    the same relative path below the destination root, one to one; and the
    mapping that the cleanup of NaiveSync computes for a destination path
    takes it back. *)
Theorem relative_path_mapping this :
  (forall rel,
     ActiveSync_resolveSource this (ActiveSync_inPath this ++ rel) = rel /\
     ActiveSync_resolveTarget this (ActiveSync_inPath this ++ rel) =
       ActiveSync_outPath this ++ rel) /\
  (forall rel rel',
     ActiveSync_resolveTarget this (ActiveSync_inPath this ++ rel) =
     ActiveSync_resolveTarget this (ActiveSync_inPath this ++ rel') -> rel = rel') /\
  (forall rel,
     join (ActiveSync_inPath this)
       (replace (ActiveSync_resolveTarget this (ActiveSync_inPath this ++ rel))
                (ActiveSync_outPath this)) = ActiveSync_inPath this ++ rel).
Proof.
  unfold ActiveSync_resolveTarget, ActiveSync_resolveSource, join.
  split; [| split].
  - intros rel. now rewrite replace_prefix.
  - intros rel rel'. rewrite !replace_prefix. apply app_inv_head.
  - intros rel. now rewrite !replace_prefix.
Qed.

Lemma relative_path_mapping_witness :
  ActiveSync_resolveTarget listening ["src"; "sub"; "b.txt"] = ["out"; "sub"; "b.txt"].
Proof.
  exact (proj2 (proj1 (relative_path_mapping listening) ["sub"; "b.txt"])).
Defined.

(** ** Additions and changes *)

(** X18. [added], [addedDirectory] and [changed] for a path that cannot be
    read (it is not there any more, or its read permission is missing) are
    dropped: the handler returns and the disk is what it was. *)
Theorem unreadable_sources_are_skipped fuel this p w :
  readable_at p (disk w) = false ->
  (exists w', ActiveSync__addHandler this p w = (Ret tt, w') /\ disk w' = disk w) /\
  (exists w', ActiveSync__addDirHandler fuel this p w = (Ret tt, w') /\ disk w' = disk w) /\
  (exists w', ActiveSync__changeHandler this p w = (Ret tt, w') /\ disk w' = disk w).
Proof.
  intros R.
  unfold ActiveSync__addHandler, ActiveSync__addDirHandler, ActiveSync__changeHandler.
  destruct (ActiveSync_ready this); cbn [negb].
  - rewrite !(bind_Ret _ _ _ _ _ (canRead_run p w)), R. cbn [negb].
    repeat split; eexists; (split; [reflexivity | apply disk_ticks]).
  - repeat split; eexists; (split; reflexivity).
Qed.

Lemma unreadable_sources_are_skipped_witness :
  exists w',
    ActiveSync__changeHandler listening ["src"; "gone.txt"] sample = (Ret tt, w') /\
    disk w' = disk sample.
Proof.
  apply (proj2 (proj2 (unreadable_sources_are_skipped 3 listening ["src"; "gone.txt"] sample
                         eq_refl))).
Defined.

(** X19. After readiness, [added] and [changed] for a readable regular file
    below the source root, whose mapped destination path holds nothing, or
    a regular file that can be written and that the oracle of [copyFile]
    finds changed (the rounded difference of the two [mtimeMs] is not
    zero): both handlers return, to the same effect; the directories that
    lead to the destination path are made where they are missing, and the
    destination path holds a regular file with the content and the
    permissions of the source, stamped with the times that [utimes] makes
    of its two [Date]s.  Nothing that diverges from that path changes. *)
Theorem added_and_changed_files_are_copied this rel w n src :
  ActiveSync_ready this = true ->
  diverge (ActiveSync_inPath this) (ActiveSync_outPath this) ->
  find (ActiveSync_inPath this ++ rel) (disk w) = Some n ->
  readable_file n = inr src -> readable (fst src) = true ->
  creatable (dirname (ActiveSync_outPath this ++ rel)) (disk w) ->
  (find (ActiveSync_outPath this ++ rel) (disk w) = None \/
   exists m0 s0, find (ActiveSync_outPath this ++ rel) (disk w) = Some (File m0 s0) /\
     writable m0 = true /\
     strict_equal
       (Math_abs (Math_round (mtimeMs (stats_of KFile (fst src)) -
                              mtimeMs (stats_of KFile m0))))
       (Number_of 0) = false) ->
  exists w',
    ActiveSync__addHandler this (ActiveSync_inPath this ++ rel) w = (Ret tt, w') /\
    ActiveSync__changeHandler this (ActiveSync_inPath this ++ rel) w = (Ret tt, w') /\
    find (ActiveSync_outPath this ++ rel) (disk w') = Some (copy_of src) /\
    (forall q, diverge (ActiveSync_outPath this ++ rel) q ->
       find q (disk w') = find q (disk w)).
Proof.
  intros Rdy roots Hs Hr Rd Cr Ht.
  unfold ActiveSync__addHandler, ActiveSync__changeHandler. rewrite Rdy. cbn [negb].
  rewrite !(bind_Ret _ _ _ _ _ (canRead_run _ w)).
  assert (R : readable_at (ActiveSync_inPath this ++ rel) (disk w) = true).
  { unfold readable_at, fs_access.
    rewrite (fs_stat_find _ _ _ _ Hs (readable_file_stat _ _ Hr)). cbn. now rewrite Rd. }
  rewrite R. cbn [negb]. rewrite resolveTarget_maps.
  set (w1 := ticks _ w).
  assert (D1 : disk w1 = disk w) by apply disk_ticks.
  destruct (copyFile_makes_the_copy (ActiveSync_inPath this ++ rel)
              (ActiveSync_outPath this ++ rel) w1 n src) as [w' [E [F [S _]]]];
    rewrite ?D1; auto.
  { apply diverge_app_l, diverge_app_r, roots. }
  exists w'. rewrite D1 in S. auto.
Qed.

Lemma added_and_changed_files_are_copied_witness :
  exists w',
    ActiveSync__changeHandler listening ["src"; "a.txt"]
      (process_of outdated_disk ["src"] ["out"]) = (Ret tt, w') /\
    find ["out"; "a.txt"] (disk w') = Some (File (plain 9000000) "new").
Proof.
  destruct (added_and_changed_files_are_copied listening ["a.txt"]
              (process_of outdated_disk ["src"] ["out"])
              (File (plain 9000000) "new") (plain 9000000, "new"))
    as [w' [_ [E [F _]]]].
  - reflexivity.
  - cbn. left. discriminate.
  - reflexivity.
  - reflexivity.
  - reflexivity.
  - apply (creatable_dirs 0 _ _ outdated_disk). reflexivity.
  - right. exists (plain 2000000), "old". split; [reflexivity |].
    split; [reflexivity | vm_compute; reflexivity].
  - exists w'. split; [exact E |]. etransitivity; [exact F | vm_compute; reflexivity].
Defined.

(** ** Stopping the watcher *)

Lemma event_name_eqb_eq a b : event_name_eqb a b = true <-> a = b.
Proof. destruct a, b; cbn; split; congruence. Qed.

Lemma remove_first_absent ev l : ~ In ev l -> remove_first ev l = l.
Proof.
  induction l as [| x l IH]; [reflexivity |]. intros N. cbn.
  destruct (event_name_eqb ev x) eqn:E.
  - apply event_name_eqb_eq in E. subst. exfalso. apply N. now left.
  - f_equal. apply IH. intros H. apply N. now right.
Qed.

Lemma In_remove_first x ev l : In x (remove_first ev l) -> In x l.
Proof.
  induction l as [| y l IH]; [auto |]. cbn.
  destruct (event_name_eqb ev y); [now right |].
  intros [H | H]; [now left | right; auto].
Qed.

Lemma NoDup_remove_first ev l :
  NoDup l -> NoDup (remove_first ev l) /\ ~ In ev (remove_first ev l).
Proof.
  induction 1 as [| x l Hx ND [IH1 IH2]]; cbn.
  - split; [constructor | tauto].
  - destruct (event_name_eqb ev x) eqn:E.
    + apply event_name_eqb_eq in E. subst. auto.
    + split.
      * constructor; [| exact IH1]. intros H. apply Hx. now apply In_remove_first in H.
      * intros [H | H]; [| now apply IH2].
        subst. destruct ev; discriminate.
Qed.

Lemma call_registered_once m this :
  registered_once this -> registered_once (ActiveSync_call m this).
Proof.
  intros R. assert (Ab : registered_once (ActiveSync_abort this)).
  { unfold ActiveSync_abort. destruct (ActiveSync_watcher this) as [fw |] eqn:W; [| exact R].
    intros fw' [= <-]. cbn. specialize (R fw W).
    repeat apply NoDup_remove_first. exact R. }
  destruct m; cbn; auto.
  - intros fw [= <-]. cbn. repeat constructor; cbn; intuition discriminate.
  - intros fw. cbn. destruct (ActiveSync_watcher this) as [fw0 |] eqn:W; [| discriminate].
    intros [= <-]. cbn. apply NoDup_remove_first. now apply R.
Qed.

Lemma new_registered_once inPath outPath :
  registered_once (ActiveSync_new inPath outPath).
Proof. intros fw. discriminate. Qed.

Lemma calls_registered_once ms : forall this,
  registered_once this -> registered_once (ActiveSync_calls ms this).
Proof.
  unfold ActiveSync_calls. induction ms as [| m ms IH]; intros this R; [exact R |].
  cbn. apply IH. now apply call_registered_once.
Qed.

Lemma abort_stopped this : registered_once this -> stopped (ActiveSync_abort this).
Proof.
  intros R fw. unfold ActiveSync_abort.
  destruct (ActiveSync_watcher this) as [fw0 |] eqn:W; [| congruence].
  intros [= <-]. cbn. split; [reflexivity |].
  specialize (R fw0 W).
  pose proof (NoDup_remove_first Ev_add _ R) as [R1 N1].
  pose proof (NoDup_remove_first Ev_addDir _ R1) as [R2 N2].
  pose proof (NoDup_remove_first Ev_change _ R2) as [R3 N3].
  pose proof (NoDup_remove_first Ev_unlink _ R3) as [R4 N4].
  pose proof (NoDup_remove_first Ev_unlinkDir _ R4) as [R5 N5].
  intros ev Hev H. cbn in Hev.
  destruct Hev as [<- | [<- | [<- | [<- | [<- | []]]]]].
  - now do 4 apply In_remove_first in H.
  - now do 3 apply In_remove_first in H.
  - now do 2 apply In_remove_first in H.
  - now apply In_remove_first in H.
  - exact (N5 H).
Qed.

Lemma abort_of_stopped this : stopped this -> ActiveSync_abort this = this.
Proof.
  intros S. unfold ActiveSync_abort.
  destruct this as [i o r [fw |]]; [| reflexivity]. cbn in *.
  destruct (S fw eq_refl) as [C N]. destruct fw as [cl l]. cbn in *. subst cl.
  unfold removeListener, close. cbn.
  rewrite (remove_first_absent Ev_add l) by (apply N; cbn; tauto).
  rewrite (remove_first_absent Ev_addDir l) by (apply N; cbn; tauto).
  rewrite (remove_first_absent Ev_change l) by (apply N; cbn; tauto).
  rewrite (remove_first_absent Ev_unlink l) by (apply N; cbn; tauto).
  rewrite (remove_first_absent Ev_unlinkDir l) by (apply N; cbn; tauto).
  reflexivity.
Qed.

(** X20. Whatever was called on an ActiveSync object before, [abort] leaves
    its watcher (if it has one) closed and without a listener for any of
    the five path events; the paths and the ready flag are kept; and a
    second [abort] changes nothing. *)
Theorem abort_stops_the_watcher ms inPath outPath :
  stopped (ActiveSync_abort (ActiveSync_calls ms (ActiveSync_new inPath outPath))) /\
  ActiveSync_ready (ActiveSync_abort (ActiveSync_calls ms (ActiveSync_new inPath outPath))) =
    ActiveSync_ready (ActiveSync_calls ms (ActiveSync_new inPath outPath)) /\
  ActiveSync_abort (ActiveSync_abort (ActiveSync_calls ms (ActiveSync_new inPath outPath))) =
    ActiveSync_abort (ActiveSync_calls ms (ActiveSync_new inPath outPath)).
Proof.
  assert (R : registered_once (ActiveSync_calls ms (ActiveSync_new inPath outPath))).
  { apply calls_registered_once, new_registered_once. }
  split; [now apply abort_stopped |]. split.
  - unfold ActiveSync_abort. now destruct (ActiveSync_watcher _).
  - now apply abort_of_stopped, abort_stopped.
Qed.

(** X21. After [Sync.abort] no event is handled any more, the [ready]
    signal included: every event that is delivered leaves the process as it
    is.  The marker of the object is set, and a second [abort] changes
    nothing when the watcher was made by [run]. *)
Theorem no_event_is_handled_after_abort fuel w :
  let w' := set_sync (Sync_abort (sync w)) w in
  Sync_aborted (sync w') = true /\
  (forall evs, for_of evs (emit fuel) w' = (Ret tt, w')) /\
  (forall ms,
     Sync_active (sync w) =
       Some (ActiveSync_calls ms
               (ActiveSync_new (Sync_inArg (sync w)) (Sync_outArg (sync w)))) ->
     Sync_abort (sync w') = sync w').
Proof.
  cbv zeta. split; [reflexivity |]. split.
  - intros evs. induction evs as [| ev evs IH]; [reflexivity |].
    cbn [for_of]. rewrite (bind_Ret _ _ _ tt (set_sync (Sync_abort (sync w)) w));
      [exact IH |].
    unfold emit, bind, get_sync. cbn [sync set_sync Sync_active Sync_abort].
    destruct (Sync_active (sync w)) as [a |]; [| reflexivity]. cbn [option_map].
    unfold ActiveSync_abort.
    destruct (ActiveSync_watcher a) as [fw |] eqn:W; cbn; [reflexivity |].
    now rewrite W.
  - intros ms Ha. cbn [sync set_sync]. unfold Sync_abort.
    cbn [Sync_inArg Sync_outArg Sync_active Sync_naive].
    rewrite Ha. cbn [option_map].
    rewrite (abort_of_stopped _ (abort_stopped _
               (calls_registered_once ms _ (new_registered_once _ _)))).
    destruct (Sync_naive (sync w)); reflexivity.
Qed.

(* ================================================================== *)
(** * The validation of the two roots *)

Lemma isPath_run p w :
  Validators_isPath p w = (Ret (exists_at p (disk w)), tick w).
Proof.
  unfold Validators_isPath, try_catch, bind, exists_at. rewrite stat_run.
  now destruct (fs_stat p (disk w)).
Qed.

Lemma isDirectory_run p w :
  Validators_isDirectory p w =
  (Ret (match fs_stat p (disk w) with
        | inr s => isDirectory (st_kind s)
        | inl _ => false
        end), tick w).
Proof.
  unfold Validators_isDirectory, try_catch, bind. rewrite stat_run.
  now destruct (fs_stat p (disk w)).
Qed.

Lemma Validators_canRead_run p w :
  Validators_canRead p w = (Ret (readable_at p (disk w)), tick w).
Proof.
  unfold Validators_canRead, try_catch, bind, access, readable_at. rewrite query_run.
  now destruct (fs_access p R_OK (disk w)) as [e | []].
Qed.

Lemma Validators_canWrite_run p w :
  Validators_canWrite p w =
  (Ret (match fs_access p RW_OK (disk w) with inr _ => true | inl _ => false end), tick w).
Proof.
  unfold Validators_canWrite, try_catch, bind, access. rewrite query_run.
  now destruct (fs_access p RW_OK (disk w)) as [e | []].
Qed.

Lemma assertSource_run p w :
  exists w', disk w' = disk w /\
    Sync_assertSource p w =
    (match find p (disk w) with
     | Some (Dir m _) => if readable m then Ret tt else Throw E_IN_DIR_ACCESS
     | _ => Throw E_IN_DIR_ERROR
     end, w').
Proof.
  unfold Sync_assertSource. rewrite (bind_Ret _ _ _ _ _ (isDirectory_run p w)).
  unfold fs_stat.
  destruct (find p (disk w)) as [[m s | m es | [[m s] |] | m] |] eqn:F; cbn;
    try (exists (tick w); split; [apply disk_tick | reflexivity]).
  rewrite (bind_Ret _ _ _ _ _ (Validators_canRead_run p (tick w))).
  rewrite disk_tick. unfold readable_at, fs_access, fs_stat. rewrite F. cbn.
  exists (tick (tick w)). split; [now rewrite !disk_tick |].
  now destruct (readable m).
Qed.

(** X22. [assertSource] accepts a readable directory and nothing else: it
    throws E_IN_DIR_ERROR for a path that is missing or is not a directory,
    E_IN_DIR_ACCESS for a directory that cannot be read; the disk is never
    changed. *)
Theorem assertSource_accepts_a_readable_directory p w :
  exists w', disk w' = disk w /\
    Sync_assertSource p w =
    (match find p (disk w) with
     | Some (Dir m _) => if readable m then Ret tt else Throw E_IN_DIR_ACCESS
     | _ => Throw E_IN_DIR_ERROR
     end, w').
Proof. apply assertSource_run. Qed.

Lemma assertTarget_existing p w n :
  exists_at p (disk w) = true -> find p (disk w) = Some n ->
  exists w', disk w' = disk w /\
    Sync_assertTarget p w =
    (match n with
     | Dir m _ => if readable m && writable m then Ret tt else Throw E_OUT_DIR_ACCESS
     | _ => Throw E_OUT_MISMATCH
     end, w').
Proof.
  intros Ex F. unfold Sync_assertTarget.
  rewrite (bind_Ret _ _ _ _ _ (isPath_run p w)), Ex. cbn [negb].
  rewrite (bind_Ret _ _ _ _ _ (isDirectory_run p (tick w))), disk_tick.
  unfold exists_at in Ex. unfold fs_stat in *. rewrite F in *.
  destruct n as [m s | m es | [[m s] |] | m]; cbn in *; try discriminate;
    try (exists (tick (tick w)); split; [now rewrite !disk_tick | reflexivity]).
  rewrite (bind_Ret _ _ _ _ _ (Validators_canWrite_run p (tick (tick w)))).
  rewrite !disk_tick. unfold fs_access, fs_stat. rewrite F. cbn.
  exists (tick (tick (tick w))). split; [now rewrite !disk_tick |].
  now destruct (readable m && writable m).
Qed.

Lemma assertTarget_missing p w :
  exists_at p (disk w) = false ->
  Sync_assertTarget p w =
  match mkdirp (clock w + 1 + 1) p (disk w) with
  | Some d' => (Ret tt, set_disk d' (tick (tick w)))
  | None => (Throw E_OUT_DIR_ACCESS, tick (tick w))
  end.
Proof.
  intros Ex. unfold Sync_assertTarget.
  rewrite (bind_Ret _ _ _ _ _ (isPath_run p w)), Ex. cbn [negb].
  unfold Sync_createTargetPath, try_catch, mkdir_recursive.
  rewrite command_run, disk_tick, clock_tick. unfold fs_mkdir_recursive.
  now destruct (mkdirp _ p (disk w)).
Qed.

(** X23. [assertTarget] on a path that exists accepts a directory that can
    be read and written: it throws E_OUT_MISMATCH for anything that is not a
    directory and E_OUT_DIR_ACCESS for a directory without one of the two
    permissions, and the disk is not changed.  On a path that does not
    exist it makes the directory, with those that are missing on the way,
    keeping what was on the disk; when that cannot be done (the way leads
    through something that is not a directory) it throws E_OUT_DIR_ACCESS
    and the disk is not changed. *)
Theorem assertTarget_accepts_or_makes_a_directory p w :
  (forall n, exists_at p (disk w) = true -> find p (disk w) = Some n ->
     exists w', disk w' = disk w /\
       Sync_assertTarget p w =
       (match n with
        | Dir m _ => if readable m && writable m then Ret tt else Throw E_OUT_DIR_ACCESS
        | _ => Throw E_OUT_MISMATCH
        end, w')) /\
  (exists_at p (disk w) = false -> creatable p (disk w) ->
     exists w', Sync_assertTarget p w = (Ret tt, w') /\
       (exists m es, find p (disk w') = Some (Dir m es)) /\
       (forall q n, find q (disk w) = Some n -> same_shell (find q (disk w')) (Some n))) /\
  (exists_at p (disk w) = false -> ~ creatable p (disk w) ->
     exists w', Sync_assertTarget p w = (Throw E_OUT_DIR_ACCESS, w') /\ disk w' = disk w).
Proof.
  split; [| split].
  - intros n. apply assertTarget_existing.
  - intros Ex Cr. rewrite (assertTarget_missing _ _ Ex).
    destruct (mkdirp_Some (clock w + 1 + 1) p (disk w) Cr) as [d' M]. rewrite M.
    eexists. split; [reflexivity |]. rewrite disk_set_disk. split.
    + destruct (mkdirp_prefix _ _ _ _ p [] M (eq_sym (app_nil_r _))) as [m [es [H _]]].
      eauto.
    + intros q n Hq. exact (mkdirp_keeps _ _ _ _ _ _ M Hq).
  - intros Ex Cr. rewrite (assertTarget_missing _ _ Ex).
    destruct (mkdirp _ p (disk w)) as [d' |] eqn:M.
    + exfalso. apply Cr. now apply creatable_dirs with (clock w + 1 + 1) d'.
    + eexists. split; [reflexivity |]. now rewrite !disk_tick.
Qed.

Lemma assertTarget_accepts_or_makes_a_directory_witness :
  (exists w', disk w' = outdated_disk /\
     Sync_assertTarget ["out"; "locked"] (process_of outdated_disk ["src"] ["out"]) =
     (Throw E_OUT_DIR_ACCESS, w')) /\
  (exists w', Sync_assertTarget ["out"; "new"; "deep"] sample = (Ret tt, w') /\
     exists m es, find ["out"; "new"; "deep"] (disk w') = Some (Dir m es)).
Proof.
  split.
  - apply (proj1 (assertTarget_accepts_or_makes_a_directory ["out"; "locked"]
                    (process_of outdated_disk ["src"] ["out"]))
             (Dir {| atimeNs := 4; mtimeNs := 4; readable := true; writable := false |}
                  [("f", File (plain 5) "kept")])); reflexivity.
  - destruct (proj1 (proj2 (assertTarget_accepts_or_makes_a_directory
                              ["out"; "new"; "deep"] sample)))
      as [w' [E [D _]]].
    + reflexivity.
    + apply (creatable_dirs 0 _ _
               (Dir (plain 0)
                  [("src", Dir (plain 1)
                     [("a.txt", File {| atimeNs := 5000000; mtimeNs := 7400000;
                                        readable := true; writable := true |} "1");
                      ("sub", Dir (plain 2) [("b.txt", File (plain 9000000) "2")])]);
                   ("out", Dir (plain 3)
                     [("stale.txt", File (plain 4) "old");
                      ("new", Dir (new_meta 0) [("deep", Dir (new_meta 0) [])])])])).
      reflexivity.
    + exists w'. split; [exact E | exact D].
Defined.

(** X24. [Sync.run] validates before it touches anything.  When the source
    is not a readable directory it throws the error of [assertSource]; when
    the source is accepted and the destination exists but is not a
    directory that can be read and written it throws the error of
    [assertTarget]; in both cases the disk is what it was: nothing is made,
    copied or deleted. *)
Theorem Sync_run_validates_first fuel w :
  ((forall m es, find (Sync_inArg (sync w)) (disk w) = Some (Dir m es) ->
      readable m = false) ->
   exists e w', Sync_run fuel w = (Throw e, w') /\ disk w' = disk w /\
                (e = E_IN_DIR_ERROR \/ e = E_IN_DIR_ACCESS)) /\
  (forall m es n,
     find (Sync_inArg (sync w)) (disk w) = Some (Dir m es) -> readable m = true ->
     exists_at (Sync_outArg (sync w)) (disk w) = true ->
     find (Sync_outArg (sync w)) (disk w) = Some n ->
     (forall m' es', n = Dir m' es' -> readable m' && writable m' = false) ->
     exists e w', Sync_run fuel w = (Throw e, w') /\ disk w' = disk w /\
                  (e = E_OUT_MISMATCH \/ e = E_OUT_DIR_ACCESS)).
Proof.
  unfold Sync_run, Sync_normalizePath.
  rewrite (bind_Ret get_sync _ w (sync w) w eq_refl). cbv beta zeta.
  destruct (assertSource_run (Sync_inArg (sync w)) w) as [w1 [D1 E1]].
  split.
  - intros Bad. unfold bind at 1. rewrite E1.
    destruct (find (Sync_inArg (sync w)) (disk w)) as [[m s | m es | l | m] |] eqn:F;
      try (eexists; eexists; split; [reflexivity | split; [exact D1 | now left]]).
    rewrite (Bad m es eq_refl).
    eexists; eexists; split; [reflexivity | split; [exact D1 | now right]].
  - intros m es n Hs Rd Ex Ht Bad. unfold bind at 1. rewrite E1, Hs, Rd.
    rewrite <- D1 in Ex, Ht.
    destruct (assertTarget_existing _ _ _ Ex Ht) as [w2 [D2 E2]].
    unfold bind at 1. rewrite E2.
    destruct n as [mf s | m' es' | l | ms];
      try (eexists; eexists; split; [reflexivity | split; [congruence | now left]]).
    rewrite (Bad m' es' eq_refl).
    eexists; eexists; split; [reflexivity | split; [congruence | now right]].
Qed.

Lemma Sync_run_validates_first_witness :
  exists e w',
    Sync_run 3 (process_of sample_disk ["src"; "a.txt"] ["out"]) = (Throw e, w') /\
    disk w' = sample_disk /\ (e = E_IN_DIR_ERROR \/ e = E_IN_DIR_ACCESS).
Proof.
  apply (proj1 (Sync_run_validates_first 3 (process_of sample_disk ["src"; "a.txt"] ["out"]))).
  intros m es H. discriminate H.
Defined.

(* ================================================================== *)
(** * The argument script *)

Lemma forEach_from_app {A St} (f : St -> A -> nat -> St) (l1 : list A) : forall l2 i st,
  forEach_from f (l1 ++ l2) i st =
  forEach_from f l2 (i + List.length l1) (forEach_from f l1 i st).
Proof.
  induction l1 as [| x l1 IH]; intros l2 i st; cbn.
  - now rewrite Nat.add_0_r.
  - rewrite IH. f_equal. lia.
Qed.

(** Arguments that are not [--in] leave [inArg] as it is. *)
Lemma scan_keeps_in args l : forall i st,
  ~ In "--in" l -> fst (forEach_from (script_callback args) l i st) = fst st.
Proof.
  induction l as [| x l IH]; intros i st N; [reflexivity |]. cbn [forEach_from].
  rewrite IH by (intros H; apply N; now right).
  unfold script_callback. destruct (String.eqb_spec x "--in") as [-> | _].
  - exfalso. apply N. now left.
  - now destruct (String.eqb x "--sync").
Qed.

Lemma scan_keeps_sync args l : forall i st,
  ~ In "--sync" l -> snd (forEach_from (script_callback args) l i st) = snd st.
Proof.
  induction l as [| x l IH]; intros i st N; [reflexivity |]. cbn [forEach_from].
  rewrite IH by (intros H; apply N; now right).
  unfold script_callback. destruct (String.eqb_spec x "--in") as [-> | _]; [reflexivity |].
  destruct (String.eqb_spec x "--sync") as [-> | _]; [| reflexivity].
  exfalso. apply N. now left.
Qed.

(** [inArg] is what follows the last [--in]. *)
Lemma scan_last_in args pre rest i st :
  ~ In "--in" rest ->
  fst (forEach_from (script_callback args) (pre ++ "--in" :: rest) i st) =
  nth_error args (i + List.length pre + 1).
Proof.
  intros N. rewrite forEach_from_app. cbn [forEach_from].
  rewrite scan_keeps_in by exact N. reflexivity.
Qed.

Lemma scan_last_sync args pre rest i st :
  ~ In "--sync" rest ->
  snd (forEach_from (script_callback args) (pre ++ "--sync" :: rest) i st) =
  nth_error args (i + List.length pre + 1).
Proof.
  intros N. rewrite forEach_from_app. cbn [forEach_from].
  rewrite scan_keeps_sync by exact N. reflexivity.
Qed.

Lemma nth_error_after {A} (pre : list A) x y post :
  nth_error (pre ++ x :: y :: post) (0 + List.length pre + 1) = Some y.
Proof.
  cbn [Nat.add]. rewrite nth_error_app2 by lia.
  replace (List.length pre + 1 - List.length pre)%nat with 1%nat by lia. reflexivity.
Qed.

Lemma nth_error_after_last {A} (pre : list A) x :
  nth_error (pre ++ [x]) (0 + List.length pre + 1) = None.
Proof. apply nth_error_None. rewrite length_app. cbn. lia. Qed.

Lemma falsy_Some v : v <> "" -> falsy (Some v) = false.
Proof. intros N. cbn. now destruct (String.eqb_spec v ""). Qed.

(** X25. The script takes for each of [--in] and [--sync] the argument that
    follows its last occurrence (an earlier occurrence is overwritten,
    whatever followed it), and when both are non-empty strings it prints
    them and throws nothing. *)
Theorem script_takes_the_last_occurrences node_path script_path pre v post pre' u post' :
  pre ++ "--in" :: v :: post = pre' ++ "--sync" :: u :: post' ->
  ~ In "--in" (v :: post) -> ~ In "--sync" (u :: post') ->
  v <> "" -> u <> "" ->
  script (node_path :: script_path :: pre ++ "--in" :: v :: post) =
  inr ("Syncing " ++ v ++ " with " ++ u)%string.
Proof.
  intros E Ni Ns Hv Hu. unfold script. cbn [skipn].
  destruct (script_scan (pre ++ "--in" :: v :: post)) as [inArg syncArg] eqn:S.
  assert (Hi : inArg = Some v).
  { apply (f_equal fst) in S. cbn in S. rewrite <- S. unfold script_scan.
    rewrite scan_last_in by exact Ni. apply nth_error_after. }
  assert (Hs : syncArg = Some u).
  { apply (f_equal snd) in S. cbn in S. rewrite <- S. unfold script_scan.
    rewrite E. rewrite scan_last_sync by exact Ns. apply nth_error_after. }
  subst. now rewrite (falsy_Some v Hv), (falsy_Some u Hu).
Qed.

Lemma script_takes_the_last_occurrences_witness :
  script ["node"; "index.js"; "--in"; "./old"; "--sync"; "./b"; "--in"; "./a"] =
  inr "Syncing ./a with ./b".
Proof.
  apply (script_takes_the_last_occurrences "node" "index.js"
           ["--in"; "./old"; "--sync"; "./b"] "./a" []
           ["--in"; "./old"] "./b" ["--in"; "./a"]).
  - reflexivity.
  - cbn. intros [H | []]. discriminate H.
  - cbn. intros [H | [H | [H | []]]]; discriminate H.
  - discriminate.
  - discriminate.
Defined.

(** X26. The script throws the [--in] error when [--in] is not among the
    arguments, and also when its last occurrence is the last argument, even
    if an earlier [--in] had a value; the [--sync] argument is looked at
    only after that: with a non-empty [--in] value and no [--sync] among the
    arguments it throws the [--sync] error. *)
Theorem script_requires_both_arguments node_path script_path :
  (forall args, ~ In "--in" args ->
     script (node_path :: script_path :: args) = inl In_argument_required) /\
  (forall pre,
     script (node_path :: script_path :: pre ++ ["--in"]) = inl In_argument_required) /\
  (forall pre v post,
     ~ In "--in" (v :: post) -> v <> "" ->
     ~ In "--sync" (pre ++ "--in" :: v :: post) ->
     script (node_path :: script_path :: pre ++ "--in" :: v :: post) =
     inl Sync_argument_required).
Proof.
  split; [| split].
  - intros args N. unfold script. cbn [skipn].
    destruct (script_scan args) as [inArg syncArg] eqn:S.
    apply (f_equal fst) in S. cbn in S. unfold script_scan in S.
    rewrite scan_keeps_in in S by exact N. cbn in S. now subst.
  - intros pre. unfold script. cbn [skipn].
    destruct (script_scan (pre ++ ["--in"])) as [inArg syncArg] eqn:S.
    apply (f_equal fst) in S. cbn in S. unfold script_scan in S.
    rewrite scan_last_in in S by (intros []). rewrite nth_error_after_last in S.
    now subst.
  - intros pre v post Ni Hv Ns. unfold script. cbn [skipn].
    destruct (script_scan (pre ++ "--in" :: v :: post)) as [inArg syncArg] eqn:S.
    assert (Hi : inArg = Some v).
    { apply (f_equal fst) in S. cbn in S. rewrite <- S. unfold script_scan.
      rewrite scan_last_in by exact Ni. apply nth_error_after. }
    assert (Hs : syncArg = Some "").
    { apply (f_equal snd) in S. cbn in S. rewrite <- S. unfold script_scan.
      now rewrite scan_keeps_sync by exact Ns. }
    subst. now rewrite (falsy_Some v Hv).
Qed.

Lemma script_requires_both_arguments_witness :
  script ["node"; "index.js"; "--in"; "./a"; "--sync"; "./b"; "--in"] =
  inl In_argument_required.
Proof.
  apply (proj1 (proj2 (script_requires_both_arguments "node" "index.js"))
           ["--in"; "./a"; "--sync"; "./b"]).
Defined.

(* ================================================================== *)
(** * Directories that appear, and the program as a whole *)

(** X27. After readiness, [addedDirectory] for a readable directory below
    the source root that holds directories, regular files and links to
    regular files only, whose mapped destination path holds nothing in a
    directory that exists: the handler returns and the destination path
    holds the mirror of the new directory. *)
Theorem added_directories_are_mirrored fuel this T c w m es mT eT :
  ActiveSync_ready this = true ->
  diverge (ActiveSync_inPath this) (ActiveSync_outPath this) ->
  find (ActiveSync_inPath this ++ T ++ [c]) (disk w) = Some (Dir m es) ->
  readable m = true ->
  regular_tree (Dir m es) = true ->
  (height (Dir m es) <= fuel)%nat ->
  find (ActiveSync_outPath this ++ T) (disk w) = Some (Dir mT eT) ->
  find (ActiveSync_outPath this ++ T ++ [c]) (disk w) = None ->
  exists w',
    ActiveSync__addDirHandler fuel this (ActiveSync_inPath this ++ T ++ [c]) w = (Ret tt, w') /\
    mirrored (ActiveSync_inPath this ++ T ++ [c]) (ActiveSync_outPath this ++ T ++ [c])
      (disk w) (disk w') /\
    (forall q, diverge (ActiveSync_outPath this ++ T ++ [c]) q ->
       find q (disk w') = find q (disk w)).
Proof.
  intros Rdy roots Hs Rd Reg Hh HT Hnone.
  unfold ActiveSync__addDirHandler. rewrite Rdy. cbn [negb].
  rewrite (bind_Ret _ _ _ _ _ (canRead_run _ w)).
  assert (R : readable_at (ActiveSync_inPath this ++ T ++ [c]) (disk w) = true).
  { unfold readable_at, fs_access. rewrite (fs_stat_find _ _ _ _ Hs eq_refl). cbn.
    now rewrite Rd. }
  rewrite R. cbn [negb]. rewrite resolveTarget_maps.
  set (w1 := ticks _ w).
  assert (D1 : disk w1 = disk w) by apply disk_ticks.
  rewrite (app_assoc (ActiveSync_outPath this)) in *.
  pose proof (copyDirectory_fresh fuel (ActiveSync_inPath this ++ T ++ [c])
                (ActiveSync_outPath this ++ T) c w1 m es mT eT) as S.
  rewrite D1 in S.
  assert (Apart : diverge (ActiveSync_inPath this ++ T ++ [c])
                          ((ActiveSync_outPath this ++ T) ++ [c])).
  { apply diverge_app_l. do 2 apply diverge_app_r. exact roots. }
  destruct (wp_total _ _ _ (S Apart Hs Hh (regular_tree_copyable _ _ _ Hs Reg) HT Hnone))
    as [[] [w' [E [W M]]]].
  exists w'. split; [exact E |]. split; [exact M | apply W].
Qed.

Lemma added_directories_are_mirrored_witness :
  exists w',
    ActiveSync__addDirHandler 2 listening ["src"; "sub"]
      (process_of tree_disk ["src"] ["out"]) = (Ret tt, w') /\
    find ["out"; "sub"; "b.txt"] (disk w') = Some (File (plain 9000000) "2").
Proof.
  destruct (added_directories_are_mirrored 2 listening [] "sub"
              (process_of tree_disk ["src"] ["out"]) (plain 2)
              [("b.txt", File (plain 9000000) "2")] (plain 3) [])
    as [w' [E [M _]]].
  - reflexivity.
  - cbn. left. discriminate.
  - reflexivity.
  - reflexivity.
  - reflexivity.
  - cbn. lia.
  - reflexivity.
  - reflexivity.
  - exists w'. split; [exact E |]. exact (M ["b.txt"]).
Defined.

(** X28. The watcher that [run] has started handles the [ready] signal
    once: the signal sets the ready flag and removes its own listener, so
    that a second [ready] does nothing, while every path event is from then
    on given to its handler. *)
Theorem ready_is_handled_once fuel w a0 :
  Sync_active (sync w) = Some (ActiveSync_run a0) ->
  exists w1,
    emit fuel ready w = (Ret tt, w1) /\ disk w1 = disk w /\
    Sync_active (sync w1) = Some (ActiveSync__readyHandler (ActiveSync_run a0)) /\
    ActiveSync_ready (ActiveSync__readyHandler (ActiveSync_run a0)) = true /\
    emit fuel ready w1 = (Ret tt, w1) /\
    forall ev, ev <> ready ->
      emit fuel ev w1 =
      ActiveSync_handle fuel (ActiveSync__readyHandler (ActiveSync_run a0)) ev w1.
Proof.
  intros Ha.
  exists (set_sync (set_active (Some (ActiveSync__readyHandler (ActiveSync_run a0))) (sync w)) w).
  split; [| split; [reflexivity | split; [reflexivity | split; [reflexivity | split]]]].
  - unfold emit, bind, get_sync. rewrite Ha. reflexivity.
  - reflexivity.
  - intros ev Hev. unfold emit, bind, get_sync. cbn [sync set_sync Sync_active set_active].
    destruct ev; try congruence; reflexivity.
Qed.

Lemma ready_is_handled_once_witness :
  exists w1,
    emit 3 ready (snd (Sync_run 3 sample)) = (Ret tt, w1) /\
    emit 3 ready w1 = (Ret tt, w1).
Proof.
  destruct (ready_is_handled_once 3 (snd (Sync_run 3 sample))
              (ActiveSync_new ["src"] ["out"]))
    as [w1 [E [_ [_ [_ [E' _]]]]]].
  - vm_compute. reflexivity.
  - exists w1. split; [exact E | exact E'].
Defined.

(** ** The whole program *)

Lemma assertTarget_Ret p w w' :
  Sync_assertTarget p w = (Ret tt, w') ->
  disk w' = disk w \/ exists now, mkdirp now p (disk w) = Some (disk w').
Proof.
  destruct (exists_at p (disk w)) eqn:Ex.
  - destruct (exists_at_find _ _ Ex) as [n Hn].
    destruct (assertTarget_existing p w n Ex Hn) as [w2 [D2 E2]]. rewrite E2.
    intros [= _ <-]. now left.
  - rewrite (assertTarget_missing _ _ Ex).
    destruct (mkdirp _ p (disk w)) as [d' |] eqn:M; [| discriminate].
    intros [= <-]. right. eexists. rewrite disk_set_disk. exact M.
Qed.

Lemma assertSource_Ret p w w' :
  Sync_assertSource p w = (Ret tt, w') -> disk w' = disk w.
Proof.
  destruct (assertSource_run p w) as [w1 [D1 E1]]. rewrite E1. now intros [= _ <-].
Qed.

(** The disks on the way of [Sync.run]. *)
Lemma Sync_run_disks fuel w w' :
  Sync_run fuel w = (Ret tt, w') ->
  exists w2 wA w5,
    (disk w2 = disk w \/
     exists now, mkdirp now (Sync_outArg (sync w)) (disk w) = Some (disk w2)) /\
    disk wA = disk w2 /\
    NaiveSync_run fuel (NaiveSync_new (Sync_inArg (sync w)) (Sync_outArg (sync w))) wA
      = (Ret tt, w5) /\
    disk w' = disk w5.
Proof.
  unfold Sync_run. intros H.
  apply bind_inv in H as [this [w0 [H0 H]]]. unfold get_sync in H0.
  injection H0 as <- <-. unfold Sync_normalizePath in H.
  apply bind_inv in H as [[] [w1 [H1 H]]].
  apply bind_inv in H as [[] [w2 [H2 H]]].
  apply bind_inv in H as [[] [w3 [H3 H]]]. unfold process_once_SIGINT in H3.
  injection H3 as <-.
  apply bind_inv in H as [[] [w4 [H4 H]]]. unfold modify_sync in H4.
  injection H4 as <-.
  apply bind_inv in H as [[] [w5 [H5 H]]].
  apply bind_inv in H as [[] [w6 [H6 H]]]. unfold modify_sync in H6.
  injection H6 as <-.
  apply bind_inv in H as [this' [w7 [H7 H]]]. unfold get_sync in H7.
  injection H7 as <- <-.
  eexists w2, _, w5. split; [| split; [| split; [exact H5 |]]].
  - pose proof (assertSource_Ret _ _ _ H1) as D1.
    destruct (assertTarget_Ret _ _ _ H2) as [D2 | [now M]].
    + left. congruence.
    + right. exists now. now rewrite <- D1.
  - reflexivity.
  - cbn [sync set_sync Sync_aborted set_naive] in H.
    destruct (Sync_aborted (sync w5)).
    + unfold ret in H. now injection H as <-.
    + apply bind_inv in H as [[] [w8 [H8 H]]]. unfold modify_sync in H8, H.
      injection H8 as <-. now injection H as <-.
Qed.

(** X29. [Sync.run] never changes the source: when it returns (the two
    roots not holding one another), every entry at and below the source
    root is what it was, and so is everything else that diverges from the
    destination root. *)
Theorem Sync_run_leaves_the_source fuel w w' :
  diverge (Sync_inArg (sync w)) (Sync_outArg (sync w)) ->
  Sync_run fuel w = (Ret tt, w') ->
  (forall r, find (Sync_inArg (sync w) ++ r) (disk w') =
             find (Sync_inArg (sync w) ++ r) (disk w)) /\
  (forall q, diverge (Sync_outArg (sync w)) q -> find q (disk w') = find q (disk w)).
Proof.
  intros roots H.
  destruct (Sync_run_disks _ _ _ H) as [w2 [wA [w5 [D2 [DA [Hrun D']]]]]].
  assert (F : forall q, diverge (Sync_outArg (sync w)) q ->
                find q (disk w') = find q (disk w)).
  { intros q Hq. rewrite D'.
    destruct (run_Ret (NaiveSync_new (Sync_inArg (sync w)) (Sync_outArg (sync w))) roots
                fuel wA w5 Hrun) as [wc [_ [_ [[B0 _] [_ [_ [B1 _]]]]]]].
    cbn [NaiveSync_new NaiveSync_inPath NaiveSync_outPath] in B0, B1.
    rewrite (proj1 B1 q Hq), (proj1 B0 q Hq), DA.
    destruct D2 as [-> | [now M]]; [reflexivity |].
    exact (mkdirp_diverge _ _ _ _ _ M Hq). }
  split; [| exact F].
  intros r. apply F. apply diverge_sym, diverge_app_l, roots.
Qed.

Lemma Sync_run_leaves_the_source_witness :
  exists w',
    Sync_run 3 sample = (Ret tt, w') /\
    find ["src"] (disk w') = find ["src"] (disk sample).
Proof.
  destruct (Sync_run 3 sample) as [r w'] eqn:E.
  assert (R : r = Ret tt) by (apply (f_equal fst) in E; vm_compute in E; now subst r).
  subst r. exists w'. split; [reflexivity |].
  destruct (Sync_run_leaves_the_source 3 sample w') as [S _].
  - cbn. left. discriminate.
  - exact E.
  - exact (S []).
Defined.

(** X30. [copyFile] made again changes nothing: when a copy of a file onto
    a target whose directory exists has returned, the same copy made again
    leaves the disk as it is, whatever its outcome.  Either the oracle
    finds the target unchanged; or the content and the stamp are written
    again, and are what they were; or the copy is refused, because the
    target cannot be written.  It returns when the source file can be
    written. *)
Theorem copyFile_again_changes_nothing s T c w w1 n :
  diverge s (T ++ [c]) ->
  find T (disk w) <> None ->
  find s (disk w) = Some n -> is_dir n = false ->
  FsHelper_copyFile s (T ++ [c]) w = (Ret tt, w1) ->
  exists r w2,
    FsHelper_copyFile s (T ++ [c]) w1 = (r, w2) /\ disk w2 = disk w1 /\
    ((forall src, readable_file n = inr src -> writable (fst src) = true) -> r = Ret tt).
Proof.
  intros apart HT Hs Hd H.
  assert (Hfile : forall n0, find s (disk w) = Some n0 -> is_dir n0 = false).
  { intros n0 H0. congruence. }
  pose proof (copyFile_spec s T c apart w HT Hfile) as S.
  destruct (wp_Ret _ _ _ _ _ _ H S) as [W [[_ [_ [_ C4]]] _]].
  specialize (C4 [] n). rewrite !app_nil_r in C4. specialize (C4 Hs).
  destruct (stat_node n) as [ss |] eqn:Hss; [| contradiction].
  rewrite (stat_is_dir _ _ Hss), Hd in C4.
  assert (Ens : ensured T (disk w)).
  { rewrite copyFile_phases in H. apply bind_inv in H as [[] [wE [HE _]]].
    replace (dirname (T ++ [c])) with T in HE by (symmetry; apply removelast_last).
    destruct (ensureDir_Ret _ _ _ HE) as [[R _] | [_ [now M]]]; [now left | right].
    destruct (find T (disk w)) as [nT |] eqn:HnT; [| congruence].
    pose proof (mkdirp_dirs _ _ _ _ M T [] nT (eq_sym (app_nil_r _)) HnT) as DT.
    destruct nT; try discriminate. eauto. }
  apply copyFile_still with (d := disk w1) (ss := ss); auto.
  - apply ensured_shell with (disk w); [| exact Ens].
    apply (proj2 W T [c] eq_refl). discriminate.
  - rewrite (proj1 W); [exact Hs | now apply diverge_sym].
Qed.

(** The second copy of a file whose stamp the oracle finds changed. *)
Lemma copyFile_again_changes_nothing_witness :
  exists w1 w2,
    FsHelper_copyFile ["src"; "a.txt"] ["out"; "a.txt"]
      (process_of (precise_disk true) ["src"] ["out"]) = (Ret tt, w1) /\
    FsHelper_copyFile ["src"; "a.txt"] ["out"; "a.txt"] w1 = (Ret tt, w2) /\
    disk w2 = disk w1.
Proof.
  destruct (FsHelper_copyFile ["src"; "a.txt"] ["out"; "a.txt"]
              (process_of (precise_disk true) ["src"] ["out"])) as [r w1] eqn:E.
  assert (R : r = Ret tt) by (apply (f_equal fst) in E; vm_compute in E; now subst r).
  subst r.
  destruct (copyFile_again_changes_nothing ["src"; "a.txt"] ["out"] "a.txt"
              (process_of (precise_disk true) ["src"] ["out"]) w1
              (File {| atimeNs := 1700000000000000000; mtimeNs := 1700000000123499600;
                       readable := true; writable := true |} "1"))
    as [r [w2 [E2 [D2 R2]]]].
  - cbn. left. discriminate.
  - discriminate.
  - reflexivity.
  - reflexivity.
  - exact E.
  - exists w1, w2. split; [reflexivity |]. split; [| exact D2].
    cbn [app] in E2. rewrite E2. f_equal. apply R2. intros src [= <-]. reflexivity.
Defined.
